(** * Harmonic modifier and playback engine of theory-tool-2

    Shallow embedding of
    - [src/config/chordModifierRules.ts]  (category table, conflict resolver),
    - [src/config/chords.ts]              (modifier catalog),
    - [src/components/ChordCard.tsx]      (interval computation, tap and
                                           long-press handlers, pointer
                                           handlers, piano preview; of its
                                           earlier revision [applyModifier]
                                           and [handleSelectChange]),
    - [src/components/ChordTimeline.tsx]  (progression playback),
    - [src/hooks/useMidiInput.ts]         (note tracking).

    Conventions.  A JavaScript [Set<string>] is a duplicate-free list in
    insertion order (the order [forEach] visits it).  A [number] holding a
    semitone offset or a beat count is a [Z]; tempo arithmetic is done in
    [Q].  A plain object used as a dictionary is a [gmap] over its own
    keys.  Arrays that the code mutates in place live in an explicit heap.

    Handlers are functions from the state before an event to the state
    after it and the calls they make; React state written by a handler is
    in place before the next event is handled.  Timers are environment
    state: a list of armed timeouts or intervals, from which the browser
    picks the callback to run, and from which [clearTimeout] and
    [clearInterval] remove an entry. *)

From Stdlib Require Import ZArith QArith Lia.
From stdpp Require Import base decidable option list sorting gmap strings.

Local Open Scope Z_scope.
Local Open Scope string_scope.
Local Open Scope list_scope.

(** ** JavaScript [Set<string>] *)

Module JsSet.

Abbreviation t := (list string).

Definition has (x : string) (s : t) : bool := bool_decide (x ∈ s).

(** [s.add(x)]: appended at the end unless already present. *)
Definition add (x : string) (s : t) : t :=
  if has x s then s else s ++ [x].

(** [s.delete(x)] *)
Definition delete (x : string) (s : t) : t :=
  filter (λ y, y ≠ x) s.

End JsSet.

(** ** chordModifierRules.ts *)

Inductive ModifierCategory :=
  | seventh | extension | addition | suspension | quality.

#[global] Instance ModifierCategory_eq_dec : EqDecision ModifierCategory.
Proof. solve_decision. Defined.

(** [MODIFIER_CATEGORIES]: label -> category, the twelve own keys of the
    object literal.  A lookup [MODIFIER_CATEGORIES[l]] also sees the names
    the object inherits from [Object.prototype]: that lookup is
    [MODIFIER_CATEGORIES_at] below. *)
Definition MODIFIER_CATEGORIES : gmap string ModifierCategory :=
  list_to_map
    [ ("7", seventh); ("maj7", seventh); ("6", seventh);
      ("9", extension); ("maj9", extension); ("11", extension);
      ("13", extension);
      ("add9", addition);
      ("sus2", suspension); ("sus4", suspension);
      ("dim", quality); ("aug", quality) ].

(** [CATEGORY_CONFLICTS]: when adding a modifier of category X, remove all
    modifiers of the listed categories. *)
Definition CATEGORY_CONFLICTS (c : ModifierCategory) : list ModifierCategory :=
  match c with
  | seventh    => [seventh; extension]
  | extension  => [extension; seventh; addition; quality]
  | addition   => [addition; extension]
  | suspension => [suspension; quality]
  | quality    => [quality; suspension; extension; addition]
  end.

(** [arr.includes(x)] *)
Definition includes `{EqDecision A} (x : A) (arr : list A) : bool :=
  bool_decide (x ∈ arr).

(** One iteration of the [activeModifiers.forEach] body: it pushes
    [activeModifier] onto [conflicts] when its category is listed. *)
Definition conflict_step (conflictingCategories : list ModifierCategory)
    (conflicts : list string) (activeModifier : string) : list string :=
  match MODIFIER_CATEGORIES !! activeModifier with
  | Some activeCategory =>
      if includes activeCategory conflictingCategories
      then conflicts ++ [activeModifier]
      else conflicts
  | None => conflicts
  end.

(** [getConflictingModifiers] for a label that names no inherited property,
    as the buttons of the card pass it.  The function on any string, where
    it can throw, is [getConflictingModifiers_js] below; on such a label it
    returns what this one does. *)
Definition getConflictingModifiers
    (modifierToAdd : string) (activeModifiers : JsSet.t) : list string :=
  match MODIFIER_CATEGORIES !! modifierToAdd with
  | None => []
  | Some category =>
      let conflictingCategories := CATEGORY_CONFLICTS category in
      foldl (conflict_step conflictingCategories) [] activeModifiers
  end.

(** The property the conflict resolver is meant to decide: the category of
    [active] is listed under the category of [candidate]. *)
Definition listed_under (candidate active : string) : Prop :=
  ∃ c c', MODIFIER_CATEGORIES !! candidate = Some c
        ∧ MODIFIER_CATEGORIES !! active = Some c'
        ∧ c' ∈ CATEGORY_CONFLICTS c.

#[global] Instance listed_under_dec candidate active :
  Decision (listed_under candidate active).
Proof.
  unfold listed_under.
  destruct (MODIFIER_CATEGORIES !! candidate) as [c|] eqn:Hc;
    [destruct (MODIFIER_CATEGORIES !! active) as [c'|] eqn:Hc';
       [destruct (decide (c' ∈ CATEGORY_CONFLICTS c))|]|].
  - left. eauto.
  - right. intros (?&?&?&?&?). congruence.
  - right. intros (?&?&?&?&?). congruence.
  - right. intros (?&?&?&?&?). congruence.
Defined.

(** [a] evicts [b]: adding an [a]-category modifier flags every active
    [b]-category modifier. *)
Definition evicts (a b : ModifierCategory) : Prop :=
  ∀ la lb, MODIFIER_CATEGORIES !! la = Some a →
           MODIFIER_CATEGORIES !! lb = Some b →
           lb ∈ getConflictingModifiers la [lb].

Definition category_in (cs : list ModifierCategory) (a : string) : Prop :=
  match MODIFIER_CATEGORIES !! a with
  | Some c' => c' ∈ cs
  | None => False
  end.

#[global] Instance category_in_dec cs a : Decision (category_in cs a).
Proof. unfold category_in. destruct (MODIFIER_CATEGORIES !! a); apply _. Defined.

(** ** config/chords.ts and types/chords.ts *)

(** [ChordModifier]; the array-valued fields are of type [A], which is
    [list Z] when arrays are read as values and a heap location when the
    identity of the array objects matters. *)
Record ChordModifier (A : Type) := mkChordModifier {
  label : string;
  intervalToAdd : option Z;
  intervalsToAdd : option A;
  intervalToRemove : option Z;
  replaceWith : option A;
}.
Arguments mkChordModifier {A}.
Arguments label {A}.
Arguments intervalToAdd {A}.
Arguments intervalsToAdd {A}.
Arguments intervalToRemove {A}.
Arguments replaceWith {A}.

Definition add_one (l : string) (i : Z) : ChordModifier (list Z) :=
  mkChordModifier l (Some i) None None None.
Definition add_many (l : string) (ivs : list Z) : ChordModifier (list Z) :=
  mkChordModifier l None (Some ivs) None None.
Definition replace_with (l : string) (ivs : list Z) : ChordModifier (list Z) :=
  mkChordModifier l None None None (Some ivs).

(** [CHORD_MODIFIERS], in the "2 rows of 6" order. *)
Definition CHORD_MODIFIERS : list (ChordModifier (list Z)) :=
  [ add_one "7" 10;
    add_one "maj7" 11;
    add_one "6" 9;
    replace_with "sus2" [0; 2; 7];
    replace_with "sus4" [0; 5; 7];
    replace_with "dim" [0; 3; 6];
    add_many "9" [10; 14];
    add_many "maj9" [11; 14];
    add_many "11" [10; 14; 17];
    add_many "13" [10; 14; 21];
    add_one "add9" 14;
    replace_with "aug" [0; 4; 8] ].

(** The other revision of [CHORD_MODIFIERS] ("ordered by frequency of
    use"): the same twelve entries in another order. *)
Definition CHORD_MODIFIERS_by_use : list (ChordModifier (list Z)) :=
  [ add_one "7" 10;
    replace_with "sus4" [0; 5; 7];
    add_one "maj7" 11;
    replace_with "sus2" [0; 2; 7];
    add_one "add9" 14;
    add_many "9" [10; 14];
    add_one "6" 9;
    replace_with "dim" [0; 3; 6];
    add_many "maj9" [11; 14];
    add_many "11" [10; 14; 17];
    add_many "13" [10; 14; 21];
    replace_with "aug" [0; 4; 8] ].

(** ** ChordCard.tsx: [calculateIntervals], arrays read as values *)

(** [arr.sort((a, b) => a - b)] on integers. *)
Definition sort_asc (arr : list Z) : list Z := merge_sort Z.le arr.

(** [if (!intervals.includes(interval)) intervals.push(interval)] *)
Definition push_if_absent (intervals : list Z) (interval : Z) : list Z :=
  if includes interval intervals then intervals else intervals ++ [interval].

(** [catalog.find((m) => m.label === modLabel)] *)
Definition find_modifier {A} (catalog : list (ChordModifier A))
    (modLabel : string) : option (ChordModifier A) :=
  List.find (λ m, String.eqb (label m) modLabel) catalog.

Section calculateIntervals.

Variable catalog : list (ChordModifier (list Z)).
Variable baseIntervals : list Z.

(** Body of [modifiers.forEach]; the loop state is the pair of the local
    variables [intervals] and [additiveMods]. *)
Definition collect_step
    (st : list Z * list (ChordModifier (list Z))) (modLabel : string)
    : list Z * list (ChordModifier (list Z)) :=
  let '(intervals, additiveMods) := st in
  match find_modifier catalog modLabel with
  | None => st
  | Some mod_ =>
      match replaceWith mod_ with
      | Some r => (r, additiveMods)
      | None => (intervals, additiveMods ++ [mod_])
      end
  end.

(** Body of [additiveMods.forEach]. *)
Definition apply_additive
    (intervals : list Z) (mod_ : ChordModifier (list Z)) : list Z :=
  match intervalsToAdd mod_ with
  | Some ivs => foldl push_if_absent intervals ivs
  | None =>
      match intervalToAdd mod_ with
      | Some i => push_if_absent intervals i
      | None =>
          match intervalToRemove mod_ with
          | Some r => filter (λ i, i ≠ r) intervals
          | None => intervals
          end
      end
  end.

Definition calculateIntervals (modifiers : JsSet.t) : list Z :=
  let '(intervals, additiveMods) :=
    foldl collect_step (baseIntervals, []) modifiers in
  sort_asc (foldl apply_additive intervals additiveMods).

(** *** The interval set as the specification words it *)

(** Catalog entries of the active labels, in the order of the set. *)
Definition active_entries (modifiers : JsSet.t)
    : list (ChordModifier (list Z)) :=
  omap (find_modifier catalog) modifiers.

(** The base after replacement: the interval set of the last active
    replace-effect modifier, or the chord's own base. *)
Definition effective_base (modifiers : JsSet.t) : list Z :=
  default baseIntervals (last (omap replaceWith (active_entries modifiers))).

Definition additive_entries (modifiers : JsSet.t)
    : list (ChordModifier (list Z)) :=
  filter (λ m, replaceWith m = None) (active_entries modifiers).

(** Effect of one add- or remove-modifier on an interval set. *)
Definition effect_on_set (s : gset Z) (mod_ : ChordModifier (list Z))
    : gset Z :=
  match intervalsToAdd mod_ with
  | Some ivs => s ∪ list_to_set ivs
  | None =>
      match intervalToAdd mod_ with
      | Some i => s ∪ {[ i ]}
      | None =>
          match intervalToRemove mod_ with
          | Some r => s ∖ {[ r ]}
          | None => s
          end
      end
  end.

Definition interval_set (modifiers : JsSet.t) : gset Z :=
  foldl effect_on_set (list_to_set (effective_base modifiers))
        (additive_entries modifiers).

End calculateIntervals.

(** Every replacement array of the catalog is duplicate-free. *)
Definition replacements_NoDup (catalog : list (ChordModifier (list Z)))
    : Prop :=
  ∀ m r, m ∈ catalog → replaceWith m = Some r → NoDup r.

(** ** ChordCard.tsx: modifier state, tap and long-press handlers *)

(** The three [useState] cells of a chord card. *)
Record ModifierState := mkModifierState {
  lockedModifiers : JsSet.t;
  tempModifier : option string;
  currentIntervals : list Z;
}.

(** Truthiness of a [string | null]: [null] and the empty string are
    falsy. *)
Definition truthy (o : option string) : bool :=
  match o with
  | Some s => negb (String.eqb s "")
  | None => false
  end.

(** [if (t) active.add(t)] *)
Definition add_if_truthy (t : option string) (active : JsSet.t) : JsSet.t :=
  match t with
  | Some l => if truthy t then JsSet.add l active else active
  | None => active
  end.

(** The [activeModifiers] memo: locked plus temp (if any). *)
Definition activeModifiers (st : ModifierState) : JsSet.t :=
  add_if_truthy (tempModifier st) (lockedModifiers st).

Section ChordCard.

(** The [intervals] prop of the card. *)
Variable baseIntervals : list Z.

Definition initialState : ModifierState :=
  mkModifierState [] None baseIntervals.

(** The effect that resets the modifiers when key, mode or base change. *)
Definition resetModifiers (st : ModifierState) : ModifierState :=
  mkModifierState [] None baseIntervals.

(** Handlers return the new state and the interval arrays passed to
    [playChord], in call order. *)
Definition handleTap (modifierLabel : string) (st : ModifierState)
    : ModifierState * list (list Z) :=
  if bool_decide (tempModifier st = Some modifierLabel) then
    let newIntervals :=
      calculateIntervals CHORD_MODIFIERS baseIntervals (lockedModifiers st) in
    (mkModifierState (lockedModifiers st) None newIntervals, [newIntervals])
  else if JsSet.has modifierLabel (lockedModifiers st) then
    (st, [currentIntervals st])
  else
    let newActive := JsSet.add modifierLabel (lockedModifiers st) in
    let newIntervals :=
      calculateIntervals CHORD_MODIFIERS baseIntervals newActive in
    (mkModifierState (lockedModifiers st) (Some modifierLabel) newIntervals,
     [newIntervals]).

(** [conflicts.forEach((m) => newLocked.delete(m))] *)
Definition delete_all (conflicts : list string) (newLocked : JsSet.t)
    : JsSet.t :=
  foldl (λ acc m, JsSet.delete m acc) newLocked conflicts.

Definition handleLongPress (modifierLabel : string) (st : ModifierState)
    : ModifierState * list (list Z) :=
  let newLocked :=
    if JsSet.has modifierLabel (lockedModifiers st) then
      JsSet.delete modifierLabel (lockedModifiers st)
    else
      let conflicts :=
        getConflictingModifiers modifierLabel (lockedModifiers st) in
      JsSet.add modifierLabel (delete_all conflicts (lockedModifiers st)) in
  let newTemp :=
    match tempModifier st with
    | Some t =>
        if truthy (tempModifier st) then
          if JsSet.has t newLocked then None
          else
            let tempConflicts := getConflictingModifiers t newLocked in
            if bool_decide (0 < length tempConflicts)%nat then None
            else tempModifier st
        else tempModifier st
    | None => None
    end in
  let newActive := add_if_truthy newTemp newLocked in
  let newIntervals :=
    calculateIntervals CHORD_MODIFIERS baseIntervals newActive in
  (mkModifierState newLocked newTemp newIntervals, [newIntervals]).

(** What can happen to a card. *)
Inductive CardEvent :=
  | Tap (modifierLabel : string)
  | LongPress (modifierLabel : string)
  | ContextChange.

Definition card_step (st : ModifierState) (e : CardEvent)
    : ModifierState * list (list Z) :=
  match e with
  | Tap l => handleTap l st
  | LongPress l => handleLongPress l st
  | ContextChange => (resetModifiers st, [])
  end.

(** Runs the events in order; the played arrays are concatenated. *)
Fixpoint card_run (st : ModifierState) (es : list CardEvent)
    : ModifierState * list (list Z) :=
  match es with
  | [] => (st, [])
  | e :: es' =>
      let '(st1, out1) := card_step st e in
      let '(st2, out2) := card_run st1 es' in
      (st2, out1 ++ out2)
  end.

(** [handlePointerUp] forwards a tap only for a truthy label, so taps carry
    non-empty labels. *)
Definition event_ok (e : CardEvent) : Prop :=
  match e with
  | Tap l => l ≠ ""
  | _ => True
  end.

Inductive reachable : ModifierState → Prop :=
  | reachable_init : reachable initialState
  | reachable_step st e :
      reachable st → event_ok e → reachable (card_step st e).1.

End ChordCard.

(** *** Invariants of the card state *)

(** Every label locked later does not list the category of a label locked
    earlier (it would have evicted it). *)
Fixpoint lock_order_ok (locked : list string) : Prop :=
  match locked with
  | [] => True
  | x :: later => (∀ y, y ∈ later → ¬ listed_under y x) ∧ lock_order_ok later
  end.

Definition card_inv (baseIntervals : list Z) (st : ModifierState) : Prop :=
  NoDup (lockedModifiers st)
  ∧ (∀ t, tempModifier st = Some t → t ≠ "" ∧ t ∉ lockedModifiers st)
  ∧ (lockedModifiers st ≠ [] →
       currentIntervals st
       = calculateIntervals CHORD_MODIFIERS baseIntervals (activeModifiers st))
  ∧ lock_order_ok (lockedModifiers st).

(** ** ChordCard.tsx: [calculateIntervals] on the heap

    The same function with arrays as objects: [baseIntervals] (a prop) and
    the arrays of the catalog are shared with the rest of the program, and
    [push] and [sort] mutate their receiver.  A heap is the list of all
    array objects by allocation index. *)

Definition loc := nat.
Abbreviation heap := (list (list Z)).

(** A new array object. *)
Definition alloc (arr : list Z) (h : heap) : loc * heap :=
  (length h, h ++ [arr]).

Definition read (h : heap) (l : loc) : list Z := default [] (h !! l).

Definition write (l : loc) (arr : list Z) (h : heap) : heap := <[l := arr]> h.

(** [[...src]]: a fresh array with the elements of [src]. *)
Definition spread (src : loc) (h : heap) : loc * heap := alloc (read h src) h.

(** The catalog entry with its arrays looked up in [h]. *)
Definition resolve (h : heap) (m : ChordModifier loc)
    : ChordModifier (list Z) :=
  mkChordModifier (label m) (intervalToAdd m) (read h <$> intervalsToAdd m)
                  (intervalToRemove m) (read h <$> replaceWith m).

(** Module initialisation: the array literals of a catalog are allocated. *)
Definition store_array (o : option (list Z)) (h : heap) : option loc * heap :=
  match o with
  | Some arr => let '(l, h') := alloc arr h in (Some l, h')
  | None => (None, h)
  end.

Definition store_modifier (m : ChordModifier (list Z)) (h : heap)
    : ChordModifier loc * heap :=
  let '(a, h1) := store_array (intervalsToAdd m) h in
  let '(r, h2) := store_array (replaceWith m) h1 in
  (mkChordModifier (label m) (intervalToAdd m) a (intervalToRemove m) r, h2).

Fixpoint store_catalog (cat : list (ChordModifier (list Z))) (h : heap)
    : list (ChordModifier loc) * heap :=
  match cat with
  | [] => ([], h)
  | m :: cat' =>
      let '(m', h1) := store_modifier m h in
      let '(cat'', h2) := store_catalog cat' h1 in
      (m' :: cat'', h2)
  end.

(** [arr.forEach(body)]: the length is read once, each element when it is
    visited. *)
Definition forEach_h (arr : loc) (body : heap → Z → heap) (h : heap) : heap :=
  foldl (λ g k, match read g arr !! k with
                | Some x => body g x
                | None => g
                end)
        h (seq 0 (length (read h arr))).

(** [if (!intervals.includes(interval)) intervals.push(interval)] *)
Definition push_if_absent_h (intervals : loc) (h : heap) (interval : Z)
    : heap :=
  if includes interval (read h intervals) then h
  else write intervals (read h intervals ++ [interval]) h.

Section calculateIntervals_heap.

Variable catalog : list (ChordModifier loc).
Variable baseIntervals : loc.

(** Loop state: the variable [intervals], the local array [additiveMods]
    and the heap. *)
Definition collect_step_h
    (st : loc * list (ChordModifier loc) * heap) (modLabel : string)
    : loc * list (ChordModifier loc) * heap :=
  let '(intervals, additiveMods, h) := st in
  match find_modifier catalog modLabel with
  | None => st
  | Some mod_ =>
      match replaceWith mod_ with
      | Some r => let '(fresh, h') := spread r h in (fresh, additiveMods, h')
      | None => (intervals, additiveMods ++ [mod_], h)
      end
  end.

Definition apply_additive_h (st : loc * heap) (mod_ : ChordModifier loc)
    : loc * heap :=
  let '(intervals, h) := st in
  match intervalsToAdd mod_ with
  | Some a => (intervals, forEach_h a (push_if_absent_h intervals) h)
  | None =>
      match intervalToAdd mod_ with
      | Some i => (intervals, push_if_absent_h intervals h i)
      | None =>
          match intervalToRemove mod_ with
          | Some r => alloc (filter (λ i, i ≠ r) (read h intervals)) h
          | None => st
          end
      end
  end.

(** Returns the location of the result array and the heap after the call;
    [sort] works in place and returns its receiver. *)
Definition calculateIntervals_h (modifiers : JsSet.t) (h : heap)
    : loc * heap :=
  let '(intervals0, h1) := spread baseIntervals h in
  let '(intervals1, additiveMods, h2) :=
    foldl collect_step_h (intervals0, [], h1) modifiers in
  let '(intervals2, h3) :=
    foldl apply_additive_h (intervals1, h2) additiveMods in
  (intervals2, write intervals2 (sort_asc (read h3 intervals2)) h3).

End calculateIntervals_heap.

(** [h'] extends [h]: every array of [h] is still there, unchanged. *)
Definition extends (h h' : heap) : Prop :=
  (length h ≤ length h')%nat ∧ ∀ l, (l < length h)%nat → h' !! l = h !! l.

(** The array at [iv] was allocated after the heap [h0] was taken, the
    arrays of [h0] are unchanged in [g], and [iv] holds [v]. *)
Definition fresh_at (h0 g : heap) (iv : loc) (v : list Z) : Prop :=
  extends h0 g ∧ (length h0 ≤ iv)%nat ∧ (iv < length g)%nat ∧ read g iv = v.

Definition valid_modifier (h : heap) (m : ChordModifier loc) : Prop :=
  (∀ a, intervalsToAdd m = Some a → (a < length h)%nat)
  ∧ (∀ r, replaceWith m = Some r → (r < length h)%nat).

(** The heap loop state [(iv, acc, g)] of the first loop represents the
    value loop state [(v, accv)]. *)
Definition collect_rel (h0 : heap)
    (st : loc * list (ChordModifier loc) * heap)
    (sv : list Z * list (ChordModifier (list Z))) : Prop :=
  fresh_at h0 st.2 st.1.1 sv.1
  ∧ resolve h0 <$> st.1.2 = sv.2
  ∧ Forall (valid_modifier h0) st.1.2.

(** The arrays of the heap catalog [ch] exist in [h] and hold the literals
    of the catalog [cv]. *)
Definition catalog_stored (h : heap) (ch : list (ChordModifier loc))
    (cv : list (ChordModifier (list Z))) : Prop :=
  resolve h <$> ch = cv ∧ Forall (valid_modifier h) ch.

(** ** ChordCard.tsx: pointer handlers (tap versus long-press)

    The three refs of the card and, as the environment, the browser's
    queue of armed timeouts.  [window.setTimeout] returns a handle greater
    than zero, so a stored handle is truthy; handles are [positive]. *)

Definition LONG_PRESS_MS : Z := 400.

(** An armed timeout: its handle, its delay and the label captured by the
    callback. *)
Record Timer := mkTimer {
  timer_id : positive;
  timer_delay : Z;
  timer_label : string;
}.

Record GestureState := mkGestureState {
  pressTimerRef : option positive;
  isLongPressRef : bool;
  currentModifierRef : option string;
  pending : list Timer;
  nextTimerId : positive;
}.

(** What the handlers call. *)
Inductive Signal :=
  | TapSignal (modifierLabel : string)
  | LongPressSignal (modifierLabel : string).

Inductive GestureEvent :=
  | PointerDown (modifierLabel : string)
  | PointerUp
  | PointerLeave
  | TimerExpire (id : positive)
  | Unmount.

Definition gesture_init : GestureState :=
  mkGestureState None false None [] 1%positive.

(** [clearTimeout(id)] *)
Definition clearTimeout (id : positive) (q : list Timer) : list Timer :=
  filter (λ t, timer_id t ≠ id) q.

Definition handlePointerDown (modifierLabel : string) (s : GestureState)
    : GestureState * list Signal :=
  let id := nextTimerId s in
  (mkGestureState (Some id) false (Some modifierLabel)
     (pending s ++ [mkTimer id LONG_PRESS_MS modifierLabel])
     (Pos.succ id),
   []).

(** The callback passed to [setTimeout], run by the browser when the armed
    timeout [id] expires; a timeout fires once, and not at all once
    cleared. *)
Definition timer_callback (id : positive) (s : GestureState)
    : GestureState * list Signal :=
  match List.find (λ t, Pos.eqb (timer_id t) id) (pending s) with
  | Some t =>
      (mkGestureState (pressTimerRef s) true (currentModifierRef s)
         (clearTimeout id (pending s)) (nextTimerId s),
       [LongPressSignal (timer_label t)])
  | None => (s, [])
  end.

(** [if (pressTimerRef.current) { clearTimeout(...); pressTimerRef.current = null }] *)
Definition cancel_press_timer (s : GestureState) : GestureState :=
  match pressTimerRef s with
  | Some id =>
      mkGestureState None (isLongPressRef s) (currentModifierRef s)
        (clearTimeout id (pending s)) (nextTimerId s)
  | None => s
  end.

Definition handlePointerUp (s : GestureState) : GestureState * list Signal :=
  let s1 := cancel_press_timer s in
  let out :=
    match currentModifierRef s1 with
    | Some l =>
        if negb (isLongPressRef s1) && truthy (currentModifierRef s1)
        then [TapSignal l] else []
    | None => []
    end in
  (mkGestureState (pressTimerRef s1) (isLongPressRef s1) None
     (pending s1) (nextTimerId s1),
   out).

Definition handlePointerLeave (s : GestureState)
    : GestureState * list Signal :=
  let s1 := cancel_press_timer s in
  (mkGestureState (pressTimerRef s1) (isLongPressRef s1) None
     (pending s1) (nextTimerId s1),
   []).

(** Cleanup on unmount: clears the stored timeout, the ref is left. *)
Definition unmount_cleanup (s : GestureState) : GestureState * list Signal :=
  match pressTimerRef s with
  | Some id =>
      (mkGestureState (pressTimerRef s) (isLongPressRef s)
         (currentModifierRef s) (clearTimeout id (pending s)) (nextTimerId s),
       [])
  | None => (s, [])
  end.

Definition gesture_step (s : GestureState) (e : GestureEvent)
    : GestureState * list Signal :=
  match e with
  | PointerDown l => handlePointerDown l s
  | PointerUp => handlePointerUp s
  | PointerLeave => handlePointerLeave s
  | TimerExpire id => timer_callback id s
  | Unmount => unmount_cleanup s
  end.

Fixpoint gesture_run (s : GestureState) (es : list GestureEvent)
    : GestureState * list Signal :=
  match es with
  | [] => (s, [])
  | e :: es' =>
      let '(s1, out1) := gesture_step s e in
      let '(s2, out2) := gesture_run s1 es' in
      (s2, out1 ++ out2)
  end.

(** Pressed: the stored timeout is still armed. *)
Definition pressed (s : GestureState) : bool :=
  match pressTimerRef s with
  | Some id => bool_decide (id ∈ timer_id <$> pending s)
  | None => false
  end.

(** No pointer-down arrives while a timeout is armed. *)
Fixpoint no_reentrant_press (s : GestureState) (es : list GestureEvent)
    : Prop :=
  match es with
  | [] => True
  | e :: es' =>
      match e with
      | PointerDown _ => pending s = []
      | _ => True
      end
      ∧ no_reentrant_press (gesture_step s e).1 es'
  end.

(** ** ChordTimeline.tsx: progression playback *)

(** [ChordInProgression] *)
Record ChordInProgression := mkChord {
  chord_id : string;
  rootNote : string;
  intervals : list Z;
  numeral : string;
  duration : Z;
}.

(** A call [playChord(getChordFrequencies(rootNote, intervals, baseOctave),
    seconds)].  [getChordFrequencies] is outside this development, so the
    call is recorded by the arguments it is computed from. *)
Record PlayChordCall := mkPlayChordCall {
  call_rootNote : string;
  call_intervals : list Z;
  call_baseOctave : Z;
  call_seconds : Q;
}.

(** The callback given to [setInterval]: the render state it closes over
    ([state.chordProgression], [state.playbackState.loop], [msPerBeat]) and
    its two mutable locals. *)
Record TickClosure := mkTickClosure {
  tick_progression : list ChordInProgression;
  tick_loop : bool;
  tick_msPerBeat : Q;
  chordIndex : nat;
  beatCount : Z;
}.

(** An armed interval: handle, period in ms, callback. *)
Record IntervalTimer := mkIntervalTimer {
  interval_id : positive;
  interval_period : Q;
  interval_callback : TickClosure;
}.

(** The playback part of the context state, the two refs of the timeline,
    and, as the environment, the browser's armed intervals. *)
Record Scheduler := mkScheduler {
  chordProgression : list ChordInProgression;
  isPlaying : bool;
  currentBeat : Z;
  tempo : Z;
  loop : bool;
  intervalRef : option positive;
  currentIndexRef : nat;
  armed : list IntervalTimer;
  nextIntervalId : positive;
}.

(** Modelled from the spec: the context action [setPlaybackPlaying], whose
    reducer is not among the sources; it stores the flag [isPlaying]. *)
Definition setPlaybackPlaying (b : bool) (s : Scheduler) : Scheduler :=
  mkScheduler (chordProgression s) b (currentBeat s) (tempo s) (loop s)
    (intervalRef s) (currentIndexRef s) (armed s) (nextIntervalId s).

(** Modelled from the spec: the context action [setPlaybackBeat], whose
    reducer is not among the sources; it stores the playhead position. *)
Definition setPlaybackBeat (n : Z) (s : Scheduler) : Scheduler :=
  mkScheduler (chordProgression s) (isPlaying s) n (tempo s) (loop s)
    (intervalRef s) (currentIndexRef s) (armed s) (nextIntervalId s).

(** Modelled from the spec: the context actions [removeFromProgression] and
    [clearProgression], whose reducer is not among the sources; they drop
    the entry with the given id, respectively every entry. *)
Definition set_progression (p : list ChordInProgression) (s : Scheduler)
    : Scheduler :=
  mkScheduler p (isPlaying s) (currentBeat s) (tempo s) (loop s)
    (intervalRef s) (currentIndexRef s) (armed s) (nextIntervalId s).

Definition removeFromProgression (id : string) (s : Scheduler) : Scheduler :=
  set_progression (filter (λ c, chord_id c ≠ id) (chordProgression s)) s.

Definition clearProgression (s : Scheduler) : Scheduler :=
  set_progression [] s.

Definition set_refs (r : option positive) (i : nat) (s : Scheduler)
    : Scheduler :=
  mkScheduler (chordProgression s) (isPlaying s) (currentBeat s) (tempo s)
    (loop s) r i (armed s) (nextIntervalId s).

Definition set_armed (q : list IntervalTimer) (s : Scheduler) : Scheduler :=
  mkScheduler (chordProgression s) (isPlaying s) (currentBeat s) (tempo s)
    (loop s) (intervalRef s) (currentIndexRef s) q (nextIntervalId s).

(** [clearInterval(id)] *)
Definition clearInterval (id : positive) (q : list IntervalTimer)
    : list IntervalTimer :=
  filter (λ t, interval_id t ≠ id) q.

(** [if (intervalRef.current) { clearInterval(intervalRef.current);
    intervalRef.current = null }] *)
Definition clear_interval_ref (s : Scheduler) : Scheduler :=
  match intervalRef s with
  | Some id =>
      set_refs None (currentIndexRef s)
        (set_armed (clearInterval id (armed s)) s)
  | None => s
  end.

(** [60000 / state.playbackState.tempo], in exact arithmetic. *)
Definition msPerBeat_of (tempo : Z) : Q := (60000 / inject_Z tempo)%Q.

(** [chord.duration * (msPerBeat / 1000)] *)
Definition chord_seconds (c : ChordInProgression) (msPerBeat : Q) : Q :=
  (inject_Z (duration c) * (msPerBeat / 1000))%Q.

Definition play_call (c : ChordInProgression) (msPerBeat : Q)
    : PlayChordCall :=
  mkPlayChordCall (rootNote c) (intervals c) 4 (chord_seconds c msPerBeat).

(** The stop branch of [handlePlayPause]. *)
Definition stop (s : Scheduler) : Scheduler :=
  let s1 := clear_interval_ref s in
  let s2 := setPlaybackPlaying false s1 in
  let s3 := setPlaybackBeat 0 s2 in
  set_refs (intervalRef s3) 0 s3.

(** The start branch of [handlePlayPause]. *)
Definition play (s : Scheduler) : Scheduler * list PlayChordCall :=
  match chordProgression s with
  | [] => (s, [])
  | firstChord :: _ =>
      let s1 := setPlaybackPlaying true s in
      let s2 := set_refs (intervalRef s1) 0 s1 in
      let s3 := setPlaybackBeat 0 s2 in
      let msPerBeat := msPerBeat_of (tempo s) in
      let id := nextIntervalId s3 in
      let callback :=
        mkTickClosure (chordProgression s) (loop s) msPerBeat 0 0 in
      (mkScheduler (chordProgression s3) (isPlaying s3) (currentBeat s3)
         (tempo s3) (loop s3) (Some id) (currentIndexRef s3)
         (armed s3 ++ [mkIntervalTimer id msPerBeat callback])
         (Pos.succ id),
       [play_call firstChord msPerBeat])
  end.

Definition handlePlayPause (s : Scheduler) : Scheduler * list PlayChordCall :=
  if isPlaying s then (stop s, []) else play s.

(** The callback's locals are written back to the armed interval. *)
Definition update_callback (id : positive) (c : TickClosure)
    (q : list IntervalTimer) : list IntervalTimer :=
  (λ t, if Pos.eqb (interval_id t) id
        then mkIntervalTimer (interval_id t) (interval_period t) c
        else t) <$> q.

(** One run of the interval callback [c] armed under [id]. *)
Definition tick_callback (id : positive) (c : TickClosure) (s : Scheduler)
    : Scheduler * list PlayChordCall :=
  let prog := tick_progression c in
  let beatCount1 := beatCount c + 1 in
  let keep idx beats :=
    set_armed
      (update_callback id
         (mkTickClosure prog (tick_loop c) (tick_msPerBeat c) idx beats)
         (armed s)) s in
  match prog !! chordIndex c with
  | Some currentChord =>
      if bool_decide (duration currentChord ≤ beatCount1)%Z then
        let chordIndex1 := S (chordIndex c) in
        if bool_decide (length prog ≤ chordIndex1)%nat then
          if tick_loop c then
            match prog !! 0%nat with
            | Some nextChord =>
                (setPlaybackBeat 0 (keep 0%nat 0),
                 [play_call nextChord (tick_msPerBeat c)])
            | None => (keep 0%nat 0, [])
            end
          else
            (setPlaybackBeat 0
               (setPlaybackPlaying false
                  (clear_interval_ref (keep chordIndex1 0))),
             [])
        else
          match prog !! chordIndex1 with
          | Some nextChord =>
              (setPlaybackBeat (Z.of_nat chordIndex1) (keep chordIndex1 0),
               [play_call nextChord (tick_msPerBeat c)])
          | None => (keep chordIndex1 0, [])
          end
      else (keep (chordIndex c) beatCount1, [])
  | None => (keep (chordIndex c) beatCount1, [])
  end.

(** The browser runs the callback of the interval [id] if it is armed. *)
Definition tick (id : positive) (s : Scheduler)
    : Scheduler * list PlayChordCall :=
  match List.find (λ t, Pos.eqb (interval_id t) id) (armed s) with
  | Some t => tick_callback id (interval_callback t) s
  | None => (s, [])
  end.

(** [if (state.playbackState.isPlaying) { ...stop... }] of
    [handleRemoveChord] and [handleClearProgression]. *)
Definition stop_if_playing (s : Scheduler) : Scheduler :=
  if isPlaying s then
    setPlaybackBeat 0 (setPlaybackPlaying false (clear_interval_ref s))
  else s.

Definition handleRemoveChord (id : string) (s : Scheduler) : Scheduler :=
  removeFromProgression id (stop_if_playing s).

Definition handleClearProgression (s : Scheduler) : Scheduler :=
  clearProgression (stop_if_playing s).

(** Cleanup on unmount. *)
Definition timeline_unmount (s : Scheduler) : Scheduler :=
  clear_interval_ref s.

Inductive TimelineEvent :=
  | PlayPause
  | Tick (id : positive)
  | RemoveChord (id : string)
  | ClearProgression
  | TimelineUnmount
  | AddChord (c : ChordInProgression)
  | ToggleLoop
  | SetTempo (t : Z).

Definition timeline_step (s : Scheduler) (e : TimelineEvent)
    : Scheduler * list PlayChordCall :=
  match e with
  | PlayPause => handlePlayPause s
  | Tick id => tick id s
  | RemoveChord id => (handleRemoveChord id s, [])
  | ClearProgression => (handleClearProgression s, [])
  | TimelineUnmount => (timeline_unmount s, [])
  | AddChord c => (set_progression (chordProgression s ++ [c]) s, [])
  | ToggleLoop =>
      (mkScheduler (chordProgression s) (isPlaying s) (currentBeat s)
         (tempo s) (negb (loop s)) (intervalRef s) (currentIndexRef s)
         (armed s) (nextIntervalId s), [])
  | SetTempo t =>
      (mkScheduler (chordProgression s) (isPlaying s) (currentBeat s)
         t (loop s) (intervalRef s) (currentIndexRef s)
         (armed s) (nextIntervalId s), [])
  end.

Fixpoint timeline_run (s : Scheduler) (es : list TimelineEvent)
    : Scheduler * list PlayChordCall :=
  match es with
  | [] => (s, [])
  | e :: es' =>
      let '(s1, out1) := timeline_step s e in
      let '(s2, out2) := timeline_run s1 es' in
      (s2, out1 ++ out2)
  end.

(** A timeline as first mounted: stopped, playhead at the start, no
    interval armed. *)
Definition timeline_init (p : list ChordInProgression) (tempo : Z)
    (loop : bool) : Scheduler :=
  mkScheduler p false 0 tempo loop None 0 [] 1%positive.

Inductive timeline_reachable : Scheduler → Prop :=
  | timeline_reachable_init p t l :
      timeline_reachable (timeline_init p t l)
  | timeline_reachable_step s e :
      timeline_reachable s → timeline_reachable (timeline_step s e).1.

(** The armed intervals are exactly the one stored in [intervalRef]; when
    stopped none is stored and the playhead is at the start. *)
Definition timeline_inv (s : Scheduler) : Prop :=
  interval_id <$> armed s = option_list (intervalRef s)
  ∧ (isPlaying s = false → intervalRef s = None ∧ currentBeat s = 0)
  ∧ currentIndexRef s = 0%nat.

(** ** Further definitions for [calculateIntervals] *)

(** The intervals an additive catalog entry adds. *)
Definition added_intervals {A} (deref : A → list Z) (m : ChordModifier A)
    : list Z :=
  match intervalsToAdd m with
  | Some ivs => deref ivs
  | None =>
      match intervalToAdd m with
      | Some i => [i]
      | None => []
      end
  end.

(** No entry of the catalog reaches the [intervalToRemove] branch. *)
Definition no_remove_effect (catalog : list (ChordModifier (list Z))) : Prop :=
  ∀ m, m ∈ catalog →
       is_Some (intervalsToAdd m) ∨ is_Some (intervalToAdd m)
       ∨ intervalToRemove m = None.

(** [l] is an active label whose catalog entry has a replace effect. *)
Definition is_replace_label (catalog : list (ChordModifier (list Z)))
    (l : string) : Prop :=
  ∃ m, find_modifier catalog l = Some m ∧ is_Some (replaceWith m).

#[global] Instance is_replace_label_dec catalog l :
  Decision (is_replace_label catalog l).
Proof.
  unfold is_replace_label.
  destruct (find_modifier catalog l) as [m|] eqn:Hfind.
  - destruct (decide (is_Some (replaceWith m))) as [Hr|Hr].
    + left. eauto.
    + right. intros (m' & [= <-] & ?). done.
  - right. intros (m' & [=] & ?).
Defined.

(** The twelve labels of the modifier buttons. *)
Definition MODIFIER_LABELS : list string :=
  label <$> CHORD_MODIFIERS.

(** ** Further definitions for the progression playback *)

(** The number of ticks an entry lasts: the callback compares after the
    increment, so an entry with [duration ≤ 1] lasts one tick. *)
Definition entry_ticks (c : ChordInProgression) : nat :=
  Z.to_nat (Z.max 1 (duration c)).

Definition total_ticks (prog : list ChordInProgression) : nat :=
  sum_list (entry_ticks <$> prog).

(** The callback [c] with its two locals set. *)
Definition at_position (c : TickClosure) (idx : nat) (beats : Z)
    : TickClosure :=
  mkTickClosure (tick_progression c) (tick_loop c) (tick_msPerBeat c)
                idx beats.

(** The timeline [s0] while it plays: the one interval [id] is armed with
    callback [c], and [beat] is the reported playhead position. *)
Definition playing_at (s0 : Scheduler) (id : positive) (c : TickClosure)
    (beat : Z) : Scheduler :=
  mkScheduler (chordProgression s0) true beat (tempo s0) (loop s0)
    (Some id) (currentIndexRef s0)
    [mkIntervalTimer id (tick_msPerBeat c) c] (nextIntervalId s0).

(** The timeline [s0] after playback has ended or was stopped. *)
Definition stopped_from (s0 : Scheduler) : Scheduler :=
  mkScheduler (chordProgression s0) false 0 (tempo s0) (loop s0)
    None (currentIndexRef s0) [] (nextIntervalId s0).

(** [n] expiries of the interval [id]. *)
Definition ticks (id : positive) (n : nat) : list TimelineEvent :=
  replicate n (Tick id).

(** [state.chordProgression.reduce((sum, chord) => sum + chord.duration, 0)] *)
Definition totalDuration (prog : list ChordInProgression) : Z :=
  foldl (λ sum chord, sum + duration chord) 0 prog.

(** Events that change what the timeline shows but are not handled by the
    timeline itself. *)
Definition is_edit (e : TimelineEvent) : bool :=
  match e with
  | AddChord _ | ToggleLoop | SetTempo _ => true
  | _ => false
  end.

Definition is_tick (e : TimelineEvent) : bool :=
  match e with
  | Tick _ => true
  | _ => false
  end.

(** The part of the timeline the interval callback reads and writes. *)
Definition playback_part (s : Scheduler)
    : bool * Z * option positive * nat * list IntervalTimer * positive :=
  (isPlaying s, currentBeat s, intervalRef s, currentIndexRef s, armed s,
   nextIntervalId s).

(** Every armed callback stands at an entry of the progression it
    captured, and the playhead reports that entry. *)
Definition playhead_ok (s : Scheduler) : Prop :=
  ∀ t, t ∈ armed s →
    let c := interval_callback t in
    (chordIndex c < length (tick_progression c))%nat
    ∧ currentBeat s = Z.of_nat (chordIndex c)
    ∧ (0 ≤ beatCount c)%Z.

(** ** ChordCard.tsx, earlier revision of the card: [applyModifier]

    One loop over the new active set; a replace-effect entry assigns its
    catalog array to the variable [newIntervals] without copying it, and
    the [push] and [sort] that follow work on whatever array the variable
    holds. *)

Section applyModifier.

Variable catalog : list (ChordModifier loc).
Variable intervals : loc.

(** Body of [newModifiers.forEach]; the loop state is the variable
    [newIntervals] and the heap. *)
Definition applyModifier_step (st : loc * heap) (modLabel : string)
    : loc * heap :=
  match find_modifier catalog modLabel with
  | None => st
  | Some mod_ =>
      match replaceWith mod_ with
      | Some r => (r, st.2)
      | None => apply_additive_h st mod_
      end
  end.

(** Returns the new active set, the location of the array passed to
    [setCurrentIntervals] and the heap after the call. *)
Definition applyModifier (activeModifiers : JsSet.t)
    (modifier : ChordModifier loc) (h : heap) : JsSet.t * loc * heap :=
  let newModifiers :=
    if JsSet.has (label modifier) activeModifiers
    then JsSet.delete (label modifier) activeModifiers
    else JsSet.add (label modifier) activeModifiers in
  let '(newIntervals0, h1) := spread intervals h in
  let '(newIntervals, h2) :=
    foldl applyModifier_step (newIntervals0, h1) newModifiers in
  (newModifiers, newIntervals,
   write newIntervals (sort_asc (read h2 newIntervals)) h2).

End applyModifier.

(** No label of the set [modifiers] has a replace-effect entry. *)
Definition no_replace_active {A} (catalog : list (ChordModifier A))
    (modifiers : JsSet.t) : Prop :=
  ∀ l m, l ∈ modifiers → find_modifier catalog l = Some m →
    replaceWith m = None.

(** The active set after the button of [l] was used: [l] is removed if it
    was active and added last otherwise. *)
Definition toggled (l : string) (activeModifiers : JsSet.t) : JsSet.t :=
  if JsSet.has l activeModifiers
  then JsSet.delete l activeModifiers
  else JsSet.add l activeModifiers.

(** ** Further definitions for the pointer handlers *)

Definition signal_label (sg : Signal) : string :=
  match sg with
  | TapSignal l | LongPressSignal l => l
  end.

Definition is_pointer_down (e : GestureEvent) : bool :=
  match e with
  | PointerDown _ => true
  | _ => false
  end.

(** The number of pointer-downs in a run. *)
Definition presses (es : list GestureEvent) : nat :=
  length (filter (λ e, is_pointer_down e) es).

(** A press whose timeout is gone but which a pointer-up would still turn
    into a tap. *)
Definition tap_credit (s : GestureState) : nat :=
  if negb (isLongPressRef s) && truthy (currentModifierRef s)
     && negb (pressed s)
  then 1 else 0.

(** ** ChordCard.tsx: [PianoPreview] *)

Definition whiteKeyPositions : list Z := [0; 2; 4; 5; 7; 9; 11].

(** [{ key, x }] *)
Definition blackKeyPositions : list (Z * Z) :=
  [(1, 11); (3, 25); (6, 53); (8, 67); (10, 81)].

(** The keys the preview draws. *)
Definition drawn_keys : list Z := whiteKeyPositions ++ blackKeyPositions.*1.

(** [activeKeys]: [rootIndex] is [NOTES.indexOf(rootNote)]; [%] is the
    remainder that takes the sign of the dividend. *)
Definition activeKeys (rootIndex : Z) (currentIntervals : list Z)
    : gmap Z Z :=
  foldl (λ keys interval,
           let chromaticPosition := Z.rem (rootIndex + interval) 12 in
           <[chromaticPosition := interval]> keys)
        ∅ currentIntervals.

Definition isNoteActive (rootIndex : Z) (currentIntervals : list Z)
    (chromaticKey : Z) : bool :=
  bool_decide (is_Some (activeKeys rootIndex currentIntervals !! chromaticKey)).

(** ** ChordCard.tsx: the pointer handlers wired to the card handlers

    [handlePointerUp] is the handler of the latest render and calls that
    render's [handleTap].  The callback passed to [setTimeout] was created
    by the [handlePointerDown] of the render current at the pointer-down,
    and calls that render's [handleLongPress], which computes from the
    [lockedModifiers] and [tempModifier] of that render. *)

Definition signal_event (sg : Signal) : CardEvent :=
  match sg with
  | TapSignal l => Tap l
  | LongPressSignal l => LongPress l
  end.

(** A card: its state cells as of the latest render, the refs with the
    armed timeouts, and for each timeout armed so far the state cells its
    callback closed over. *)
Record CardUI := mkCardUI {
  ui_state : ModifierState;
  ui_gesture : GestureState;
  ui_closures : list (positive * ModifierState);
}.

Definition closure_of (id : positive)
    (closures : list (positive * ModifierState)) : option ModifierState :=
  snd <$> List.find (λ p, Pos.eqb p.1 id) closures.

Section CardUI.

Variable baseIntervals : list Z.

(** [handleLongPress] of the render that saw the cells [seen], run when the
    cells are [now]: the three setters are called with what it computes
    from [seen]; [setTempModifier] only if the [tempModifier] it sees is
    truthy. *)
Definition handleLongPress_of_render (seen : ModifierState)
    (modifierLabel : string) (now : ModifierState)
    : ModifierState * list (list Z) :=
  let '(st', played) := handleLongPress baseIntervals modifierLabel seen in
  (mkModifierState (lockedModifiers st')
     (if truthy (tempModifier seen) then tempModifier st'
      else tempModifier now)
     (currentIntervals st'),
   played).

Definition ui_step (ui : CardUI) (e : GestureEvent)
    : CardUI * list (list Z) :=
  match e with
  | PointerDown l =>
      let '(g', _) := handlePointerDown l (ui_gesture ui) in
      (mkCardUI (ui_state ui) g'
         (ui_closures ui ++ [(nextTimerId (ui_gesture ui), ui_state ui)]),
       [])
  | PointerUp =>
      let '(g', signals) := handlePointerUp (ui_gesture ui) in
      match signals with
      | [TapSignal l] =>
          let '(st', played) := handleTap baseIntervals l (ui_state ui) in
          (mkCardUI st' g' (ui_closures ui), played)
      | _ => (mkCardUI (ui_state ui) g' (ui_closures ui), [])
      end
  | TimerExpire id =>
      let '(g', signals) := timer_callback id (ui_gesture ui) in
      match signals, closure_of id (ui_closures ui) with
      | [LongPressSignal l], Some seen =>
          let '(st', played) :=
            handleLongPress_of_render seen l (ui_state ui) in
          (mkCardUI st' g' (ui_closures ui), played)
      | _, _ => (mkCardUI (ui_state ui) g' (ui_closures ui), [])
      end
  | PointerLeave | Unmount =>
      let '(g', _) := gesture_step (ui_gesture ui) e in
      (mkCardUI (ui_state ui) g' (ui_closures ui), [])
  end.

Fixpoint ui_run (ui : CardUI) (es : list GestureEvent)
    : CardUI * list (list Z) :=
  match es with
  | [] => (ui, [])
  | e :: es' =>
      let '(ui1, out1) := ui_step ui e in
      let '(ui2, out2) := ui_run ui1 es' in
      (ui2, out1 ++ out2)
  end.

(** Every recorded handle is below the next one, and an armed timeout is
    the one stored in [pressTimerRef], the only one armed, and closed over
    the current state cells. *)
Definition ui_inv (ui : CardUI) : Prop :=
  (∀ p, p ∈ ui_closures ui → (p.1 < nextTimerId (ui_gesture ui))%positive)
  ∧ (pending (ui_gesture ui) = []
     ∨ ∃ t, pending (ui_gesture ui) = [t]
            ∧ pressTimerRef (ui_gesture ui) = Some (timer_id t)
            ∧ closure_of (timer_id t) (ui_closures ui) = Some (ui_state ui)).

End CardUI.

(** ** ChordCard.tsx, earlier revision of the card: [handleSelectChange]

    [None]: the handler returned without setting any state. *)
Definition handleSelectChange (catalog : list (ChordModifier loc))
    (intervals : loc) (selectedLabel : string) (h : heap)
    : option (JsSet.t * loc * heap) :=
  if String.eqb selectedLabel "" then Some ([], intervals, h)
  else
    match find_modifier catalog selectedLabel with
    | None => None
    | Some modifier =>
        let '(newIntervals0, h1) := spread intervals h in
        let '(newIntervals, h2) :=
          match replaceWith modifier with
          | Some r => (r, h1)
          | None => apply_additive_h (newIntervals0, h1) modifier
          end in
        Some ([selectedLabel], newIntervals,
              write newIntervals (sort_asc (read h2 newIntervals)) h2)
    end.

(** ** useMidiInput.ts

    [event.data] is a byte array; destructuring reads [undefined] past its
    end, so the three values are [option Z].  [activeNotesRef] is a
    [Set<number>]: duplicate-free, in insertion order. *)

Inductive MidiCall :=
  | NoteOnCall (midiNote velocity : option Z)
  | NoteOffCall (midiNote : option Z).

(** [x & mask]; [undefined] converts to 0. *)
Definition bit_and (x : option Z) (mask : Z) : Z := Z.land (default 0 x) mask.

(** [velocity > 0]; false for [undefined]. *)
Definition positive_velocity (velocity : option Z) : bool :=
  match velocity with
  | Some v => bool_decide (0 < v)
  | None => false
  end.

Definition notes_add (x : option Z) (s : list (option Z))
    : list (option Z) :=
  if bool_decide (x ∈ s) then s else s ++ [x].

Definition notes_delete (x : option Z) (s : list (option Z))
    : list (option Z) :=
  filter (λ y, y ≠ x) s.

Inductive MidiEvent :=
  | MidiMessage (data : list Z)
  | StopAllNotes.

Section useMidiInput.

(** Whether the optional callbacks [onNoteOn] and [onNoteOff] were given. *)
Variable onNoteOn onNoteOff : bool.

Definition handleMIDIMessage (data : list Z) (activeNotes : list (option Z))
    : list (option Z) * list MidiCall :=
  let command := data !! 0%nat in
  let note := data !! 1%nat in
  let velocity := data !! 2%nat in
  let messageType := bit_and command 0xf0 in
  if bool_decide (messageType = 0x90) && positive_velocity velocity then
    (notes_add note activeNotes,
     if onNoteOn then [NoteOnCall note velocity] else [])
  else if bool_decide (messageType = 0x80)
          || (bool_decide (messageType = 0x90)
              && bool_decide (velocity = Some 0)) then
    (notes_delete note activeNotes,
     if onNoteOff then [NoteOffCall note] else [])
  else (activeNotes, []).

Definition stopAllNotes (activeNotes : list (option Z))
    : list (option Z) * list MidiCall :=
  ([], if onNoteOff then NoteOffCall <$> activeNotes else []).

Definition midi_step (activeNotes : list (option Z)) (e : MidiEvent)
    : list (option Z) * list MidiCall :=
  match e with
  | MidiMessage data => handleMIDIMessage data activeNotes
  | StopAllNotes => stopAllNotes activeNotes
  end.

Fixpoint midi_run (activeNotes : list (option Z)) (es : list MidiEvent)
    : list (option Z) * list MidiCall :=
  match es with
  | [] => (activeNotes, [])
  | e :: es' =>
      let '(s1, out1) := midi_step activeNotes e in
      let '(s2, out2) := midi_run s1 es' in
      (s2, out1 ++ out2)
  end.

End useMidiInput.

(** The notes a consumer that starts a note on [onNoteOn] and stops it on
    [onNoteOff] has sounding after the calls. *)
Definition sounding_from (s : gset (option Z)) (calls : list MidiCall)
    : gset (option Z) :=
  foldl (λ s c, match c with
                | NoteOnCall n _ => s ∪ {[ n ]}
                | NoteOffCall n => s ∖ {[ n ]}
                end) s calls.

(** ** chordModifierRules.ts: lookups through the prototype chain

    [MODIFIER_CATEGORIES] is a plain object, so [MODIFIER_CATEGORIES[l]]
    finds an own key, else a property inherited from [Object.prototype],
    else [undefined]. *)

(** The property names of [Object.prototype].  Each reads as a function or,
    for [__proto__], as an object: a truthy value that is no category. *)
Definition Object_prototype_names : list string :=
  [ "constructor"; "hasOwnProperty"; "isPrototypeOf";
    "propertyIsEnumerable"; "toLocaleString"; "toString"; "valueOf";
    "__proto__"; "__defineGetter__"; "__defineSetter__";
    "__lookupGetter__"; "__lookupSetter__" ].

Inductive CategoryValue :=
  | OwnCategory (c : ModifierCategory)
  | InheritedValue
  | NoValue.

#[global] Instance CategoryValue_eq_dec : EqDecision CategoryValue.
Proof. solve_decision. Defined.

(** [MODIFIER_CATEGORIES[label]] *)
Definition MODIFIER_CATEGORIES_at (label : string) : CategoryValue :=
  match MODIFIER_CATEGORIES !! label with
  | Some c => OwnCategory c
  | None =>
      if bool_decide (label ∈ Object_prototype_names) then InheritedValue
      else NoValue
  end.

(** [CATEGORY_CONFLICTS[category]]; [None] is [undefined]: an inherited
    value used as a key is converted to a string (the source text of the
    function, or "[object Object]") that names no property of the table. *)
Definition CATEGORY_CONFLICTS_at (category : CategoryValue)
    : option (list ModifierCategory) :=
  match category with
  | OwnCategory c => Some (CATEGORY_CONFLICTS c)
  | InheritedValue | NoValue => None
  end.

(** How a call ends. *)
Inductive Outcome (A : Type) :=
  | Returns (a : A)
  | ThrowsTypeError.
Arguments Returns {A}.
Arguments ThrowsTypeError {A}.

(** One iteration of the [activeModifiers.forEach] body.
    [activeCategory && conflictingCategories.includes(activeCategory)]:
    a falsy [activeCategory] ends the test; otherwise [.includes] is
    called, which throws when [conflictingCategories] is [undefined].  An
    inherited value is in no list of categories. *)
Definition conflict_step_js
    (conflictingCategories : option (list ModifierCategory))
    (acc : Outcome (list string)) (activeModifier : string)
    : Outcome (list string) :=
  match acc with
  | ThrowsTypeError => ThrowsTypeError
  | Returns conflicts =>
      match MODIFIER_CATEGORIES_at activeModifier with
      | NoValue => Returns conflicts
      | activeCategory =>
          match conflictingCategories with
          | None => ThrowsTypeError
          | Some listed =>
              match activeCategory with
              | OwnCategory c =>
                  if includes c listed
                  then Returns (conflicts ++ [activeModifier])
                  else Returns conflicts
              | _ => Returns conflicts
              end
          end
      end
  end.

(** [getConflictingModifiers] on any string. *)
Definition getConflictingModifiers_js
    (modifierToAdd : string) (activeModifiers : JsSet.t)
    : Outcome (list string) :=
  let category := MODIFIER_CATEGORIES_at modifierToAdd in
  match category with
  | NoValue => Returns []
  | _ =>
      let conflictingCategories := CATEGORY_CONFLICTS_at category in
      foldl (conflict_step_js conflictingCategories) (Returns [])
            activeModifiers
  end.

(** ** Pointer interactions, one after the other *)








(** ** Progression playback, tick by tick *)

(** The number of leading entries of [prog] that [k] ticks complete. *)
Fixpoint completed (prog : list ChordInProgression) (k : nat) : nat :=
  match prog with
  | [] => 0
  | c :: rest =>
      if bool_decide (entry_ticks c ≤ k)%nat
      then S (completed rest (k - entry_ticks c))
      else 0
  end.

(** * Properties *)

(** ** Facts about [JsSet] *)

Module JsSetFacts.
Import JsSet.

Lemma has_true x s : has x s = true ↔ x ∈ s.
Proof. unfold has. apply bool_decide_eq_true. Qed.

Lemma has_false x s : has x s = false ↔ x ∉ s.
Proof. unfold has. apply bool_decide_eq_false. Qed.

Lemma elem_of_add y x s : y ∈ add x s ↔ y = x ∨ y ∈ s.
Proof.
  unfold add. destruct (has x s) eqn:E.
  - apply has_true in E. split; [by right | by intros [->|?]].
  - rewrite elem_of_app, list_elem_of_singleton. tauto.
Qed.

Lemma elem_of_delete y x s : y ∈ delete x s ↔ y ≠ x ∧ y ∈ s.
Proof. unfold delete. by rewrite list_elem_of_filter. Qed.

Lemma NoDup_add x s : NoDup s → NoDup (add x s).
Proof.
  intros Hs. unfold add. destruct (has x s) eqn:E; [done|].
  apply has_false in E. apply NoDup_app. split_and!; [done| |apply NoDup_singleton].
  intros y Hy ->%list_elem_of_singleton. done.
Qed.

Lemma NoDup_delete x s : NoDup s → NoDup (delete x s).
Proof. apply NoDup_filter. Qed.

End JsSetFacts.

(** *** Conflict resolver lemmas *)

Lemma conflict_fold_filter cs (acc : list string) (S : list string) :
  foldl (conflict_step cs) acc S = acc ++ filter (category_in cs) S.
Proof.
  revert acc. induction S as [|a S IH]; intros acc; simpl.
  - by rewrite app_nil_r.
  - rewrite IH. unfold conflict_step.
    destruct (MODIFIER_CATEGORIES !! a) as [c'|] eqn:Hc.
    + unfold includes. case_bool_decide as Hin.
      * rewrite filter_cons_True by (unfold category_in; by rewrite Hc).
        by rewrite <- app_assoc.
      * rewrite filter_cons_False; [done|]. unfold category_in. by rewrite Hc.
    + rewrite filter_cons_False; [done|]. unfold category_in. rewrite Hc. tauto.
Qed.

Lemma getConflictingModifiers_filter l (S : list string) :
  getConflictingModifiers l S = filter (listed_under l) S.
Proof.
  unfold getConflictingModifiers.
  destruct (MODIFIER_CATEGORIES !! l) as [c|] eqn:Hc.
  - simpl. rewrite conflict_fold_filter. simpl.
    apply list_filter_iff. intros a. unfold listed_under, category_in.
    rewrite Hc. destruct (MODIFIER_CATEGORIES !! a) as [c'|]; split.
    + eauto.
    + intros (c0&c1&?&?&?). by simplify_eq.
    + done.
    + intros (?&?&?&?&?). congruence.
  - symmetry. induction S as [|a S IH]; [done|].
    rewrite filter_cons_False; [done|]. intros (?&?&?&?&?). congruence.
Qed.

(** On the own keys of the table: [getConflictingModifiers] returns exactly
    the active labels whose category is listed under the candidate's
    category (in the order of the active set); a candidate without a
    category yields no conflicts; every returned label is active. *)
Lemma getConflictingModifiers_exact :
  ∀ (candidate : string) (active : JsSet.t),
    getConflictingModifiers candidate active
      = filter (listed_under candidate) active
    ∧ (∀ x, x ∈ getConflictingModifiers candidate active
            ↔ x ∈ active ∧ listed_under candidate x)
    ∧ (MODIFIER_CATEGORIES !! candidate = None
         → getConflictingModifiers candidate active = [])
    ∧ (∀ x, x ∈ getConflictingModifiers candidate active → x ∈ active).
Proof.
  intros candidate active. split_and!.
  - apply getConflictingModifiers_filter.
  - intros x. rewrite getConflictingModifiers_filter, list_elem_of_filter. tauto.
  - intros Hnone. unfold getConflictingModifiers. by rewrite Hnone.
  - intros x. rewrite getConflictingModifiers_filter, list_elem_of_filter. tauto.
Qed.

(** C2 (evaluation at the failing pair): adding the quality modifier [dim]
    flags an active [add9], but adding the addition modifier [add9] does
    not flag an active [dim]; the table lists [addition] under [quality]
    and does not list [quality] under [addition]. *)
Theorem conflict_table_quality_addition_one_way :
  getConflictingModifiers "dim" ["add9"] = ["add9"]
  ∧ getConflictingModifiers "add9" ["dim"] = []
  ∧ addition ∈ CATEGORY_CONFLICTS quality
  ∧ quality ∉ CATEGORY_CONFLICTS addition.
Proof.
  split_and!.
  - vm_compute. reflexivity.
  - vm_compute. reflexivity.
  - simpl. do 3 right. left.
  - apply (bool_decide_eq_false_1 _). vm_compute. reflexivity.
Qed.

Lemma evicts_not_symmetric : ¬ (∀ a b, evicts a b → evicts b a).
Proof.
  intros Hsym.
  assert (Hqa : evicts quality addition).
  { intros la lb Ha Hb. rewrite getConflictingModifiers_filter.
    apply list_elem_of_filter. split; [|apply list_elem_of_singleton; done].
    exists quality, addition. split_and!; [done..|].
    simpl. do 3 right. left. }
  specialize (Hsym _ _ Hqa "add9" "dim" eq_refl eq_refl).
  vm_compute in Hsym. by apply elem_of_nil in Hsym.
Qed.

(** ** Sorting *)

Lemma sort_asc_Permutation arr : sort_asc arr ≡ₚ arr.
Proof. apply merge_sort_Permutation. Qed.

Lemma sort_asc_Sorted arr : Sorted Z.le (sort_asc arr).
Proof. apply (Sorted_merge_sort Z.le). Qed.

Lemma elem_of_sort_asc x arr : x ∈ sort_asc arr ↔ x ∈ arr.
Proof. by rewrite sort_asc_Permutation. Qed.

Lemma Sorted_le_NoDup_lt (l : list Z) :
  Sorted Z.le l → NoDup l → Sorted Z.lt l.
Proof.
  intros Hs%(Sorted_StronglySorted Z.le). induction Hs as [|x l Hs IH Hall].
  - constructor.
  - intros [Hx Hnd]%NoDup_cons. constructor; [by apply IH|].
    destruct l as [|y l]; constructor.
    apply Forall_cons in Hall as [Hxy _].
    assert (x ≠ y) by (intros ->; apply Hx; left).
    lia.
Qed.

Lemma Sorted_lt_NoDup (l : list Z) : Sorted Z.lt l → NoDup l.
Proof.
  intros Hs%(Sorted_StronglySorted Z.lt). induction Hs as [|x l Hs IH Hall].
  - constructor.
  - constructor; [|done]. intros Hx.
    rewrite Forall_forall in Hall. specialize (Hall _ Hx). lia.
Qed.

Lemma sort_asc_strict arr : NoDup arr → Sorted Z.lt (sort_asc arr).
Proof.
  intros Hnd. apply Sorted_le_NoDup_lt; [apply sort_asc_Sorted|].
  by rewrite sort_asc_Permutation.
Qed.

(** A strictly ascending list is fixed by its set of elements. *)
Lemma Sorted_lt_unique (l1 l2 : list Z) :
  Sorted Z.lt l1 → Sorted Z.lt l2 → (∀ x, x ∈ l1 ↔ x ∈ l2) → l1 = l2.
Proof.
  intros H1 H2 Heq.
  apply (Sorted_unique_strong Z.lt); [|done..|].
  - intros x y _ _ ? ?. lia.
  - apply NoDup_Permutation; auto using Sorted_lt_NoDup.
Qed.

Lemma sort_asc_id (l : list Z) : Sorted Z.le l → sort_asc l = l.
Proof.
  intros Hs. apply (Sorted_unique_strong Z.le).
  - intros x y _ _ ? ?. lia.
  - apply sort_asc_Sorted.
  - done.
  - apply sort_asc_Permutation.
Qed.

(** ** [calculateIntervals] on values *)

Lemma elem_of_push_if_absent x ivs i :
  x ∈ push_if_absent ivs i ↔ x ∈ ivs ∨ x = i.
Proof.
  unfold push_if_absent, includes. case_bool_decide.
  - split; [by left | by intros [?| ->]].
  - by rewrite elem_of_app, list_elem_of_singleton.
Qed.

Lemma NoDup_push_if_absent ivs i : NoDup ivs → NoDup (push_if_absent ivs i).
Proof.
  intros Hnd. unfold push_if_absent, includes. case_bool_decide; [done|].
  apply NoDup_app. split_and!; [done| |apply NoDup_singleton].
  by intros y Hy ->%list_elem_of_singleton.
Qed.

Lemma elem_of_push_all x ivs (new : list Z) :
  x ∈ foldl push_if_absent ivs new ↔ x ∈ ivs ∨ x ∈ new.
Proof.
  revert ivs. induction new as [|i new IH]; intros ivs; simpl.
  - rewrite elem_of_nil. tauto.
  - rewrite IH, elem_of_push_if_absent, elem_of_cons. tauto.
Qed.

Lemma NoDup_push_all ivs (new : list Z) :
  NoDup ivs → NoDup (foldl push_if_absent ivs new).
Proof.
  revert ivs. induction new as [|i new IH]; intros ivs Hnd; simpl; [done|].
  by apply IH, NoDup_push_if_absent.
Qed.

Section calculateIntervals_facts.

Variable catalog : list (ChordModifier (list Z)).
Variable baseIntervals : list Z.

Lemma apply_additive_set ivs m :
  list_to_set (apply_additive ivs m) =@{gset Z}
  effect_on_set (list_to_set ivs) m.
Proof.
  unfold apply_additive, effect_on_set. apply set_eq. intros x.
  destruct (intervalsToAdd m) as [new|];
    [|destruct (intervalToAdd m) as [i|];
      [|destruct (intervalToRemove m) as [r|]]].
  - rewrite elem_of_list_to_set, elem_of_push_all. set_solver.
  - rewrite elem_of_list_to_set, elem_of_push_if_absent. set_solver.
  - rewrite elem_of_list_to_set, list_elem_of_filter, elem_of_difference,
      elem_of_singleton, elem_of_list_to_set. tauto.
  - done.
Qed.

Lemma NoDup_apply_additive ivs m : NoDup ivs → NoDup (apply_additive ivs m).
Proof.
  intros Hnd. unfold apply_additive.
  destruct (intervalsToAdd m); [by apply NoDup_push_all|].
  destruct (intervalToAdd m); [by apply NoDup_push_if_absent|].
  destruct (intervalToRemove m); [by apply NoDup_filter|done].
Qed.

Lemma foldl_apply_additive_set ivs ms :
  list_to_set (foldl apply_additive ivs ms) =@{gset Z}
  foldl effect_on_set (list_to_set ivs) ms.
Proof.
  revert ivs. induction ms as [|m ms IH]; intros ivs; simpl; [done|].
  by rewrite IH, apply_additive_set.
Qed.

Lemma NoDup_foldl_apply_additive ivs ms :
  NoDup ivs → NoDup (foldl apply_additive ivs ms).
Proof.
  revert ivs. induction ms as [|m ms IH]; intros ivs Hnd; simpl; [done|].
  by apply IH, NoDup_apply_additive.
Qed.

(** The first loop keeps the last replacement seen and collects the other
    catalog entries in order. *)
Lemma collect_fold ivs acc (modifiers : list string) :
  foldl (collect_step catalog) (ivs, acc) modifiers
  = (default ivs (last (omap replaceWith (omap (find_modifier catalog) modifiers))),
     acc ++ filter (λ m, replaceWith m = None)
                   (omap (find_modifier catalog) modifiers)).
Proof.
  revert ivs acc. induction modifiers as [|l ls IH]; intros ivs acc.
  - simpl. by rewrite app_nil_r.
  - cbn [foldl omap list_omap]. unfold collect_step at 2.
    destruct (find_modifier catalog l) as [m|] eqn:Hf; [|by rewrite IH].
    destruct (replaceWith m) as [r|] eqn:Hr; rewrite IH; cbn [omap list_omap]; rewrite Hr.
    + rewrite filter_cons_False by congruence.
      f_equal. rewrite last_cons. by destruct (last _).
    + rewrite filter_cons_True by done. by rewrite <- app_assoc.
Qed.

Lemma calculateIntervals_unfold modifiers :
  calculateIntervals catalog baseIntervals modifiers
  = sort_asc (foldl apply_additive (effective_base catalog baseIntervals modifiers)
                    (additive_entries catalog modifiers)).
Proof.
  unfold calculateIntervals. by rewrite collect_fold.
Qed.

Lemma calculateIntervals_Sorted modifiers :
  Sorted Z.le (calculateIntervals catalog baseIntervals modifiers).
Proof. rewrite calculateIntervals_unfold. apply sort_asc_Sorted. Qed.

Lemma calculateIntervals_set modifiers :
  list_to_set (calculateIntervals catalog baseIntervals modifiers)
  =@{gset Z} interval_set catalog baseIntervals modifiers.
Proof.
  rewrite calculateIntervals_unfold. unfold interval_set.
  rewrite <- foldl_apply_additive_set.
  apply set_eq. intros x. by rewrite !elem_of_list_to_set, elem_of_sort_asc.
Qed.

Lemma effective_base_NoDup modifiers :
  replacements_NoDup catalog → NoDup baseIntervals →
  NoDup (effective_base catalog baseIntervals modifiers).
Proof.
  intros Hcat Hbase. unfold effective_base.
  destruct (last _) as [r|] eqn:Hlast; simpl; [|done].
  apply last_Some_elem_of in Hlast.
  apply list_elem_of_omap in Hlast as (m & Hm & Hr).
  apply list_elem_of_omap in Hm as (l & _ & Hfind).
  unfold find_modifier in Hfind. apply find_some in Hfind as [Hin _].
  apply list_elem_of_In in Hin. eauto.
Qed.

Lemma calculateIntervals_strict modifiers :
  replacements_NoDup catalog → NoDup baseIntervals →
  Sorted Z.lt (calculateIntervals catalog baseIntervals modifiers).
Proof.
  intros Hcat Hbase. rewrite calculateIntervals_unfold.
  apply sort_asc_strict, NoDup_foldl_apply_additive.
  by apply effective_base_NoDup.
Qed.

(** Feeding a result back as the base, with no modifier, returns it
    unchanged. *)
Lemma calculateIntervals_fixed modifiers :
  calculateIntervals catalog
    (calculateIntervals catalog baseIntervals modifiers) []
  = calculateIntervals catalog baseIntervals modifiers.
Proof.
  change (calculateIntervals catalog ?b []) with (sort_asc b).
  apply sort_asc_id, calculateIntervals_Sorted.
Qed.

(** The result is the ascending enumeration of [interval_set]. *)
Lemma calculateIntervals_enumerates modifiers (l : list Z) :
  replacements_NoDup catalog → NoDup baseIntervals →
  Sorted Z.lt l →
  list_to_set l =@{gset Z} interval_set catalog baseIntervals modifiers →
  l = calculateIntervals catalog baseIntervals modifiers.
Proof.
  intros Hcat Hbase Hl Hset. apply Sorted_lt_unique.
  - done.
  - by apply calculateIntervals_strict.
  - intros x. rewrite <- calculateIntervals_set in Hset.
    rewrite <- (elem_of_list_to_set (C:=gset Z) x l), Hset.
    apply elem_of_list_to_set.
Qed.

End calculateIntervals_facts.

Lemma CHORD_MODIFIERS_replacements_NoDup : replacements_NoDup CHORD_MODIFIERS.
Proof.
  assert (Hall : Forall (λ m, ∀ r, replaceWith m = Some r → NoDup r)
                        CHORD_MODIFIERS).
  { unfold CHORD_MODIFIERS.
    repeat (apply Forall_cons; split;
            [intros r Hr; simpl in Hr; simplify_eq;
             try (apply (bool_decide_unpack _); vm_compute; exact I)|]).
    apply Forall_nil. done. }
  intros m r Hm Hr. rewrite Forall_forall in Hall. eauto.
Qed.

(** Both revisions of the catalog hold the same entry for every label, so
    [calculateIntervals] does not depend on which one is loaded. *)
Lemma find_modifier_by_use l :
  find_modifier CHORD_MODIFIERS_by_use l = find_modifier CHORD_MODIFIERS l.
Proof.
  unfold find_modifier, CHORD_MODIFIERS_by_use, CHORD_MODIFIERS.
  unfold add_one, add_many, replace_with. cbn [find label].
  repeat match goal with
         | |- context [String.eqb ?a l] =>
             destruct (String.eqb_spec a l) as [<-|?];
             [vm_compute; reflexivity|]
         end.
  reflexivity.
Qed.

Lemma calculateIntervals_by_use baseIntervals modifiers :
  calculateIntervals CHORD_MODIFIERS_by_use baseIntervals modifiers
  = calculateIntervals CHORD_MODIFIERS baseIntervals modifiers.
Proof.
  unfold calculateIntervals. f_equal.
  generalize (baseIntervals, @nil (ChordModifier (list Z))).
  induction modifiers as [|l ls IH]; intros st; [done|]. simpl.
  rewrite <- IH. f_equal. unfold collect_step.
  by rewrite find_modifier_by_use.
Qed.

(** ** The card state machine *)

Section ChordCard_facts.

Variable baseIntervals : list Z.

Import JsSet JsSetFacts.

Lemma delete_all_filter conflicts (locked : list string) :
  delete_all conflicts locked = filter (λ y, y ∉ conflicts) locked.
Proof.
  unfold delete_all. revert locked.
  induction conflicts as [|c cs IH]; intros locked; cbn [foldl].
  - symmetry. induction locked as [|x l IHl]; [done|].
    rewrite filter_cons_True by apply not_elem_of_nil. by f_equal.
  - rewrite IH. unfold delete.
    induction locked as [|x l IHl]; [done|].
    rewrite !(filter_cons _ x). destruct (decide (x ≠ c)) as [Hxc|Hxc].
    + rewrite filter_cons. rewrite IHl.
      apply decide_ext. rewrite not_elem_of_cons. tauto.
    + rewrite IHl. rewrite decide_False; [done|].
      rewrite not_elem_of_cons. tauto.
Qed.

Lemma lock_order_ok_filter (P : string → Prop) `{∀ x, Decision (P x)} l :
  lock_order_ok l → lock_order_ok (filter P l).
Proof.
  induction l as [|x l IH]; [done|]. intros [Hx Hl].
  destruct (decide (P x)).
  - rewrite filter_cons_True by done. split; [|by apply IH].
    intros y [_ Hy]%list_elem_of_filter. by apply Hx.
  - rewrite filter_cons_False by done. by apply IH.
Qed.

Lemma lock_order_ok_snoc l z :
  lock_order_ok l → (∀ x, x ∈ l → ¬ listed_under z x) →
  lock_order_ok (l ++ [z]).
Proof.
  induction l as [|x l IH]; intros Hl Hz; simpl.
  - split; [|done]. intros y Hy. by apply elem_of_nil in Hy.
  - destruct Hl as [Hx Hl]. split.
    + intros y [Hy | ->%list_elem_of_singleton]%elem_of_app; [by apply Hx|].
      apply Hz. left.
    + apply IH; [done|]. intros y Hy. apply Hz. by right.
Qed.

(** Locking: after evicting the conflicts of [l], nothing left is listed
    under [l]. *)
Lemma lock_order_ok_lock l locked :
  lock_order_ok locked →
  lock_order_ok (add l (delete_all (getConflictingModifiers l locked) locked)).
Proof.
  intros Hok. rewrite delete_all_filter.
  assert (Hf : lock_order_ok
                 (filter (λ y, y ∉ getConflictingModifiers l locked) locked))
    by by apply lock_order_ok_filter.
  unfold add. destruct (has l _); [done|].
  apply lock_order_ok_snoc; [done|].
  intros x [Hx Hin]%list_elem_of_filter Hlisted. apply Hx.
  rewrite getConflictingModifiers_filter. by apply list_elem_of_filter.
Qed.

Lemma card_inv_init : card_inv baseIntervals (initialState baseIntervals).
Proof.
  split_and!; simpl; [apply NoDup_nil_2|done|done|done].
Qed.

Lemma card_inv_step st e :
  card_inv baseIntervals st → event_ok e →
  card_inv baseIntervals (card_step baseIntervals st e).1.
Proof.
  intros (Hnd & Htemp & Hcur & Hord) He. destruct e as [l | l |]; simpl.
  - (* tap *)
    unfold handleTap. case_bool_decide as Ht; simpl.
    { split_and!; simpl; [done|done| |done]. done. }
    destruct (has l (lockedModifiers st)) eqn:Hhas; simpl.
    { by split_and!. }
    apply has_false in Hhas. simpl in He.
    split_and!; simpl; [done| | |done].
    + intros t [= <-]. done.
    + intros _. unfold activeModifiers, add_if_truthy, truthy. simpl.
      destruct (String.eqb_spec l ""); [done|]. done.
  - (* long-press *)
    unfold handleLongPress.
    set (newLocked := if has l (lockedModifiers st) then _ else _).
    assert (Hnd' : NoDup newLocked).
    { subst newLocked. destruct (has l _).
      - by apply NoDup_delete.
      - apply NoDup_add. rewrite delete_all_filter. by apply NoDup_filter. }
    assert (Hord' : lock_order_ok newLocked).
    { subst newLocked. destruct (has l _).
      - unfold delete. by apply lock_order_ok_filter.
      - by apply lock_order_ok_lock. }
    split_and!; simpl; [done| | |done].
    + intros t. destruct (tempModifier st) as [t0|] eqn:Ht0; [|done].
      destruct (Htemp t0 eq_refl) as [Hne _].
      destruct (truthy (Some t0)) eqn:Htr.
      * destruct (has t0 newLocked) eqn:Hhas; [done|].
        case_bool_decide; [done|]. intros [= <-].
        split; [done|]. by apply has_false.
      * (* a falsy temp would be the empty label *)
        exfalso. unfold truthy in Htr.
        apply negb_false_iff, String.eqb_eq in Htr. done.
    + intros _. reflexivity.
  - (* context change *)
    split_and!; simpl; [apply NoDup_nil_2|done|done|done].
Qed.

Lemma reachable_inv st : reachable baseIntervals st → card_inv baseIntervals st.
Proof.
  induction 1 as [|st e _ IH He]; [apply card_inv_init|by apply card_inv_step].
Qed.

(** The transient modifier is never locked as well. *)
Lemma reachable_temp_not_locked st t :
  reachable baseIntervals st → tempModifier st = Some t →
  t ∉ lockedModifiers st.
Proof. intros (_ & Htemp & _)%reachable_inv Ht. by apply Htemp. Qed.

Lemma lock_order_no_mutual l x y :
  lock_order_ok l → x ∈ l → y ∈ l → x ≠ y →
  ¬ (listed_under x y ∧ listed_under y x).
Proof.
  induction l as [|z l IH]; intros Hok Hx Hy Hne [Hxy Hyx].
  - by apply elem_of_nil in Hx.
  - destruct Hok as [Hz Hok].
    apply elem_of_cons in Hx as [-> | Hx]; apply elem_of_cons in Hy as [-> | Hy].
    + done.
    + by apply (Hz y).
    + by apply (Hz x).
    + by apply IH.
Qed.

(** No two locked labels evict each other. *)
Lemma reachable_no_mutual_conflict st x y :
  reachable baseIntervals st →
  x ∈ lockedModifiers st → y ∈ lockedModifiers st → x ≠ y →
  ¬ (listed_under x y ∧ listed_under y x).
Proof. intros (_ & _ & _ & Hord)%reachable_inv. by apply lock_order_no_mutual. Qed.

End ChordCard_facts.

(** The table is mutual except that [quality] lists [addition] and
    [addition] does not list [quality]. *)
Lemma listed_under_mutual_or_quality_addition x y :
  listed_under x y →
  listed_under y x
  ∨ (MODIFIER_CATEGORIES !! x = Some quality
     ∧ MODIFIER_CATEGORIES !! y = Some addition).
Proof.
  intros (c & c' & Hx & Hy & Hin).
  destruct (decide (c = quality ∧ c' = addition)) as [[-> ->]|Hn]; [by right|].
  left. exists c', c. split_and!; [done..|].
  destruct c, c';
    try (apply (bool_decide_unpack _); vm_compute; exact I);
    exfalso;
    first [ by apply Hn
          | revert Hin; apply (bool_decide_eq_false_1 _); vm_compute; reflexivity ].
Qed.

(** C10: with no active modifier [calculateIntervals] returns the base
    intervals sorted ascending: the same elements with the same
    multiplicities, nothing added, removed or replaced. *)
Theorem calculateIntervals_no_modifiers :
  ∀ (catalog : list (ChordModifier (list Z))) (baseIntervals : list Z),
    calculateIntervals catalog baseIntervals [] = sort_asc baseIntervals
    ∧ Sorted Z.le (calculateIntervals catalog baseIntervals [])
    ∧ calculateIntervals catalog baseIntervals [] ≡ₚ baseIntervals.
Proof.
  intros catalog baseIntervals.
  assert (Heq : calculateIntervals catalog baseIntervals []
                = sort_asc baseIntervals) by reflexivity.
  rewrite Heq. split_and!.
  - done.
  - apply sort_asc_Sorted.
  - apply sort_asc_Permutation.
Qed.

(** C1 (evaluation at the failing input): long-pressing [dim] and then
    [add9] on a fresh card leaves both locked, although the category of
    [add9] is listed under the category of [dim] in the conflict table. *)
Theorem lock_dim_then_add9 :
  ∀ baseIntervals : list Z,
    lockedModifiers
      (card_run baseIntervals (initialState baseIntervals)
                [LongPress "dim"; LongPress "add9"]).1
    = ["dim"; "add9"]
    ∧ MODIFIER_CATEGORIES !! "dim" = Some quality
    ∧ MODIFIER_CATEGORIES !! "add9" = Some addition
    ∧ addition ∈ CATEGORY_CONFLICTS quality.
Proof.
  intros baseIntervals. split_and!.
  - vm_compute. reflexivity.
  - vm_compute. reflexivity.
  - vm_compute. reflexivity.
  - simpl. do 3 right. left.
Qed.

(** Long-pressing [sus2] and then [sus4] leaves exactly [sus4] locked; an
    extension locked on top of a seventh evicts the seventh. *)
Example lock_sus2_then_sus4 :
  lockedModifiers
    (card_run [0; 4; 7] (initialState [0; 4; 7])
              [LongPress "sus2"; LongPress "sus4"]).1 = ["sus4"].
Proof. vm_compute. reflexivity. Qed.

Example lock_9_evicts_7 :
  lockedModifiers
    (card_run [0; 4; 7] (initialState [0; 4; 7])
              [LongPress "7"; LongPress "9"]).1 = ["9"].
Proof. vm_compute. reflexivity. Qed.

(** ** [calculateIntervals] on the heap *)

Lemma extends_refl h : extends h h.
Proof. by split. Qed.

Lemma extends_trans h1 h2 h3 : extends h1 h2 → extends h2 h3 → extends h1 h3.
Proof.
  intros [Hl12 H12] [Hl23 H23]. split; [lia|].
  intros l Hl. rewrite H23 by lia. by apply H12.
Qed.

Lemma extends_read h h' l : extends h h' → (l < length h)%nat → read h' l = read h l.
Proof. intros [_ H] Hl. unfold read. by rewrite H. Qed.

Lemma extends_alloc h arr : extends h (alloc arr h).2.
Proof.
  split; simpl.
  - rewrite length_app. lia.
  - intros l Hl. by apply lookup_app_l.
Qed.

Lemma read_alloc h arr : read (alloc arr h).2 (alloc arr h).1 = arr.
Proof. unfold read, alloc. simpl. by rewrite list_lookup_middle. Qed.

Lemma length_alloc h arr : length (alloc arr h).2 = S (length h).
Proof. simpl. rewrite length_app. simpl. lia. Qed.

Lemma length_write l arr (h : heap) : length (write l arr h) = length h.
Proof. apply length_insert. Qed.

Lemma read_write l arr (h : heap) :
  (l < length h)%nat → read (write l arr h) l = arr.
Proof. intros Hl. unfold read, write. by rewrite list_lookup_insert_eq. Qed.

Lemma extends_write_fresh h0 (g : heap) l arr :
  extends h0 g → (length h0 ≤ l)%nat → extends h0 (write l arr g).
Proof.
  intros [Hlen H] Hl. split; [by rewrite length_write|].
  intros l' Hl'. unfold write. rewrite list_lookup_insert_ne by lia. by apply H.
Qed.

Lemma fresh_at_alloc h0 (g : heap) arr :
  extends h0 g → fresh_at h0 (alloc arr g).2 (alloc arr g).1 arr.
Proof.
  intros Hext. split_and!.
  - eapply extends_trans; [done|apply extends_alloc].
  - simpl. by destruct Hext.
  - rewrite length_alloc. simpl. lia.
  - apply read_alloc.
Qed.

Lemma fresh_at_write h0 (g : heap) iv v v' :
  fresh_at h0 g iv v → fresh_at h0 (write iv v' g) iv v'.
Proof.
  intros (Hext & Hge & Hlt & _). split_and!.
  - by apply extends_write_fresh.
  - done.
  - by rewrite length_write.
  - by apply read_write.
Qed.

Lemma push_if_absent_h_fresh h0 (g : heap) iv v i :
  fresh_at h0 g iv v →
  fresh_at h0 (push_if_absent_h iv g i) iv (push_if_absent v i).
Proof.
  intros Hf. pose proof Hf as (_ & _ & _ & Hv).
  unfold push_if_absent_h, push_if_absent. rewrite Hv.
  destruct (includes i v); [done|]. by eapply fresh_at_write.
Qed.

Lemma omap_lookup_seq_from {A} (pre l : list A) :
  omap (λ k, (pre ++ l) !! k) (seq (length pre) (length l)) = l.
Proof.
  revert pre. induction l as [|x l IH]; intros pre; [done|].
  cbn [length seq omap list_omap].
  rewrite list_lookup_middle by done. f_equal.
  specialize (IH (pre ++ [x])).
  rewrite length_app, Nat.add_1_r, <- app_assoc in IH. exact IH.
Qed.

Lemma omap_lookup_seq {A} (l : list A) :
  omap (λ k, l !! k) (seq 0 (length l)) = l.
Proof. apply (omap_lookup_seq_from []). Qed.

Lemma forEach_push_fresh h0 (g : heap) iv v a :
  fresh_at h0 g iv v → (a < length h0)%nat →
  fresh_at h0 (forEach_h a (push_if_absent_h iv) g) iv
           (foldl push_if_absent v (read h0 a)).
Proof.
  intros Hf Ha. unfold forEach_h.
  assert (Hra : read g a = read h0 a).
  { destruct Hf as (Hext & _). by apply extends_read. }
  rewrite Hra. rewrite <- (omap_lookup_seq (read h0 a)) at 2.
  generalize (seq 0 (length (read h0 a))). intros ks.
  revert g v Hf Hra. induction ks as [|k ks IH]; intros g v Hf Hra; [done|].
  cbn [foldl omap list_omap]. rewrite Hra.
  destruct (read h0 a !! k) as [x|] eqn:Hk; cbn [foldl].
  - apply IH.
    + by apply push_if_absent_h_fresh.
    + apply extends_read; [|done].
      by destruct (push_if_absent_h_fresh h0 g iv v x Hf) as (Hext' & _).
  - by apply IH.
Qed.

Section calculateIntervals_heap_facts.

Variable h0 : heap.
Variable catalog : list (ChordModifier loc).
Hypothesis catalog_valid : Forall (valid_modifier h0) catalog.

Lemma find_modifier_resolve l :
  find_modifier (resolve h0 <$> catalog) l
  = resolve h0 <$> find_modifier catalog l.
Proof.
  unfold find_modifier. clear catalog_valid.
  induction catalog as [|m ms IH]; [done|].
  cbn [fmap list_fmap find]. simpl label.
  destruct (String.eqb (label m) l); [done|]. apply IH.
Qed.

Lemma find_modifier_valid l m :
  find_modifier catalog l = Some m → valid_modifier h0 m.
Proof.
  unfold find_modifier. intros [Hin _]%find_some.
  rewrite Forall_forall in catalog_valid.
  by apply catalog_valid, list_elem_of_In.
Qed.

Lemma collect_step_h_rel st sv l :
  collect_rel h0 st sv →
  collect_rel h0 (collect_step_h catalog st l)
              (collect_step (resolve h0 <$> catalog) sv l).
Proof.
  destruct st as [[iv acc] g], sv as [v accv].
  intros (Hf & Hacc & Hval). simpl in *.
  unfold collect_step_h, collect_step. rewrite find_modifier_resolve.
  destruct (find_modifier catalog l) as [m|] eqn:Hfind; simpl;
    [|by split_and!].
  pose proof (find_modifier_valid _ _ Hfind) as Hvm.
  destruct (replaceWith m) as [r|] eqn:Hr; simpl.
  - split_and!; simpl; [|done..].
    destruct Hf as (Hext & _). destruct Hvm as [_ Hvr].
    rewrite <- (extends_read h0 g r Hext) by eauto.
    by apply (fresh_at_alloc h0 g (read g r)).
  - split_and!; simpl; [done| |].
    + rewrite fmap_app. by rewrite Hacc.
    + apply Forall_app. split; [done|]. by apply Forall_singleton.
Qed.

Lemma collect_fold_h_rel st sv ls :
  collect_rel h0 st sv →
  collect_rel h0 (foldl (collect_step_h catalog) st ls)
              (foldl (collect_step (resolve h0 <$> catalog)) sv ls).
Proof.
  revert st sv. induction ls as [|l ls IH]; intros st sv Hrel; [done|].
  simpl. by apply IH, collect_step_h_rel.
Qed.

Lemma apply_additive_h_fresh iv g v m :
  fresh_at h0 g iv v → valid_modifier h0 m →
  fresh_at h0 (apply_additive_h (iv, g) m).2 (apply_additive_h (iv, g) m).1
           (apply_additive v (resolve h0 m)).
Proof.
  intros Hf [Hva _]. unfold apply_additive_h, apply_additive. simpl.
  destruct (intervalsToAdd m) as [a|] eqn:Ha; simpl.
  { apply forEach_push_fresh; eauto. }
  destruct (intervalToAdd m) as [i|]; simpl.
  { by apply push_if_absent_h_fresh. }
  destruct (intervalToRemove m) as [r|]; simpl; [|done].
  pose proof Hf as (Hext & _ & _ & Hv). rewrite Hv.
  by apply (fresh_at_alloc h0 g).
Qed.

Lemma apply_additive_fold_h_fresh iv g v ms :
  fresh_at h0 g iv v → Forall (valid_modifier h0) ms →
  fresh_at h0 (foldl apply_additive_h (iv, g) ms).2
           (foldl apply_additive_h (iv, g) ms).1
           (foldl apply_additive v (resolve h0 <$> ms)).
Proof.
  revert iv g v. induction ms as [|m ms IH]; intros iv g v Hf Hval; [done|].
  apply Forall_cons in Hval as [Hm Hms]. cbn [foldl fmap list_fmap].
  pose proof (apply_additive_h_fresh iv g v m Hf Hm) as Hstep.
  destruct (apply_additive_h (iv, g) m) as [iv' g']. by apply IH.
Qed.

(** The heap run computes the array of the value-level function in a
    location allocated during the call and leaves every array that existed
    before the call as it was. *)
Lemma calculateIntervals_h_fresh baseIntervals modifiers :
  (baseIntervals < length h0)%nat →
  fresh_at h0 (calculateIntervals_h catalog baseIntervals modifiers h0).2
           (calculateIntervals_h catalog baseIntervals modifiers h0).1
           (calculateIntervals (resolve h0 <$> catalog)
                               (read h0 baseIntervals) modifiers).
Proof.
  intros Hbase. unfold calculateIntervals_h, calculateIntervals, spread.
  assert (Hrel : collect_rel h0
                   (length h0, [], h0 ++ [read h0 baseIntervals])
                   (read h0 baseIntervals, [])).
  { split_and!; simpl; [|done|done].
    apply (fresh_at_alloc h0 h0), extends_refl. }
  apply (collect_fold_h_rel _ _ modifiers) in Hrel.
  unfold alloc. cbv beta iota zeta.
  destruct (foldl (collect_step_h catalog) _ modifiers) as [[iv1 acc] h2].
  destruct (foldl (collect_step _) _ modifiers) as [v accv].
  destruct Hrel as (Hf & Hacc & Hval). simpl in *. subst accv.
  pose proof (apply_additive_fold_h_fresh iv1 h2 v acc Hf Hval) as Hf2.
  destruct (foldl apply_additive_h (iv1, h2) acc) as [iv2 h3]. simpl in *.
  pose proof Hf2 as (_ & _ & _ & Hv). rewrite Hv.
  by eapply fresh_at_write.
Qed.

End calculateIntervals_heap_facts.

Lemma resolve_extends h h' m :
  extends h h' → valid_modifier h m → resolve h' m = resolve h m.
Proof.
  intros Hext [Hva Hvr]. unfold resolve. f_equal.
  - destruct (intervalsToAdd m) as [a|]; [|done]. simpl.
    f_equal. apply extends_read; eauto.
  - destruct (replaceWith m) as [r|]; [|done]. simpl.
    f_equal. apply extends_read; eauto.
Qed.

Lemma valid_modifier_extends h h' m :
  extends h h' → valid_modifier h m → valid_modifier h' m.
Proof.
  intros [Hlen _] [Hva Hvr]. split; intros x Hx.
  - specialize (Hva x Hx). lia.
  - specialize (Hvr x Hx). lia.
Qed.

Lemma catalog_stored_extends h h' ch cv :
  catalog_stored h ch cv → extends h h' → catalog_stored h' ch cv.
Proof.
  intros [Hres Hval] Hext. split.
  - rewrite <- Hres. apply Forall_fmap_ext.
    eapply Forall_impl; [done|]. intros m. by apply resolve_extends.
  - eapply Forall_impl; [done|]. intros m. by apply valid_modifier_extends.
Qed.

Lemma store_array_spec o h :
  extends h (store_array o h).2
  ∧ (read (store_array o h).2 <$> (store_array o h).1) = o
  ∧ ∀ l, (store_array o h).1 = Some l → (l < length (store_array o h).2)%nat.
Proof.
  destruct o as [arr|]; simpl.
  - split_and!.
    + apply (extends_alloc h arr).
    + f_equal. apply (read_alloc h arr).
    + intros l [= <-]. rewrite length_app. simpl. lia.
  - split_and!; [apply extends_refl|done|done].
Qed.

Lemma store_modifier_spec m h :
  extends h (store_modifier m h).2
  ∧ resolve (store_modifier m h).2 (store_modifier m h).1 = m
  ∧ valid_modifier (store_modifier m h).2 (store_modifier m h).1.
Proof.
  unfold store_modifier.
  destruct (store_array_spec (intervalsToAdd m) h) as (He1 & Hr1 & Hv1).
  destruct (store_array (intervalsToAdd m) h) as [a h1]. simpl in *.
  destruct (store_array_spec (replaceWith m) h1) as (He2 & Hr2 & Hv2).
  destruct (store_array (replaceWith m) h1) as [r h2]. simpl in *.
  split_and!.
  - by eapply extends_trans.
  - unfold resolve. simpl. rewrite Hr2.
    assert (Ha : read h2 <$> a = intervalsToAdd m).
    { rewrite <- Hr1. destruct a as [l|]; [|done]. simpl. f_equal.
      apply extends_read; [done|]. by apply Hv1. }
    rewrite Ha. by destruct m.
  - split; simpl.
    + intros l Hl. specialize (Hv1 l Hl). destruct He2. lia.
    + done.
Qed.

(** After module initialisation the catalog is stored. *)
Lemma store_catalog_stored cat h :
  extends h (store_catalog cat h).2
  ∧ catalog_stored (store_catalog cat h).2 (store_catalog cat h).1 cat.
Proof.
  revert h. induction cat as [|m cat IH]; intros h; simpl.
  - split; [apply extends_refl|]. by split.
  - destruct (store_modifier_spec m h) as (He1 & Hr1 & Hv1).
    destruct (store_modifier m h) as [m' h1]. simpl in *.
    destruct (IH h1) as (He2 & Hres & Hval).
    destruct (store_catalog cat h1) as [cat' h2]. simpl in *.
    split; [by eapply extends_trans|]. split.
    + cbn [fmap list_fmap]. rewrite Hres. f_equal.
      rewrite <- Hr1. by apply resolve_extends.
    + apply Forall_cons. split; [|done].
      by eapply valid_modifier_extends.
Qed.

(** C4 (counterexample): the code sorts and never removes a duplicate.  A
    base array that holds an interval twice comes back holding it twice. *)
Lemma calculateIntervals_keeps_duplicates :
  let stored := store_catalog CHORD_MODIFIERS [] in
  let h := stored.2 ++ [[0; 4; 4; 7]] in
  let run := calculateIntervals_h stored.1 8%nat ["7"] h in
  read h 8%nat = [0; 4; 4; 7]
  ∧ read run.2 run.1 = [0; 4; 4; 7; 10]
  ∧ ¬ NoDup (read run.2 run.1).
Proof.
  intros stored h run.
  assert (read run.2 run.1 = [0; 4; 4; 7; 10]) as Hrun
    by (vm_compute; reflexivity).
  split; [reflexivity|]. split; [exact Hrun|].
  rewrite Hrun. intros Hnd.
  apply NoDup_cons in Hnd as [_ Hnd].
  apply NoDup_cons in Hnd as [Hnin _]. apply Hnin. by left.
Qed.

(** C4 (amended): for any catalog whose arrays are in the heap, and any
    base array, [calculateIntervals] returns a new array holding the base
    (replaced by the array of the last active replace-effect entry when
    there is one), extended by every add-effect interval not yet present
    and filtered by every remove-effect interval, in the order of the
    active set, sorted ascending.  It holds no duplicate when the base
    array and the replacement arrays hold none; the code itself removes
    none.  No array that existed before the call is changed, and calling it
    again with the same active set gives the same content. *)
Theorem calculateIntervals_spec :
  ∀ (h : heap) (catalog : list (ChordModifier loc))
    (entries : list (ChordModifier (list Z))) (baseIntervals : loc)
    (modifiers : JsSet.t),
    catalog_stored h catalog entries →
    (baseIntervals < length h)%nat →
    let base := read h baseIntervals in
    let run1 := calculateIntervals_h catalog baseIntervals modifiers h in
    let result := read run1.2 run1.1 in
    let run2 := calculateIntervals_h catalog baseIntervals modifiers run1.2 in
    result = calculateIntervals entries base modifiers
    ∧ result = sort_asc (foldl apply_additive
                           (effective_base entries base modifiers)
                           (additive_entries entries modifiers))
    ∧ list_to_set result =@{gset Z} interval_set entries base modifiers
    ∧ Sorted Z.le result
    ∧ (NoDup base → replacements_NoDup entries → Sorted Z.lt result)
    ∧ (length h ≤ run1.1)%nat
    ∧ extends h run1.2
    ∧ read run2.2 run2.1 = result.
Proof.
  intros h catalog entries baseIntervals modifiers Hcat Hbase
    base run1 result run2.
  pose proof Hcat as [Hres Hval].
  pose proof (calculateIntervals_h_fresh h catalog Hval baseIntervals
                modifiers Hbase) as (Hext & Hfresh & _ & Hread).
  fold run1 in Hext, Hfresh, Hread. fold result in Hread.
  rewrite Hres in Hread. fold base in Hread.
  assert (Hcat2 : catalog_stored run1.2 catalog entries)
    by by eapply catalog_stored_extends.
  destruct Hcat2 as [Hres2 Hval2].
  assert (Hbase2 : (baseIntervals < length run1.2)%nat)
    by (destruct Hext; lia).
  pose proof (calculateIntervals_h_fresh run1.2 catalog Hval2 baseIntervals
                modifiers Hbase2) as (_ & _ & _ & Hread2).
  fold run2 in Hread2. rewrite Hres2 in Hread2.
  rewrite (extends_read h run1.2 baseIntervals Hext Hbase) in Hread2.
  fold base in Hread2.
  split_and!.
  - done.
  - by rewrite Hread, calculateIntervals_unfold.
  - rewrite Hread. apply calculateIntervals_set.
  - rewrite Hread. apply calculateIntervals_Sorted.
  - intros Hnd Hrep. rewrite Hread. by apply calculateIntervals_strict.
  - done.
  - done.
  - by rewrite Hread2.
Qed.

Lemma calculateIntervals_spec_witness :
  let entries :=
    CHORD_MODIFIERS ++ [mkChordModifier "no5" None None (Some 7) None] in
  let stored := store_catalog entries [] in
  let h := stored.2 ++ [[0; 4; 7]] in
  let run1 := calculateIntervals_h stored.1 8%nat ["sus4"; "7"; "no5"] h in
  read h 8%nat = [0; 4; 7]
  ∧ read run1.2 run1.1 = [0; 5; 10]
  ∧ list_to_set (read run1.2 run1.1)
    =@{gset Z} interval_set entries [0; 4; 7] ["sus4"; "7"; "no5"]
  ∧ extends h run1.2.
Proof.
  intros entries stored h run1.
  assert (catalog_stored h stored.1 entries) as Hcat.
  { apply (catalog_stored_extends stored.2).
    - apply (store_catalog_stored entries []).
    - apply (extends_alloc stored.2 [0; 4; 7]). }
  assert (8 < length h)%nat as Hbase by (vm_compute; lia).
  destruct (calculateIntervals_spec h stored.1 entries 8%nat
              ["sus4"; "7"; "no5"] Hcat Hbase)
    as (Hval & _ & Hset & _ & _ & _ & Hext & _).
  split; [reflexivity|]. split; [|split; [exact Hset|exact Hext]].
  fold run1 in Hval. rewrite Hval. vm_compute. reflexivity.
Defined.

(** ** Pointer handlers *)

Arguments truthy : simpl never.

Lemma clearTimeout_single id d l : clearTimeout id [mkTimer id d l] = [].
Proof. unfold clearTimeout. by rewrite filter_cons_False, filter_nil by (simpl; tauto). Qed.

Lemma truthy_nonempty l : l ≠ "" → truthy (Some l) = true.
Proof. intros Hl. unfold truthy. by destruct (String.eqb_spec l ""). Qed.

Lemma length_clearTimeout id q : (length (clearTimeout id q) ≤ length q)%nat.
Proof. apply length_filter. Qed.

(** Only a pointer-down lengthens the queue of armed timeouts. *)
Lemma gesture_step_pending s e :
  (∀ l, e ≠ PointerDown l) →
  (length (pending (gesture_step s e).1) ≤ length (pending s))%nat.
Proof.
  intros He. destruct e as [l| | |id|]; simpl.
  - by destruct (He l).
  - unfold cancel_press_timer. destruct (pressTimerRef s); simpl;
      [apply length_clearTimeout|done].
  - unfold cancel_press_timer. destruct (pressTimerRef s); simpl;
      [apply length_clearTimeout|done].
  - unfold timer_callback. destruct (find _ _); simpl;
      [apply length_clearTimeout|done].
  - unfold unmount_cleanup. destruct (pressTimerRef s); simpl;
      [apply length_clearTimeout|done].
Qed.

Lemma no_reentrant_press_bound s es :
  (length (pending s) ≤ 1)%nat → no_reentrant_press s es →
  (length (pending (gesture_run s es).1) ≤ 1)%nat.
Proof.
  revert s. induction es as [|e es IH]; intros s Hlen Hok; [done|].
  destruct Hok as [He Hok]. simpl.
  destruct (gesture_step s e) as [s1 out1] eqn:Hstep.
  specialize (IH s1). destruct (gesture_run s1 es) as [s2 out2]. simpl.
  apply IH; [|done].
  destruct e as [l| | |id|].
  2-5: (match type of Hstep with
        | gesture_step ?s0 ?e = _ =>
            pose proof (gesture_step_pending s0 e) as Hle
        end;
        rewrite Hstep in Hle; simpl in Hle;
        etrans; [apply Hle; intros; discriminate | done]).
  simpl in Hstep. unfold handlePointerDown in Hstep. simplify_eq. simpl.
  rewrite He. simpl. lia.
Qed.

(** A tap is only ever signalled for a non-empty label. *)
Lemma tap_signal_nonempty s e l :
  TapSignal l ∈ (gesture_step s e).2 → l ≠ "".
Proof.
  destruct e as [l0| | |id|]; simpl.
  - intros H. by apply elem_of_nil in H.
  - destruct (currentModifierRef (cancel_press_timer s)) as [l1|] eqn:Hcur;
      [|intros H; by apply elem_of_nil in H].
    destruct (negb _ && truthy (Some l1)) eqn:Hcond;
      [|intros H; by apply elem_of_nil in H].
    intros [= <-]%list_elem_of_singleton.
    apply andb_true_iff in Hcond as [_ Htr]. unfold truthy in Htr.
    intros ->. done.
  - intros H. by apply elem_of_nil in H.
  - unfold timer_callback. destruct (find _ _); simpl.
    + intros [=]%list_elem_of_singleton.
    + intros H. by apply elem_of_nil in H.
  - unfold unmount_cleanup. destruct (pressTimerRef s); simpl;
      intros H; by apply elem_of_nil in H.
Qed.

(** The shapes of one pointer interaction on a modifier button, started
    with no timeout armed.  Down then up before the timeout expires: exactly one tap
    and no long-press, also if the expiry time passes later.  Down, expiry,
    then up (or leave): exactly one long-press and no tap.  Down then leave:
    the timeout is cancelled and nothing is emitted, then or later.  The
    timeout armed by the pointer-down has the 400 ms delay. *)
Theorem gesture_tap_xor_long_press :
  ∀ (s : GestureState) (modifierLabel : string),
    modifierLabel ≠ "" →
    pending s = [] →
    let id := nextTimerId s in
    let emitted es := (gesture_run s es).2 in
    let armed es := pending (gesture_run s es).1 in
    armed [PointerDown modifierLabel] = [mkTimer id 400 modifierLabel]
    ∧ emitted [PointerDown modifierLabel; PointerUp]
      = [TapSignal modifierLabel]
    ∧ armed [PointerDown modifierLabel; PointerUp] = []
    ∧ emitted [PointerDown modifierLabel; PointerUp; TimerExpire id]
      = [TapSignal modifierLabel]
    ∧ emitted [PointerDown modifierLabel; TimerExpire id; PointerUp]
      = [LongPressSignal modifierLabel]
    ∧ emitted [PointerDown modifierLabel; TimerExpire id; PointerLeave]
      = [LongPressSignal modifierLabel]
    ∧ emitted [PointerDown modifierLabel; PointerLeave] = []
    ∧ armed [PointerDown modifierLabel; PointerLeave] = []
    ∧ emitted [PointerDown modifierLabel; PointerLeave; TimerExpire id] = []
    ∧ emitted [PointerDown modifierLabel; PointerLeave; PointerUp] = [].
Proof.
  intros s l Hl Hidle id emitted armed. subst emitted armed. simpl.
  unfold handlePointerUp, handlePointerLeave, timer_callback,
    cancel_press_timer. simpl.
  rewrite Hidle. simpl. fold id.
  rewrite !Pos.eqb_refl. simpl.
  rewrite !clearTimeout_single. simpl.
  rewrite (truthy_nonempty l Hl). simpl.
  by split_and!.
Qed.

Lemma gesture_tap_xor_long_press_witness :
  (gesture_run gesture_init [PointerDown "sus4"; PointerUp]).2
    = [TapSignal "sus4"]
  ∧ (gesture_run gesture_init
       [PointerDown "sus4"; TimerExpire 1; PointerUp]).2
    = [LongPressSignal "sus4"]
  ∧ (gesture_run gesture_init [PointerDown "sus4"; PointerLeave]).2 = [].
Proof.
  destruct (gesture_tap_xor_long_press gesture_init "sus4")
    as (_ & Htap & _ & _ & Hlong & _ & Hleave & _).
  - discriminate.
  - reflexivity.
  - split_and!; [exact Htap | exact Hlong | exact Hleave].
Defined.

Lemma no_reentrant_press_take s es n :
  no_reentrant_press s es → no_reentrant_press s (take n es).
Proof.
  revert s n. induction es as [|e es IH]; intros s n Hok.
  - by rewrite take_nil.
  - destruct n as [|n]; [done|]. destruct Hok as [He Hok].
    simpl. split; [done|]. by apply IH.
Qed.

(** C6 (counterexample): a second pointer-down while the first press is
    still armed is not ignored: two timeouts are outstanding, the recorded
    label is overwritten, and both timeouts later fire a long-press. *)
Lemma pointer_down_while_pressed_not_ignored :
  let s1 := (gesture_run gesture_init [PointerDown "7"]).1 in
  let s2 := (gesture_run gesture_init [PointerDown "7"; PointerDown "9"]).1 in
  pressed s1 = true
  ∧ currentModifierRef s1 = Some "7"
  ∧ currentModifierRef s2 = Some "9"
  ∧ length (pending s2) = 2%nat
  ∧ (gesture_run s2 [TimerExpire 1; TimerExpire 2]).2
    = [LongPressSignal "7"; LongPressSignal "9"].
Proof. vm_compute. by split_and!. Qed.

(** C6 (amended): [handlePointerDown] has no guard: in every state it arms
    a new timeout, stores its handle and records the new label.  At most
    one timeout is outstanding at any time provided no pointer-down arrives
    while a timeout is outstanding. *)
Theorem press_timer_at_most_one_without_reentry :
  ∀ (s : GestureState),
    (∀ modifierLabel,
       let s' := (handlePointerDown modifierLabel s).1 in
       pending s'
       = pending s ++ [mkTimer (nextTimerId s) LONG_PRESS_MS modifierLabel]
       ∧ pressTimerRef s' = Some (nextTimerId s)
       ∧ currentModifierRef s' = Some modifierLabel)
    ∧ (∀ (es : list GestureEvent) (n : nat),
         (length (pending s) ≤ 1)%nat →
         no_reentrant_press s es →
         (length (pending (gesture_run s (take n es)).1) ≤ 1)%nat).
Proof.
  intros s. split.
  - intros l. by split_and!.
  - intros es n Hlen Hok.
    by apply no_reentrant_press_bound, no_reentrant_press_take.
Qed.

Lemma press_timer_at_most_one_without_reentry_witness :
  let es := [PointerDown "7"; PointerUp; PointerDown "9"; TimerExpire 2;
             PointerLeave] in
  (length (pending (gesture_run gesture_init (take 3 es)).1) ≤ 1)%nat
  ∧ (length (pending (gesture_run gesture_init es).1) ≤ 1)%nat.
Proof.
  intros es.
  assert (Hok : no_reentrant_press gesture_init es)
    by (vm_compute; by split_and!).
  split.
  - apply (proj2 (press_timer_at_most_one_without_reentry gesture_init) es 3%nat);
      [simpl; lia | exact Hok].
  - apply (proj2 (press_timer_at_most_one_without_reentry gesture_init) es 5%nat);
      [simpl; lia | exact Hok].
Defined.

(** ** Progression playback *)

Lemma ids_update_callback id c q :
  interval_id <$> update_callback id c q = interval_id <$> q.
Proof.
  unfold update_callback. rewrite <- list_fmap_compose.
  apply list_fmap_ext. intros _ t _. simpl.
  by destruct (Pos.eqb (interval_id t) id).
Qed.

Lemma clearInterval_only id q :
  interval_id <$> q = [id] → clearInterval id q = [].
Proof.
  destruct q as [|t [|t' q]]; intros [= Hid]; subst.
  unfold clearInterval. by rewrite filter_cons_False, filter_nil by tauto.
Qed.

(** Clearing the stored interval leaves no interval armed. *)
Lemma clear_interval_ref_armed s :
  interval_id <$> armed s = option_list (intervalRef s) →
  armed (clear_interval_ref s) = []
  ∧ intervalRef (clear_interval_ref s) = None.
Proof.
  unfold clear_interval_ref. destruct (intervalRef s) as [id|] eqn:Href; simpl.
  - intros Hids. split; [by apply clearInterval_only|done].
  - intros Hids. split; [by apply fmap_nil_inv in Hids|done].
Qed.

Lemma clear_interval_ref_fields s :
  chordProgression (clear_interval_ref s) = chordProgression s
  ∧ isPlaying (clear_interval_ref s) = isPlaying s
  ∧ currentBeat (clear_interval_ref s) = currentBeat s
  ∧ currentIndexRef (clear_interval_ref s) = currentIndexRef s.
Proof. unfold clear_interval_ref. by destruct (intervalRef s). Qed.

Lemma timeline_inv_stopped s :
  timeline_inv s → isPlaying s = false → armed s = [].
Proof.
  intros (Hids & Hstopped & _) Hp. destruct (Hstopped Hp) as [Href _].
  rewrite Href in Hids. by apply fmap_nil_inv in Hids.
Qed.

Lemma timeline_inv_clear s :
  timeline_inv s →
  timeline_inv (setPlaybackBeat 0 (setPlaybackPlaying false (clear_interval_ref s))).
Proof.
  intros (Hids & _ & Hidx).
  destruct (clear_interval_ref_armed s Hids) as [Harmed Href].
  destruct (clear_interval_ref_fields s) as (_ & _ & _ & Hci).
  split_and!; simpl.
  - by rewrite Harmed, Href.
  - done.
  - by rewrite Hci.
Qed.

Lemma timeline_inv_stop s : timeline_inv s → timeline_inv (stop s).
Proof.
  intros (Hids & _ & Hidx).
  destruct (clear_interval_ref_armed s Hids) as [Harmed Href].
  unfold stop. split_and!; simpl.
  - by rewrite Harmed, Href.
  - done.
  - done.
Qed.

Lemma timeline_inv_tick id s : timeline_inv s → timeline_inv (tick id s).1.
Proof.
  intros Hinv. unfold tick.
  destruct (find _ (armed s)) as [t|] eqn:Hfind; [|done].
  pose proof Hinv as (Hids & Hstopped & Hidx).
  assert (Hplaying : isPlaying s = true).
  { destruct (isPlaying s) eqn:Hp; [done|].
    apply timeline_inv_stopped in Hp; [|done]. by rewrite Hp in Hfind. }
  set (c := interval_callback t).
  assert (Hkeep : ∀ idx beats n,
    timeline_inv (setPlaybackBeat n (set_armed
      (update_callback id
         (mkTickClosure (tick_progression c) (tick_loop c) (tick_msPerBeat c)
            idx beats) (armed s)) s))).
  { intros idx beats n. split_and!; simpl.
    - by rewrite ids_update_callback.
    - by rewrite Hplaying.
    - done. }
  assert (Hkeep' : ∀ idx beats,
    timeline_inv (set_armed
      (update_callback id
         (mkTickClosure (tick_progression c) (tick_loop c) (tick_msPerBeat c)
            idx beats) (armed s)) s)).
  { intros idx beats. split_and!; simpl.
    - by rewrite ids_update_callback.
    - by rewrite Hplaying.
    - done. }
  unfold tick_callback.
  destruct (tick_progression c !! chordIndex c); [|apply Hkeep'].
  case_bool_decide; [|apply Hkeep'].
  case_bool_decide.
  - destruct (tick_loop c).
    + destruct (tick_progression c !! 0%nat); [apply Hkeep|apply Hkeep'].
    + apply timeline_inv_clear, Hkeep'.
  - destruct (tick_progression c !! S (chordIndex c)); [apply Hkeep|apply Hkeep'].
Qed.

Lemma timeline_inv_step s e : timeline_inv s → timeline_inv (timeline_step s e).1.
Proof.
  intros Hinv. pose proof Hinv as (Hids & Hstopped & Hidx).
  destruct e as [|id|id| | |c| |t]; simpl.
  - unfold handlePlayPause. destruct (isPlaying s) eqn:Hp; simpl.
    + by apply timeline_inv_stop.
    + unfold play. destruct (chordProgression s) as [|c0 cs]; [done|].
      pose proof (timeline_inv_stopped s Hinv Hp) as Harmed.
      split_and!; simpl; [|done|done]. by rewrite Harmed.
  - by apply timeline_inv_tick.
  - unfold handleRemoveChord, stop_if_playing.
    destruct (isPlaying s); [|done].
    by apply timeline_inv_clear.
  - unfold handleClearProgression, stop_if_playing.
    destruct (isPlaying s); [|done].
    by apply timeline_inv_clear.
  - unfold timeline_unmount.
    destruct (clear_interval_ref_armed s Hids) as [Harmed Href].
    destruct (clear_interval_ref_fields s) as (_ & Hp & Hb & Hci).
    split_and!.
    + by rewrite Harmed, Href.
    + rewrite Hp, Hb. intros Hs. split; [done|]. by apply Hstopped.
    + by rewrite Hci.
  - done.
  - done.
  - done.
Qed.

Lemma timeline_reachable_inv s : timeline_reachable s → timeline_inv s.
Proof.
  induction 1 as [p t l|s e _ IH]; [by split_and!|by apply timeline_inv_step].
Qed.

Lemma timeline_reachable_run s es :
  timeline_reachable s → timeline_reachable (timeline_run s es).1.
Proof.
  revert s. induction es as [|e es IH]; intros s Hs; [done|]. simpl.
  pose proof (timeline_reachable_step s e Hs) as Hs1.
  destruct (timeline_step s e) as [s1 out1].
  specialize (IH s1 Hs1). by destruct (timeline_run s1 es).
Qed.

(** With no interval armed, ticks do nothing. *)
Lemma ticks_without_interval s ids :
  armed s = [] → timeline_run s (Tick <$> ids) = (s, []).
Proof.
  intros Harmed. induction ids as [|id ids IH]; [done|].
  cbn [fmap list_fmap timeline_run timeline_step].
  unfold tick. rewrite Harmed. cbn [find]. by rewrite IH.
Qed.

Lemma stop_fixed s :
  timeline_inv s → isPlaying s = false → stop s = s.
Proof.
  intros (Hids & Hstopped & Hidx) Hp. destruct (Hstopped Hp) as [Href Hbeat].
  unfold stop, clear_interval_ref. rewrite Href.
  destruct s; simpl in *. by subst.
Qed.

(** C7: stopping a playing timeline (the stop branch of [handlePlayPause])
    triggers no playback, clears the armed interval, sets [isPlaying] to
    false and puts the playhead (beat and index ref) back to 0; afterwards
    no tick runs: any sequence of interval expiries leaves the state as it
    is and triggers no playback.  The unmount cleanup stops the ticks as
    well.  Stopping a stopped timeline changes nothing, neither through
    the stop steps themselves nor through the guarded stop of
    [handleRemoveChord] and [handleClearProgression]. *)
Theorem stop_cancels_and_resets :
  ∀ s : Scheduler,
    timeline_reachable s →
    (isPlaying s = true →
       let s' := (handlePlayPause s).1 in
       (handlePlayPause s).2 = []
       ∧ s' = stop s
       ∧ isPlaying s' = false
       ∧ currentBeat s' = 0
       ∧ currentIndexRef s' = 0%nat
       ∧ intervalRef s' = None
       ∧ armed s' = []
       ∧ ∀ ids, timeline_run s' (Tick <$> ids) = (s', []))
    ∧ (∀ ids, timeline_run (timeline_unmount s) (Tick <$> ids)
              = (timeline_unmount s, []))
    ∧ (isPlaying s = false → stop s = s ∧ stop_if_playing s = s)
    ∧ stop (stop s) = stop s.
Proof.
  intros s Hinv%timeline_reachable_inv.
  pose proof Hinv as (Hids & Hstopped & Hidx).
  destruct (clear_interval_ref_armed s Hids) as [Harmed Href].
  split_and!.
  - intros Hp s'. subst s'. unfold handlePlayPause. rewrite Hp. simpl.
    split_and!; try done.
    intros ids. by apply ticks_without_interval.
  - intros ids. by apply ticks_without_interval.
  - intros Hp. split; [by apply stop_fixed|].
    unfold stop_if_playing. by rewrite Hp.
  - apply stop_fixed; [by apply timeline_inv_stop|done].
Qed.

Lemma stop_cancels_and_resets_witness :
  let c1 := mkChord "a" "C" [0; 4; 7] "I" 2 in
  let c2 := mkChord "b" "G" [0; 4; 7] "V" 2 in
  let s := (timeline_run (timeline_init [c1; c2] 120 false)
                         [PlayPause; Tick 1]).1 in
  let s' := (handlePlayPause s).1 in
  isPlaying s = true
  ∧ isPlaying s' = false
  ∧ currentBeat s' = 0
  ∧ armed s' = []
  ∧ timeline_run s' [Tick 1; Tick 1; Tick 2] = (s', []).
Proof.
  intros c1 c2 s s'.
  assert (Hreach : timeline_reachable s)
    by apply timeline_reachable_run, timeline_reachable_init.
  assert (Hp : isPlaying s = true) by (vm_compute; reflexivity).
  destruct (proj1 (stop_cancels_and_resets s Hreach) Hp)
    as (_ & _ & Hp' & Hb & _ & _ & Harmed & Hticks).
  split_and!; [exact Hp | exact Hp' | exact Hb | exact Harmed |].
  exact (Hticks [1; 1; 2]%positive).
Defined.

Lemma msPerBeat_seconds (t : Z) :
  (0 < t)%Z → (msPerBeat_of t / 1000 == 60 / inject_Z t)%Q.
Proof.
  intros Ht. unfold msPerBeat_of.
  assert (Hnz : ¬ (inject_Z t == 0)%Q).
  { unfold Qeq. simpl. lia. }
  field. exact Hnz.
Qed.

(** C8: on a stopped timeline, starting playback of an empty progression
    changes nothing and triggers nothing; with a first entry it sets
    [isPlaying], puts the playhead (beat and index ref) at 0, triggers
    playback of entry 0 at once, and arms an interval whose period is
    [60000 / tempo] ms, that is 60 / BPM seconds per beat, with a callback
    that starts at entry 0; the interval stays armed after a tick unless
    that tick ended playback. *)
Theorem play_starts_playback :
  ∀ s : Scheduler,
    isPlaying s = false →
    (chordProgression s = [] → handlePlayPause s = (s, []))
    ∧ (∀ firstChord rest,
         chordProgression s = firstChord :: rest →
         (0 < tempo s)%Z →
         let s' := (handlePlayPause s).1 in
         let id := nextIntervalId s in
         let period := msPerBeat_of (tempo s) in
         isPlaying s' = true
         ∧ currentBeat s' = 0
         ∧ currentIndexRef s' = 0%nat
         ∧ (handlePlayPause s).2
           = [mkPlayChordCall (rootNote firstChord) (intervals firstChord) 4
                (inject_Z (duration firstChord) * (period / 1000))%Q]
         ∧ intervalRef s' = Some id
         ∧ armed s'
           = armed s ++ [mkIntervalTimer id period
                           (mkTickClosure (chordProgression s) (loop s)
                                          period 0 0)]
         ∧ (period / 1000 == 60 / inject_Z (tempo s))%Q
         ∧ (armed s = [] → isPlaying (tick id s').1 = true →
              interval_id <$> armed (tick id s').1 = [id])).
Proof.
  intros s Hp. split.
  - intros Hempty. unfold handlePlayPause, play. by rewrite Hp, Hempty.
  - intros firstChord rest Hprog Htempo s' id period. subst s'.
    unfold handlePlayPause, play. rewrite Hp, Hprog. simpl.
    split_and!; try done.
    + by apply msPerBeat_seconds.
    + intros Harmed. rewrite Harmed. simpl.
      unfold tick. simpl. fold id. rewrite Pos.eqb_refl.
      unfold tick_callback. simpl. rewrite Pos.eqb_refl.
      repeat (case_bool_decide || case_match); simpl; try done.
Qed.

Lemma play_starts_playback_witness :
  let c1 := mkChord "a" "C" [0; 4; 7] "I" 4 in
  let c2 := mkChord "b" "G" [0; 4; 7] "V" 4 in
  let s := timeline_init [c1; c2] 120 false in
  let s' := (handlePlayPause s).1 in
  handlePlayPause (timeline_init [] 120 false)
    = (timeline_init [] 120 false, [])
  ∧ isPlaying s' = true
  ∧ currentBeat s' = 0
  ∧ (handlePlayPause s).2
    = [mkPlayChordCall "C" [0; 4; 7] 4 (4 * (msPerBeat_of 120 / 1000))%Q]
  ∧ (msPerBeat_of 120 / 1000 == 60 / 120)%Q.
Proof.
  intros c1 c2 s s'. split.
  - apply (proj1 (play_starts_playback (timeline_init [] 120 false) eq_refl)).
    reflexivity.
  - destruct (proj2 (play_starts_playback s eq_refl) c1 [c2] eq_refl)
      as (Hp & Hb & _ & Hcall & _ & _ & Hperiod & _).
    + simpl. lia.
    + split_and!; [exact Hp | exact Hb | exact Hcall | exact Hperiod].
Defined.

(** * Further properties *)

(** ** [calculateIntervals]: content of the result *)

Section calculateIntervals_content.

Variable catalog : list (ChordModifier (list Z)).
Variable baseIntervals : list Z.
Hypothesis catalog_no_remove : no_remove_effect catalog.

Lemma find_modifier_elem_of {A} (cat : list (ChordModifier A)) l m :
  find_modifier cat l = Some m → m ∈ cat ∧ label m = l.
Proof.
  unfold find_modifier. intros [Hin Hl]%find_some. split.
  - by apply list_elem_of_In.
  - by apply String.eqb_eq.
Qed.

Lemma effect_on_set_no_remove (s : gset Z) m :
  m ∈ catalog →
  effect_on_set s m = s ∪ list_to_set (added_intervals id m).
Proof.
  intros Hm. unfold effect_on_set, added_intervals.
  destruct (catalog_no_remove m Hm) as [[ivs Hi]|[[i Hi]|Hr]].
  - by rewrite Hi.
  - rewrite Hi. destruct (intervalsToAdd m); [done|]. simpl.
    by rewrite union_empty_r_L.
  - rewrite Hr. destruct (intervalsToAdd m); [done|].
    destruct (intervalToAdd m); simpl.
    + by rewrite union_empty_r_L.
    + by rewrite union_empty_r_L.
Qed.

Lemma foldl_effect_on_set_no_remove (s : gset Z) ms :
  Forall (λ m, m ∈ catalog) ms →
  ∀ x, x ∈ foldl effect_on_set s ms
       ↔ x ∈ s ∨ ∃ m, m ∈ ms ∧ x ∈ added_intervals id m.
Proof.
  intros Hms. revert s. induction Hms as [|m ms Hm Hms IH]; intros s x; simpl.
  - split; [by left|]. intros [?|(m & Hin & _)]; [done|].
    by apply elem_of_nil in Hin.
  - rewrite IH, effect_on_set_no_remove by done.
    rewrite elem_of_union, elem_of_list_to_set. split.
    + intros [[?|?]|(m' & ? & ?)].
      * by left.
      * right. exists m. split; [left|done].
      * right. exists m'. split; [by right|done].
    + intros [?|(m' & [->|?]%elem_of_cons & ?)].
      * by left; left.
      * by left; right.
      * right. by exists m'.
Qed.

Lemma additive_entries_in_catalog modifiers :
  Forall (λ m, m ∈ catalog) (additive_entries catalog modifiers).
Proof.
  apply Forall_forall. intros m [_ Hm]%list_elem_of_filter.
  apply list_elem_of_omap in Hm as (l & _ & Hfind).
  by apply find_modifier_elem_of in Hfind as [? _].
Qed.

Lemma elem_of_additive_entries m modifiers :
  m ∈ additive_entries catalog modifiers
  ↔ ∃ l, l ∈ modifiers ∧ find_modifier catalog l = Some m
         ∧ replaceWith m = None.
Proof.
  unfold additive_entries, active_entries.
  rewrite list_elem_of_filter, list_elem_of_omap. split.
  - intros (Hr & l & Hl & Hfind). eauto.
  - intros (l & Hl & Hfind & Hr). eauto.
Qed.

(** With a catalog that has no remove effect, the result holds exactly the
    intervals of the effective base and the intervals of every active
    additive modifier. *)
Lemma calculateIntervals_elements_gen :
  ∀ (modifiers : JsSet.t) (x : Z),
    x ∈ calculateIntervals catalog baseIntervals modifiers
    ↔ x ∈ effective_base catalog baseIntervals modifiers
      ∨ ∃ l m, l ∈ modifiers
               ∧ find_modifier catalog l = Some m
               ∧ replaceWith m = None
               ∧ x ∈ added_intervals id m.
Proof.
  intros modifiers x.
  rewrite <- (elem_of_list_to_set (C:=gset Z)), calculateIntervals_set.
  unfold interval_set.
  rewrite foldl_effect_on_set_no_remove by apply additive_entries_in_catalog.
  rewrite elem_of_list_to_set. split.
  - intros [?|(m & (l & ? & ? & ?)%elem_of_additive_entries & ?)];
      [by left|right; eauto 10].
  - intros [?|(l & m & ? & ? & ? & ?)]; [by left|right].
    exists m. split; [|done]. apply elem_of_additive_entries. eauto.
Qed.

Lemma calculateIntervals_order_irrelevant_gen :
  ∀ (modifiers1 modifiers2 : JsSet.t),
    replacements_NoDup catalog →
    NoDup baseIntervals →
    modifiers1 ≡ₚ modifiers2 →
    effective_base catalog baseIntervals modifiers1
    = effective_base catalog baseIntervals modifiers2 →
    calculateIntervals catalog baseIntervals modifiers1
    = calculateIntervals catalog baseIntervals modifiers2.
Proof.
  intros ms1 ms2 Hcat Hbase Hperm Heff.
  apply Sorted_lt_unique; [by apply calculateIntervals_strict..|].
  intros x. rewrite !calculateIntervals_elements_gen, Heff.
  by setoid_rewrite Hperm.
Qed.

End calculateIntervals_content.

Lemma CHORD_MODIFIERS_no_remove : no_remove_effect CHORD_MODIFIERS.
Proof.
  assert (Hall : Forall (λ m, intervalToRemove m = None) CHORD_MODIFIERS)
    by (unfold CHORD_MODIFIERS; repeat constructor).
  intros m Hm. rewrite Forall_forall in Hall. right; right. by apply Hall.
Qed.

(** X1: for the catalog [CHORD_MODIFIERS] the result holds exactly the
    intervals of the effective base (the last active replacement, or the
    base) and the intervals of every active additive modifier: no interval
    of an active modifier is lost, none comes from elsewhere. *)
Theorem calculateIntervals_elements :
  ∀ (baseIntervals : list Z) (modifiers : JsSet.t) (x : Z),
    x ∈ calculateIntervals CHORD_MODIFIERS baseIntervals modifiers
    ↔ x ∈ effective_base CHORD_MODIFIERS baseIntervals modifiers
      ∨ ∃ l m, l ∈ modifiers
               ∧ find_modifier CHORD_MODIFIERS l = Some m
               ∧ replaceWith m = None
               ∧ x ∈ added_intervals id m.
Proof.
  intros. apply calculateIntervals_elements_gen, CHORD_MODIFIERS_no_remove.
Qed.

(** X2: the order in which modifiers were activated matters only through
    the replacement that comes last: two active sets with the same labels
    and the same effective base give the same result (for a duplicate-free
    base). *)
Theorem calculateIntervals_order_irrelevant :
  ∀ (baseIntervals : list Z) (modifiers1 modifiers2 : JsSet.t),
    NoDup baseIntervals →
    modifiers1 ≡ₚ modifiers2 →
    effective_base CHORD_MODIFIERS baseIntervals modifiers1
    = effective_base CHORD_MODIFIERS baseIntervals modifiers2 →
    calculateIntervals CHORD_MODIFIERS baseIntervals modifiers1
    = calculateIntervals CHORD_MODIFIERS baseIntervals modifiers2.
Proof.
  intros base ms1 ms2 Hbase Hperm Heff.
  apply calculateIntervals_order_irrelevant_gen;
    auto using CHORD_MODIFIERS_no_remove, CHORD_MODIFIERS_replacements_NoDup.
Qed.

Lemma calculateIntervals_order_irrelevant_witness :
  calculateIntervals CHORD_MODIFIERS [0; 4; 7] ["7"; "sus4"; "add9"]
  = calculateIntervals CHORD_MODIFIERS [0; 4; 7] ["add9"; "sus4"; "7"].
Proof.
  apply calculateIntervals_order_irrelevant.
  - apply (bool_decide_unpack _). vm_compute. exact I.
  - apply (bool_decide_unpack _). vm_compute. exact I.
  - vm_compute. reflexivity.
Defined.

Lemma CHORD_MODIFIERS_intervals_range m x :
  m ∈ CHORD_MODIFIERS →
  (x ∈ added_intervals id m ∨ (∃ r, replaceWith m = Some r ∧ x ∈ r)) →
  (0 ≤ x ≤ 21)%Z.
Proof.
  assert (Hall : Forall (λ m,
            Forall (λ x, 0 ≤ x ≤ 21)%Z (added_intervals id m)
            ∧ ∀ r, replaceWith m = Some r → Forall (λ x, 0 ≤ x ≤ 21)%Z r)
          CHORD_MODIFIERS).
  { unfold CHORD_MODIFIERS.
    repeat (apply Forall_cons; split;
            [split; [vm_compute; repeat constructor; discriminate
                    |intros r [= <-]; repeat constructor; vm_compute;
                     discriminate]
            |]).
    all: try apply Forall_nil; try done. }
  intros Hm Hx. rewrite Forall_forall in Hall. destruct (Hall m Hm) as [Ha Hr].
  destruct Hx as [Hx|(r & Heq & Hx)].
  - rewrite Forall_forall in Ha. by apply Ha.
  - specialize (Hr r Heq). rewrite Forall_forall in Hr. by apply Hr.
Qed.

(** X3: the result stays in the range of the base: if every base interval
    lies in [lo, hi] with [lo ≤ 0] and [21 ≤ hi] (0 to 23 for the chords of
    a scale), so does every interval of the result. *)
Theorem calculateIntervals_range :
  ∀ (baseIntervals : list Z) (modifiers : JsSet.t) (lo hi : Z),
    (lo ≤ 0)%Z → (21 ≤ hi)%Z →
    Forall (λ x, lo ≤ x ≤ hi)%Z baseIntervals →
    Forall (λ x, lo ≤ x ≤ hi)%Z
           (calculateIntervals CHORD_MODIFIERS baseIntervals modifiers).
Proof.
  intros base mods lo hi Hlo Hhi Hbase. apply Forall_forall. intros x Hx.
  apply (calculateIntervals_elements_gen _ _ CHORD_MODIFIERS_no_remove) in Hx
    as [Hx|(l & m & Hl & Hfind & _ & Hx)].
  - unfold effective_base in Hx.
    destruct (last _) as [r|] eqn:Hlast; simpl in Hx.
    + apply last_Some_elem_of in Hlast.
      apply list_elem_of_omap in Hlast as (m & Hm & Hr).
      apply list_elem_of_omap in Hm as (l & _ & Hfind).
      apply find_modifier_elem_of in Hfind as [Hin _].
      assert (0 ≤ x ≤ 21)%Z; [|lia].
      apply (CHORD_MODIFIERS_intervals_range m x Hin). right. eauto.
    + rewrite Forall_forall in Hbase. by apply Hbase.
  - apply find_modifier_elem_of in Hfind as [Hin _].
    assert (0 ≤ x ≤ 21)%Z; [|lia].
    apply (CHORD_MODIFIERS_intervals_range m x Hin). by left.
Qed.

Lemma calculateIntervals_range_witness :
  Forall (λ x, 0 ≤ x ≤ 23)%Z
         (calculateIntervals CHORD_MODIFIERS [0; 3; 7; 10] ["13"; "sus2"]).
Proof.
  apply calculateIntervals_range; [lia | lia |].
  repeat constructor; lia.
Defined.

(** ** The catalog and the category table *)

(** Every label is one of the twelve of the catalog, or unknown to the
    catalog and to the category table alike. *)
Lemma label_cases l :
  l ∈ MODIFIER_LABELS
  ∨ (find_modifier CHORD_MODIFIERS l = None
     ∧ MODIFIER_CATEGORIES !! l = None).
Proof.
  destruct (decide (l ∈ MODIFIER_LABELS)) as [Hin|Hnin]; [by left|right].
  split.
  - unfold find_modifier. destruct (find _ _) as [m|] eqn:Hfind; [|done].
    apply find_some in Hfind as [Hm Hl]. apply String.eqb_eq in Hl.
    destruct Hnin. rewrite <- Hl. apply list_elem_of_fmap. exists m.
    split; [done|]. by apply list_elem_of_In.
  - apply not_elem_of_list_to_map_1. intros Hin. apply Hnin.
    revert Hin. unfold MODIFIER_LABELS, CHORD_MODIFIERS. simpl.
    rewrite !elem_of_cons, !elem_of_nil. tauto.
Qed.

Lemma is_replace_label_category l :
  is_replace_label CHORD_MODIFIERS l
  ↔ MODIFIER_CATEGORIES !! l = Some suspension
    ∨ MODIFIER_CATEGORIES !! l = Some quality.
Proof.
  destruct (label_cases l) as [Hin|[Hfind Hcat]].
  - unfold MODIFIER_LABELS, CHORD_MODIFIERS in Hin. simpl in Hin.
    repeat (apply elem_of_cons in Hin as [->|Hin];
            [apply (bool_decide_unpack _); vm_compute; exact I|]).
    by apply elem_of_nil in Hin.
  - unfold is_replace_label. rewrite Hfind, Hcat.
    split; [intros (? & [=] & _)|intros [[=]|[=]]].
Qed.

(** X4: the catalog and the category table are about the same labels:
    a label has a catalog entry exactly when it has a category, and its
    entry has a replace effect exactly when its category is [suspension] or
    [quality]. *)
Theorem catalog_categories_consistent :
  ∀ l : string,
    (is_Some (find_modifier CHORD_MODIFIERS l)
     ↔ is_Some (MODIFIER_CATEGORIES !! l))
    ∧ (is_replace_label CHORD_MODIFIERS l
       ↔ MODIFIER_CATEGORIES !! l = Some suspension
         ∨ MODIFIER_CATEGORIES !! l = Some quality).
Proof.
  intros l. destruct (label_cases l) as [Hin|[Hfind Hcat]].
  - unfold MODIFIER_LABELS, CHORD_MODIFIERS in Hin. simpl in Hin.
    repeat (apply elem_of_cons in Hin as [->|Hin];
            [apply (bool_decide_unpack _); vm_compute; exact I|]).
    by apply elem_of_nil in Hin.
  - unfold is_replace_label. rewrite Hfind, Hcat. split.
    + split; intros [? [=]].
    + split; [intros (? & [=] & _)|intros [[=]|[=]]].
Qed.

(** Two different replace-effect labels evict each other. *)
Lemma replace_labels_mutual x y :
  is_replace_label CHORD_MODIFIERS x → is_replace_label CHORD_MODIFIERS y →
  listed_under x y ∧ listed_under y x.
Proof.
  intros Hx%is_replace_label_category Hy%is_replace_label_category.
  split.
  - destruct Hx as [Hx|Hx], Hy as [Hy|Hy];
      eexists _, _; (split_and!; [exact Hx|exact Hy|]);
      apply (bool_decide_unpack _); vm_compute; exact I.
  - destruct Hx as [Hx|Hx], Hy as [Hy|Hy];
      eexists _, _; (split_and!; [exact Hy|exact Hx|]);
      apply (bool_decide_unpack _); vm_compute; exact I.
Qed.

(** ** The card state machine: locking *)

Lemma filter_all {A} (P : A → Prop) `{!∀ x, Decision (P x)} (l : list A) :
  (∀ x, x ∈ l → P x) → filter P l = l.
Proof.
  induction l as [|a l IH]; intros Hall; [done|].
  rewrite filter_cons_True by (apply Hall; left).
  f_equal. apply IH. intros x Hx. apply Hall. by right.
Qed.

Lemma filter_ext_elem_of {A} (P Q : A → Prop)
    `{!∀ x, Decision (P x), !∀ x, Decision (Q x)} (l : list A) :
  (∀ x, x ∈ l → P x ↔ Q x) → filter P l = filter Q l.
Proof.
  induction l as [|a l IH]; intros Hext; [done|].
  rewrite !filter_cons.
  rewrite IH by (intros x Hx; apply Hext; by right).
  apply decide_ext, Hext. left.
Qed.

Section ChordCard_locking.

Variable baseIntervals : list Z.

Import JsSet JsSetFacts.

Lemma handleLongPress_locked_unlock l st :
  l ∈ lockedModifiers st →
  lockedModifiers (handleLongPress baseIntervals l st).1
  = filter (λ y, y ≠ l) (lockedModifiers st).
Proof.
  intros Hin%has_true. unfold handleLongPress. simpl. by rewrite Hin.
Qed.

Lemma handleLongPress_locked_lock l st :
  l ∉ lockedModifiers st →
  lockedModifiers (handleLongPress baseIntervals l st).1
  = filter (λ y, ¬ listed_under l y) (lockedModifiers st) ++ [l].
Proof.
  intros Hnin. pose proof Hnin as Hhas%has_false.
  unfold handleLongPress. simpl. rewrite Hhas.
  rewrite delete_all_filter.
  assert (Heq : filter (λ y, y ∉ getConflictingModifiers l (lockedModifiers st))
                       (lockedModifiers st)
                = filter (λ y, ¬ listed_under l y) (lockedModifiers st)).
  { apply filter_ext_elem_of. intros y Hy.
    rewrite getConflictingModifiers_filter, list_elem_of_filter. tauto. }
  rewrite Heq. unfold add.
  destruct (has l (filter _ _)) eqn:Hh; [|done].
  apply has_true in Hh. apply list_elem_of_filter in Hh as [_ Hh]. done.
Qed.

(** X5: in every reachable state at most one locked modifier has a replace
    effect. *)
Theorem one_replacement_locked :
  ∀ (st : ModifierState) (x y : string),
    reachable baseIntervals st →
    x ∈ lockedModifiers st → y ∈ lockedModifiers st →
    is_replace_label CHORD_MODIFIERS x →
    is_replace_label CHORD_MODIFIERS y →
    x = y.
Proof.
  intros st x y Hreach Hx Hy Hrx Hry.
  destruct (decide (x = y)) as [|Hne]; [done|]. exfalso.
  apply (reachable_no_mutual_conflict baseIntervals st x y); try done.
  by apply replace_labels_mutual.
Qed.

(** X6: long-pressing an unlocked label locks it last and evicts exactly
    the locked labels whose category is listed under its category, the
    others stay in order; long-pressing a locked label removes that label
    and nothing else. *)
Theorem handleLongPress_locked :
  ∀ (st : ModifierState) (l : string),
    (l ∉ lockedModifiers st →
       lockedModifiers (handleLongPress baseIntervals l st).1
       = filter (λ y, ¬ listed_under l y) (lockedModifiers st) ++ [l])
    ∧ (l ∈ lockedModifiers st →
       lockedModifiers (handleLongPress baseIntervals l st).1
       = filter (λ y, y ≠ l) (lockedModifiers st)).
Proof.
  intros st l. split.
  - apply handleLongPress_locked_lock.
  - apply handleLongPress_locked_unlock.
Qed.

(** X7: locking a label and unlocking it again does not bring back what
    the lock evicted: after two long-presses on an unlocked label the
    locked set is the old one without the labels listed under it (the old
    one when nothing conflicts), and each long-press plays once. *)
Theorem lock_then_unlock :
  ∀ (st : ModifierState) (l : string),
    l ∉ lockedModifiers st →
    let run := card_run baseIntervals st [LongPress l; LongPress l] in
    lockedModifiers run.1
    = filter (λ y, ¬ listed_under l y) (lockedModifiers st)
    ∧ length run.2 = 2%nat
    ∧ (getConflictingModifiers l (lockedModifiers st) = [] →
       lockedModifiers run.1 = lockedModifiers st).
Proof.
  intros st l Hnin run. subst run. cbn [card_run card_step].
  destruct (handleLongPress baseIntervals l st) as [st1 out1] eqn:H1.
  pose proof (handleLongPress_locked_lock l st Hnin) as Hl1.
  rewrite H1 in Hl1. simpl in Hl1.
  assert (Hin1 : l ∈ lockedModifiers st1).
  { rewrite Hl1. apply elem_of_app. right. left. }
  destruct (handleLongPress baseIntervals l st1) as [st2 out2] eqn:H2.
  pose proof (handleLongPress_locked_unlock l st1 Hin1) as Hl2.
  rewrite H2 in Hl2. simpl in Hl2. simpl.
  assert (Hres : lockedModifiers st2
                 = filter (λ y, ¬ listed_under l y) (lockedModifiers st)).
  { rewrite Hl2, Hl1, filter_app.
    rewrite (filter_cons_False _ l) by (intros H; by apply H).
    rewrite filter_nil, app_nil_r.
    apply filter_all. intros y Hy Heq. subst y.
    apply list_elem_of_filter in Hy as [_ Hy]. exact (Hnin Hy). }
  assert (Hlen : length (out1 ++ out2 ++ []) = 2%nat).
  { unfold handleLongPress in H1, H2. simplify_eq. done. }
  split_and!; [done|done|].
  intros Hnone. rewrite Hres.
  rewrite getConflictingModifiers_filter in Hnone.
  clear -Hnone. induction (lockedModifiers st) as [|y ys IH]; [done|].
  rewrite filter_cons in Hnone. destruct (decide (listed_under l y)); [done|].
  rewrite filter_cons_True by done. f_equal. by apply IH.
Qed.

(** X8: a tap on a label that is neither locked nor transient, followed by
    a second tap on it, leaves no transient modifier and the locked set as
    it was; the first tap plays the locked combination plus the label, the
    second the locked combination alone. *)
Theorem tap_twice :
  ∀ (st : ModifierState) (l : string),
    tempModifier st ≠ Some l →
    l ∉ lockedModifiers st →
    let calc := calculateIntervals CHORD_MODIFIERS baseIntervals in
    card_run baseIntervals st [Tap l; Tap l]
    = (mkModifierState (lockedModifiers st) None (calc (lockedModifiers st)),
       [calc (add l (lockedModifiers st)); calc (lockedModifiers st)]).
Proof.
  intros st l Htemp Hnin calc. subst calc. cbn [card_run card_step].
  unfold handleTap at 1. rewrite bool_decide_false by done.
  apply has_false in Hnin. rewrite Hnin.
  unfold handleTap. simpl. by rewrite bool_decide_true.
Qed.

(** X9: tapping a label and then long-pressing it turns the transient
    modifier into a locked one: the label is locked and no transient
    modifier is left. *)
Theorem tap_then_long_press :
  ∀ (st : ModifierState) (l : string),
    l ≠ "" →
    tempModifier st ≠ Some l →
    l ∉ lockedModifiers st →
    let st' := (card_run baseIntervals st [Tap l; LongPress l]).1 in
    l ∈ lockedModifiers st' ∧ tempModifier st' = None.
Proof.
  intros st l Hl Htemp Hnin st'. subst st'. cbn [card_run card_step].
  unfold handleTap. rewrite bool_decide_false by done.
  pose proof Hnin as Hhas%has_false. rewrite Hhas.
  set (st1 := mkModifierState _ (Some l) _).
  pose proof (handleLongPress_locked_lock l st1 Hnin) as Hlock.
  destruct (handleLongPress baseIntervals l st1) as [st2 out2] eqn:H2.
  simpl in *. split.
  - rewrite Hlock. apply elem_of_app. right. left.
  - unfold handleLongPress in H2. simpl in H2. rewrite Hhas in H2.
    rewrite truthy_nonempty in H2 by done.
    match type of H2 with
    | context [has l ?s] => assert (Hh : has l s = true)
    end.
    { apply has_true, elem_of_add. by left. }
    rewrite Hh in H2. by simplify_eq.
Qed.

End ChordCard_locking.

(** ** Lock order *)

Lemma replacements_nil catalog (ms : list string) :
  (∀ x, x ∈ ms → ¬ is_replace_label catalog x) →
  omap replaceWith (active_entries catalog ms) = [].
Proof.
  unfold active_entries. induction ms as [|l ms IH]; intros Hno; [done|].
  cbn [omap list_omap].
  assert (IH' : omap replaceWith (omap (find_modifier catalog) ms) = [])
    by (apply IH; intros x Hx; apply Hno; by right).
  destruct (find_modifier catalog l) as [m|] eqn:Hfind; [|done].
  cbn [omap list_omap]. destruct (replaceWith m) as [r|] eqn:Hr; [|done].
  destruct (Hno l); [left|]. exists m. split; [done|]. rewrite Hr. eauto.
Qed.

Lemma replacements_at_most_one catalog (ms : list string) :
  NoDup ms →
  (∀ x y, x ∈ ms → y ∈ ms →
          is_replace_label catalog x → is_replace_label catalog y → x = y) →
  (length (omap replaceWith (active_entries catalog ms)) ≤ 1)%nat.
Proof.
  unfold active_entries. induction ms as [|l ms IH]; intros Hnd Hone.
  - simpl. lia.
  - apply NoDup_cons in Hnd as [Hl Hnd]. cbn [omap list_omap].
    assert (IH' : (length (omap replaceWith
                     (omap (find_modifier catalog) ms)) ≤ 1)%nat).
    { apply IH; [done|]. intros x y Hx Hy. apply Hone; by right. }
    destruct (find_modifier catalog l) as [m|] eqn:Hfind; [|done].
    cbn [omap list_omap]. destruct (replaceWith m) as [r|] eqn:Hr; [|done].
    assert (Hrl : is_replace_label catalog l).
    { exists m. split; [done|]. rewrite Hr. eauto. }
    pose proof (replacements_nil catalog ms) as Hnil.
    unfold active_entries in Hnil. rewrite Hnil; [simpl; lia|].
    intros x Hx Hrx. apply Hl.
    rewrite <- (Hone x l); [done|by right|left|done|done].
Qed.

Lemma effective_base_Permutation catalog base (ms1 ms2 : list string) :
  NoDup ms1 → ms1 ≡ₚ ms2 →
  (∀ x y, x ∈ ms1 → y ∈ ms1 →
          is_replace_label catalog x → is_replace_label catalog y → x = y) →
  effective_base catalog base ms1 = effective_base catalog base ms2.
Proof.
  intros Hnd Hperm Hone. unfold effective_base. f_equal. f_equal.
  pose proof (replacements_at_most_one catalog ms1 Hnd Hone) as Hlen.
  assert (Hp : omap replaceWith (active_entries catalog ms1)
               ≡ₚ omap replaceWith (active_entries catalog ms2)).
  { unfold active_entries. by rewrite Hperm. }
  destruct (omap replaceWith (active_entries catalog ms1)) as [|r [|r' rs]].
  - by apply Permutation_nil_l in Hp.
  - by apply Permutation_singleton_l in Hp.
  - simpl in Hlen. lia.
Qed.

(** X10: the chord of the locked modifiers does not depend on the order in
    which they were locked: in a reachable state, [calculateIntervals]
    gives the same result on any reordering of the locked set (for a
    duplicate-free base). *)
Theorem locked_order_irrelevant :
  ∀ (baseIntervals : list Z) (st : ModifierState) (locked' : JsSet.t),
    NoDup baseIntervals →
    reachable baseIntervals st →
    locked' ≡ₚ lockedModifiers st →
    calculateIntervals CHORD_MODIFIERS baseIntervals locked'
    = calculateIntervals CHORD_MODIFIERS baseIntervals (lockedModifiers st).
Proof.
  intros base st locked' Hbase Hreach Hperm.
  pose proof (reachable_inv base st Hreach) as (Hnd & _).
  symmetry.
  apply calculateIntervals_order_irrelevant_gen;
    [apply CHORD_MODIFIERS_no_remove
    |apply CHORD_MODIFIERS_replacements_NoDup
    |done|done|].
  apply effective_base_Permutation; [done..|].
  intros x y Hx Hy Hrx Hry.
  destruct (decide (x = y)) as [|Hne]; [done|]. exfalso.
  apply (reachable_no_mutual_conflict base st x y); try done.
  by apply replace_labels_mutual.
Qed.

Lemma reachable_run baseIntervals st es :
  reachable baseIntervals st → Forall (event_ok) es →
  reachable baseIntervals (card_run baseIntervals st es).1.
Proof.
  revert st. induction es as [|e es IH]; intros st Hst Hes; [done|].
  apply Forall_cons in Hes as [He Hes]. cbn [card_run].
  pose proof (reachable_step baseIntervals st e Hst He) as Hst1.
  destruct (card_step baseIntervals st e) as [st1 out1].
  specialize (IH st1 Hst1 Hes).
  by destruct (card_run baseIntervals st1 es).
Qed.

Lemma one_replacement_locked_witness :
  let st := (card_run [0; 4; 7] (initialState [0; 4; 7])
                      [LongPress "sus2"; LongPress "7"; LongPress "dim"]).1 in
  lockedModifiers st = ["7"; "dim"] ∧ "dim" = "dim".
Proof.
  intros st.
  assert (Hlocked : lockedModifiers st = ["7"; "dim"])
    by (vm_compute; reflexivity).
  split; [done|].
  apply (one_replacement_locked [0; 4; 7] st "dim" "dim").
  - apply reachable_run; [apply reachable_init|]. by repeat constructor.
  - rewrite Hlocked. right. left.
  - rewrite Hlocked. right. left.
  - apply (bool_decide_unpack _). vm_compute. exact I.
  - apply (bool_decide_unpack _). vm_compute. exact I.
Defined.

Lemma handleLongPress_locked_witness :
  let st := mkModifierState ["7"; "sus2"; "add9"] None [0; 2; 7; 10; 14] in
  lockedModifiers (handleLongPress [0; 4; 7] "9" st).1 = ["sus2"; "9"]
  ∧ lockedModifiers (handleLongPress [0; 4; 7] "sus2" st).1 = ["7"; "add9"].
Proof.
  intros st. split.
  - rewrite (proj1 (handleLongPress_locked [0; 4; 7] st "9")).
    + vm_compute. reflexivity.
    + simpl. rewrite !elem_of_cons, elem_of_nil. intros [H|[H|[H|[]]]]; discriminate H.
  - rewrite (proj2 (handleLongPress_locked [0; 4; 7] st "sus2")).
    + vm_compute. reflexivity.
    + simpl. right. left.
Defined.

Lemma lock_then_unlock_witness :
  let st := mkModifierState ["7"; "sus2"] None [0; 2; 7; 10] in
  lockedModifiers
    (card_run [0; 4; 7] st [LongPress "9"; LongPress "9"]).1 = ["sus2"].
Proof.
  intros st.
  assert (Hnin : "9" ∉ lockedModifiers st).
  { simpl. rewrite !elem_of_cons, elem_of_nil. intros [H|[H|[]]]; discriminate H. }
  rewrite (proj1 (lock_then_unlock [0; 4; 7] st "9" Hnin)).
  vm_compute. reflexivity.
Defined.

Lemma tap_twice_witness :
  let st := mkModifierState ["7"] None [0; 4; 7; 10] in
  card_run [0; 4; 7] st [Tap "sus4"; Tap "sus4"]
  = (st, [[0; 5; 7; 10]; [0; 4; 7; 10]]).
Proof.
  intros st. rewrite (tap_twice [0; 4; 7] st "sus4").
  - vm_compute. reflexivity.
  - discriminate.
  - simpl. rewrite !elem_of_cons, elem_of_nil. intros [H|[]]; discriminate H.
Defined.

Lemma tap_then_long_press_witness :
  let st := (card_run [0; 4; 7] (mkModifierState ["7"] None [0; 4; 7; 10])
                      [Tap "sus4"; LongPress "sus4"]).1 in
  "sus4" ∈ lockedModifiers st ∧ tempModifier st = None.
Proof.
  apply (tap_then_long_press [0; 4; 7] (mkModifierState ["7"] None [0; 4; 7; 10])).
  - discriminate.
  - discriminate.
  - simpl. rewrite !elem_of_cons, elem_of_nil. intros [H|[]]; discriminate H.
Defined.

Lemma locked_order_irrelevant_witness :
  let st := (card_run [0; 4; 7] (initialState [0; 4; 7])
                      [LongPress "sus4"; LongPress "7"; LongPress "add9"]).1 in
  calculateIntervals CHORD_MODIFIERS [0; 4; 7] ["add9"; "7"; "sus4"]
  = calculateIntervals CHORD_MODIFIERS [0; 4; 7] (lockedModifiers st).
Proof.
  intros st. apply locked_order_irrelevant.
  - apply (bool_decide_unpack _). vm_compute. exact I.
  - apply reachable_run; [apply reachable_init|]. by repeat constructor.
  - assert (Hlocked : lockedModifiers st = ["sus4"; "7"; "add9"])
      by (vm_compute; reflexivity).
    rewrite Hlocked. apply (bool_decide_unpack _). vm_compute. exact I.
Defined.

(** ** Progression playback: a whole run *)

Lemma timeline_run_app s es1 es2 :
  timeline_run s (es1 ++ es2)
  = ((timeline_run (timeline_run s es1).1 es2).1,
     (timeline_run s es1).2 ++ (timeline_run (timeline_run s es1).1 es2).2).
Proof.
  revert s. induction es1 as [|e es1 IH]; intros s; simpl.
  - by destruct (timeline_run s es2).
  - destruct (timeline_step s e) as [s1 out1]. rewrite IH.
    destruct (timeline_run s1 es1) as [s2 out2]. simpl.
    by rewrite app_assoc.
Qed.

Lemma ticks_add id n m : ticks id (n + m) = ticks id n ++ ticks id m.
Proof. unfold ticks. apply replicate_add. Qed.

Section playback_run.

Variable s0 : Scheduler.
Variable id : positive.
Variable c0 : TickClosure.

Let prog := tick_progression c0.
Let ms := tick_msPerBeat c0.

Lemma tick_playing_at idx beats beat :
  tick id (playing_at s0 id (at_position c0 idx beats) beat)
  = tick_callback id (at_position c0 idx beats)
      (playing_at s0 id (at_position c0 idx beats) beat).
Proof. unfold tick. simpl. by rewrite Pos.eqb_refl. Qed.

(** A tick inside an entry only counts. *)
Lemma tick_within idx beats beat c :
  prog !! idx = Some c → (beats + 1 < duration c)%Z →
  tick id (playing_at s0 id (at_position c0 idx beats) beat)
  = (playing_at s0 id (at_position c0 idx (beats + 1)) beat, []).
Proof.
  intros Hc Hlt. rewrite tick_playing_at. unfold tick_callback. simpl.
  fold prog. rewrite Hc. rewrite bool_decide_false by lia.
  unfold playing_at, set_armed, update_callback. simpl.
  by rewrite Pos.eqb_refl.
Qed.

(** The tick that completes an entry moves to the next one, plays it and
    reports its index. *)
Lemma tick_advance idx beats beat c c' :
  prog !! idx = Some c → (duration c ≤ beats + 1)%Z →
  prog !! S idx = Some c' →
  tick id (playing_at s0 id (at_position c0 idx beats) beat)
  = (playing_at s0 id (at_position c0 (S idx) 0) (Z.of_nat (S idx)),
     [play_call c' ms]).
Proof.
  intros Hc Hge Hc'. rewrite tick_playing_at. unfold tick_callback.
  cbn [at_position tick_progression chordIndex beatCount tick_loop
       tick_msPerBeat]. fold prog ms.
  rewrite Hc. rewrite bool_decide_true by lia.
  apply lookup_lt_Some in Hc' as Hlt.
  rewrite bool_decide_false by lia. rewrite Hc'.
  unfold playing_at, set_armed, update_callback, setPlaybackBeat. simpl.
  by rewrite Pos.eqb_refl.
Qed.

(** The tick that completes the last entry of a non-looping run stops the
    playback. *)
Lemma tick_end idx beats beat c :
  prog !! idx = Some c → (duration c ≤ beats + 1)%Z →
  (length prog ≤ S idx)%nat → tick_loop c0 = false →
  tick id (playing_at s0 id (at_position c0 idx beats) beat)
  = (stopped_from s0, []).
Proof.
  intros Hc Hge Hlen Hloop. rewrite tick_playing_at. unfold tick_callback.
  cbn [at_position tick_progression chordIndex beatCount tick_loop
       tick_msPerBeat]. fold prog ms.
  rewrite Hc. rewrite bool_decide_true by lia.
  rewrite bool_decide_true by lia. rewrite Hloop.
  unfold playing_at, stopped_from, set_armed, update_callback,
    setPlaybackBeat, setPlaybackPlaying, clear_interval_ref, set_refs,
    clearInterval. simpl.
  rewrite Pos.eqb_refl. simpl.
  by rewrite filter_cons_False, filter_nil by (simpl; tauto).
Qed.

(** The tick that completes the last entry of a looping run starts over
    with entry 0. *)
Lemma tick_wrap idx beats beat c first :
  prog !! idx = Some c → (duration c ≤ beats + 1)%Z →
  (length prog ≤ S idx)%nat → tick_loop c0 = true →
  prog !! 0%nat = Some first →
  tick id (playing_at s0 id (at_position c0 idx beats) beat)
  = (playing_at s0 id (at_position c0 0 0) 0, [play_call first ms]).
Proof.
  intros Hc Hge Hlen Hloop Hfirst. rewrite tick_playing_at.
  unfold tick_callback.
  cbn [at_position tick_progression chordIndex beatCount tick_loop
       tick_msPerBeat]. fold prog ms.
  rewrite Hc. rewrite bool_decide_true by lia.
  rewrite bool_decide_true by lia. rewrite Hloop, Hfirst.
  unfold playing_at, set_armed, update_callback, setPlaybackBeat. simpl.
  rewrite Pos.eqb_refl. unfold at_position. by rewrite Hloop.
Qed.

(** [k] ticks inside an entry. *)
Lemma ticks_within idx beats beat c k :
  prog !! idx = Some c → (0 ≤ beats)%Z →
  (beats + Z.of_nat k < Z.max 1 (duration c))%Z →
  timeline_run (playing_at s0 id (at_position c0 idx beats) beat) (ticks id k)
  = (playing_at s0 id (at_position c0 idx (beats + Z.of_nat k)) beat, []).
Proof.
  intros Hc. revert beats. induction k as [|k IH]; intros beats H0 Hlt.
  - simpl. by rewrite Z.add_0_r.
  - cbn [ticks replicate timeline_run timeline_step].
    rewrite (tick_within idx beats beat c Hc) by lia.
    fold (ticks id k). rewrite IH by lia. simpl.
    do 3 f_equal. lia.
Qed.

Lemma entry_ticks_pos c : entry_ticks c = S (entry_ticks c - 1).
Proof. unfold entry_ticks. lia. Qed.

Lemma entry_ticks_duration c :
  (duration c ≤ Z.of_nat (entry_ticks c - 1) + 1)%Z
  ∧ (Z.of_nat (entry_ticks c - 1) < Z.max 1 (duration c))%Z.
Proof. unfold entry_ticks. lia. Qed.

(** The ticks of one entry, up to the one before its last. *)
Lemma entry_body idx beat c :
  prog !! idx = Some c →
  timeline_run (playing_at s0 id (at_position c0 idx 0) beat)
    (ticks id (entry_ticks c - 1))
  = (playing_at s0 id
       (at_position c0 idx (Z.of_nat (entry_ticks c - 1))) beat, []).
Proof.
  intros Hc. pose proof (entry_ticks_duration c) as [_ Hlt].
  by rewrite (ticks_within idx 0 beat c _ Hc) by lia.
Qed.

Lemma entry_split c :
  ticks id (entry_ticks c) = ticks id (entry_ticks c - 1) ++ [Tick id].
Proof.
  rewrite (entry_ticks_pos c) at 1.
  replace (S (entry_ticks c - 1)) with (entry_ticks c - 1 + 1)%nat by lia.
  by rewrite ticks_add.
Qed.

Lemma entry_then_advance idx beat c c' :
  prog !! idx = Some c → prog !! S idx = Some c' →
  timeline_run (playing_at s0 id (at_position c0 idx 0) beat)
    (ticks id (entry_ticks c))
  = (playing_at s0 id (at_position c0 (S idx) 0) (Z.of_nat (S idx)),
     [play_call c' ms]).
Proof.
  intros Hc Hc'. pose proof (entry_ticks_duration c) as [Hge _].
  rewrite entry_split, timeline_run_app, (entry_body idx beat c Hc).
  cbn [fst snd timeline_run timeline_step].
  by rewrite (tick_advance idx _ beat c c' Hc Hge Hc').
Qed.

Lemma entry_then_end idx beat c :
  prog !! idx = Some c → (length prog ≤ S idx)%nat → tick_loop c0 = false →
  timeline_run (playing_at s0 id (at_position c0 idx 0) beat)
    (ticks id (entry_ticks c))
  = (stopped_from s0, []).
Proof.
  intros Hc Hlen Hloop. pose proof (entry_ticks_duration c) as [Hge _].
  rewrite entry_split, timeline_run_app, (entry_body idx beat c Hc).
  cbn [fst snd timeline_run timeline_step].
  by rewrite (tick_end idx _ beat c Hc Hge Hlen Hloop).
Qed.

Lemma entry_then_wrap idx beat c first :
  prog !! idx = Some c → (length prog ≤ S idx)%nat → tick_loop c0 = true →
  prog !! 0%nat = Some first →
  timeline_run (playing_at s0 id (at_position c0 idx 0) beat)
    (ticks id (entry_ticks c))
  = (playing_at s0 id (at_position c0 0 0) 0, [play_call first ms]).
Proof.
  intros Hc Hlen Hloop Hfirst. pose proof (entry_ticks_duration c) as [Hge _].
  rewrite entry_split, timeline_run_app, (entry_body idx beat c Hc).
  cbn [fst snd timeline_run timeline_step].
  by rewrite (tick_wrap idx _ beat c first Hc Hge Hlen Hloop Hfirst).
Qed.

Lemma drop_cons_inv idx (c : ChordInProgression) rest :
  drop idx prog = c :: rest →
  prog !! idx = Some c ∧ drop (S idx) prog = rest
  ∧ length prog = (idx + S (length rest))%nat.
Proof.
  intros Hd.
  assert (prog !! idx = Some c) as Hc.
  { pose proof (lookup_drop prog idx 0) as H. rewrite Hd in H. simpl in H.
    by rewrite Nat.add_0_r in H. }
  split; [done|]. split.
  - rewrite (drop_S _ _ _ Hc) in Hd. by injection Hd.
  - pose proof (length_drop prog idx) as H. rewrite Hd in H. simpl in H.
    apply lookup_lt_Some in Hc. lia.
Qed.

Lemma total_ticks_cons c rest :
  total_ticks (c :: rest) = (entry_ticks c + total_ticks rest)%nat.
Proof. done. Qed.

(** From the start of entry [idx] of a non-looping run, the ticks of the
    remaining entries play each later entry once, in order, and then stop
    the playback. *)
Lemma run_from idx beat c rest :
  drop idx prog = c :: rest → tick_loop c0 = false →
  timeline_run (playing_at s0 id (at_position c0 idx 0) beat)
    (ticks id (total_ticks (c :: rest)))
  = (stopped_from s0, (λ c, play_call c ms) <$> rest).
Proof.
  intros Hd Hloop. revert idx beat c Hd.
  induction rest as [|c' rest IH]; intros idx beat c Hd.
  - apply drop_cons_inv in Hd as (Hc & _ & Hlen). simpl in Hlen.
    rewrite total_ticks_cons. unfold total_ticks at 1. simpl.
    rewrite Nat.add_0_r. apply entry_then_end; [done|lia|done].
  - apply drop_cons_inv in Hd as (Hc & Hd' & _).
    apply drop_cons_inv in Hd' as Hd''. destruct Hd'' as (Hc' & _ & _).
    rewrite total_ticks_cons, ticks_add, timeline_run_app.
    rewrite (entry_then_advance idx beat c c' Hc Hc').
    cbn [fst snd]. by rewrite (IH _ _ _ Hd').
Qed.

(** The same with loop: the run comes back to the start of entry 0, which
    it plays again. *)
Lemma run_from_loop idx beat c rest first :
  drop idx prog = c :: rest → tick_loop c0 = true →
  prog !! 0%nat = Some first →
  timeline_run (playing_at s0 id (at_position c0 idx 0) beat)
    (ticks id (total_ticks (c :: rest)))
  = (playing_at s0 id (at_position c0 0 0) 0,
     ((λ c, play_call c ms) <$> rest) ++ [play_call first ms]).
Proof.
  intros Hd Hloop Hfirst. revert idx beat c Hd.
  induction rest as [|c' rest IH]; intros idx beat c Hd.
  - apply drop_cons_inv in Hd as (Hc & _ & Hlen). simpl in Hlen.
    rewrite total_ticks_cons. unfold total_ticks at 1. simpl.
    rewrite Nat.add_0_r. apply entry_then_wrap; [done|lia|done|done].
  - apply drop_cons_inv in Hd as (Hc & Hd' & _).
    apply drop_cons_inv in Hd' as Hd''. destruct Hd'' as (Hc' & _ & _).
    rewrite total_ticks_cons, ticks_add, timeline_run_app.
    rewrite (entry_then_advance idx beat c c' Hc Hc').
    cbn [fst snd]. by rewrite (IH _ _ _ Hd').
Qed.

(** Before the last tick of the last entry the playback is still on. *)
Lemma run_from_prefix idx beat c rest n :
  drop idx prog = c :: rest → (n < total_ticks (c :: rest))%nat →
  isPlaying
    (timeline_run (playing_at s0 id (at_position c0 idx 0) beat)
       (ticks id n)).1 = true.
Proof.
  revert idx beat c n.
  induction rest as [|c' rest IH]; intros idx beat c n Hd Hn.
  - apply drop_cons_inv in Hd as (Hc & _ & _).
    rewrite total_ticks_cons in Hn. unfold total_ticks in Hn. simpl in Hn.
    rewrite (ticks_within idx 0 beat c n Hc); [done|lia|].
    unfold entry_ticks in Hn. lia.
  - apply drop_cons_inv in Hd as (Hc & Hd' & _).
    apply drop_cons_inv in Hd' as Hd''. destruct Hd'' as (Hc' & _ & _).
    rewrite total_ticks_cons in Hn.
    destruct (decide (n < entry_ticks c)%nat) as [Hlt|Hge].
    + rewrite (ticks_within idx 0 beat c n Hc); [done|lia|].
      unfold entry_ticks in Hlt. lia.
    + replace n with (entry_ticks c + (n - entry_ticks c))%nat by lia.
      rewrite ticks_add, timeline_run_app.
      rewrite (entry_then_advance idx beat c c' Hc Hc').
      cbn [fst snd]. apply (IH _ _ _ _ Hd'). lia.
Qed.

End playback_run.

(** What [play] leaves behind when it starts from a stopped timeline. *)
Lemma play_playing_at s first rest :
  armed s = [] → chordProgression s = first :: rest →
  let ms := msPerBeat_of (tempo s) in
  let c0 := mkTickClosure (first :: rest) (loop s) ms 0 0 in
  let s0 := mkScheduler (first :: rest) true 0 (tempo s) (loop s)
              (Some (nextIntervalId s)) 0 []
              (Pos.succ (nextIntervalId s)) in
  play s = (playing_at s0 (nextIntervalId s) (at_position c0 0 0) 0,
            [play_call first ms]).
Proof.
  intros Ha Hp. unfold play. rewrite Hp. simpl. rewrite Ha. simpl.
  by rewrite Hp.
Qed.

Lemma handlePlayPause_playing_at s first rest :
  isPlaying s = false → armed s = [] → chordProgression s = first :: rest →
  let ms := msPerBeat_of (tempo s) in
  let c0 := mkTickClosure (first :: rest) (loop s) ms 0 0 in
  let s0 := mkScheduler (first :: rest) true 0 (tempo s) (loop s)
              (Some (nextIntervalId s)) 0 []
              (Pos.succ (nextIntervalId s)) in
  handlePlayPause s
  = (playing_at s0 (nextIntervalId s) (at_position c0 0 0) 0,
     [play_call first ms]).
Proof.
  intros Hs Ha Hp. unfold handlePlayPause. rewrite Hs.
  by apply play_playing_at.
Qed.

Section playback_progress.

Variable s0 : Scheduler.
Variable id : positive.
Variable c0 : TickClosure.

Let prog := tick_progression c0.
Let ms := tick_msPerBeat c0.

Lemma ticks_stopped k :
  timeline_run (stopped_from s0) (ticks id k) = (stopped_from s0, []).
Proof.
  unfold ticks. rewrite <- fmap_replicate.
  by apply ticks_without_interval.
Qed.

Lemma completed_cons c rest k :
  completed (c :: rest) k
  = if bool_decide (entry_ticks c ≤ k)%nat
    then S (completed rest (k - entry_ticks c)) else 0%nat.
Proof. done. Qed.

(** From the start of entry [idx] of a non-looping run, tick by tick: the
    calls made by [k] ticks are those for the entries whose predecessor
    the ticks completed, and the playhead stands at the entry reached. *)
Lemma run_from_progress idx c rest k :
  drop idx prog = c :: rest → tick_loop c0 = false →
  let r := timeline_run
             (playing_at s0 id (at_position c0 idx 0) (Z.of_nat idx))
             (ticks id k) in
  r.2 = (λ c, play_call c ms) <$> take (completed (c :: rest) k) rest
  ∧ ((k < total_ticks (c :: rest))%nat →
     isPlaying r.1 = true
     ∧ currentBeat r.1 = Z.of_nat (idx + completed (c :: rest) k))
  ∧ ((total_ticks (c :: rest) ≤ k)%nat → r.1 = stopped_from s0).
Proof.
  unfold prog, ms. intros Hd Hloop. revert idx c k Hd.
  induction rest as [|c' rest IH]; intros idx c k Hd;
    apply (drop_cons_inv c0) in Hd as Hd0;
    destruct Hd0 as (Hc & Hd' & Hlen);
    rewrite completed_cons, total_ticks_cons;
    case_bool_decide as Hk.
  - (* the last entry is completed *)
    assert (timeline_run
              (playing_at s0 id (at_position c0 idx 0) (Z.of_nat idx))
              (ticks id k) = (stopped_from s0, [])) as ->.
    { replace k with (entry_ticks c + (k - entry_ticks c))%nat by lia.
      rewrite ticks_add, timeline_run_app.
      rewrite (entry_then_end s0 id c0 idx _ c Hc); [|simpl in Hlen; lia|done].
      cbn [fst snd]. by rewrite ticks_stopped. }
    cbn [fst snd].
    split; [by rewrite take_nil|]. split; [|done].
    unfold total_ticks. simpl. lia.
  - (* inside the last entry *)
    rewrite (ticks_within s0 id c0 idx 0 _ c k Hc); [|lia|].
    2:{ unfold entry_ticks in Hk. lia. }
    cbn [fst snd]. split; [done|]. split.
    + intros _. split; [done|]. cbn [currentBeat playing_at]. lia.
    + unfold total_ticks. simpl. lia.
  - (* the entry is completed and another one follows *)
    apply (drop_cons_inv c0) in Hd' as Hd''.
    destruct Hd'' as (Hc' & _ & _).
    destruct (IH (S idx) c' (k - entry_ticks c)%nat Hd') as (Hout & Hon & Hoff).
    cbv zeta in Hout, Hon, Hoff.
    assert (timeline_run
              (playing_at s0 id (at_position c0 idx 0) (Z.of_nat idx))
              (ticks id k)
            = ((timeline_run
                  (playing_at s0 id (at_position c0 (S idx) 0)
                     (Z.of_nat (S idx)))
                  (ticks id (k - entry_ticks c))).1,
               play_call c' (tick_msPerBeat c0)
               :: (timeline_run
                     (playing_at s0 id (at_position c0 (S idx) 0)
                        (Z.of_nat (S idx)))
                     (ticks id (k - entry_ticks c))).2)) as ->.
    { replace k with (entry_ticks c + (k - entry_ticks c))%nat at 1 by lia.
      rewrite ticks_add, timeline_run_app.
      rewrite (entry_then_advance s0 id c0 idx _ c c' Hc Hc').
      cbn [fst snd].
      by destruct (timeline_run _ (ticks id (k - entry_ticks c))). }
    cbn [fst snd]. rewrite Hout.
    split; [done|]. split.
    + intros Hlt. destruct Hon as [Hplay Hbeat]; [lia|].
      split; [done|]. rewrite Hbeat. lia.
    + intros Hge. apply Hoff. lia.
  - (* inside an entry that is not the last *)
    rewrite (ticks_within s0 id c0 idx 0 _ c k Hc); [|lia|].
    2:{ unfold entry_ticks in Hk. lia. }
    cbn [fst snd]. split; [done|]. split.
    + intros _. split; [done|]. cbn [currentBeat playing_at]. lia.
    + lia.
Qed.

End playback_progress.

(** X11 (ChordTimeline.tsx, [handlePlayPause] and its interval callback):
    started on a stopped timeline with loop off and a non-empty progression
    of whole-beat durations, tick by tick.  An entry lasts [max 1 duration]
    ticks.  After any number [k] of ticks the calls made are those for the
    first entry, played at once, and for each later entry whose predecessor
    the ticks have completed, in order, each once; so an entry is
    triggered by the tick that completes its predecessor and by no other.
    Until the last entry is completed the playback is on and the playhead
    is the index of the entry reached; the tick that completes the last
    entry clears the interval, sets [isPlaying] to false and the playhead
    to 0, and later ticks do nothing. *)
Theorem playback_plays_each_entry_once s first rest :
  isPlaying s = false → armed s = [] →
  chordProgression s = first :: rest → loop s = false →
  let id := nextIntervalId s in
  let ms := msPerBeat_of (tempo s) in
  let prog := first :: rest in
  ∀ k,
    let r := timeline_run s (PlayPause :: ticks id k) in
    r.2 = (λ c, play_call c ms) <$> take (S (completed prog k)) prog
    ∧ ((k < total_ticks prog)%nat →
       isPlaying r.1 = true
       ∧ currentBeat r.1 = Z.of_nat (completed prog k)
       ∧ (completed prog k < length prog)%nat)
    ∧ ((total_ticks prog ≤ k)%nat →
       completed prog k = length prog
       ∧ r.1 = mkScheduler prog false 0 (tempo s) false None 0 []
                 (Pos.succ id)).
Proof.
  intros Hs Ha Hp Hl id ms prog k.
  pose proof (handlePlayPause_playing_at s first rest Hs Ha Hp) as Hplay.
  cbv zeta in Hplay. fold id ms in Hplay.
  cbn [timeline_run timeline_step]. rewrite Hplay.
  set (s0 := mkScheduler _ _ _ _ _ _ _ _ _).
  set (c0 := mkTickClosure _ _ _ _ _).
  destruct (run_from_progress s0 id c0 0 first rest k eq_refl Hl)
    as (Hout & Hon & Hoff).
  cbv zeta in Hout, Hon, Hoff. change (Z.of_nat 0) with 0 in *.
  destruct (timeline_run _ (ticks id k)) as [s2 out2].
  cbn [fst snd] in *. rewrite Hout.
  assert ((completed prog k ≤ length prog)%nat
          ∧ ((k < total_ticks prog)%nat → (completed prog k < length prog)%nat)
          ∧ ((total_ticks prog ≤ k)%nat → completed prog k = length prog))
    as (Hle & Hlt & Heq).
  { clear. revert k. induction prog as [|c p IH]; intros k.
    - simpl. unfold total_ticks. simpl. lia.
    - rewrite completed_cons, total_ticks_cons. cbn [length].
      pose proof (entry_ticks_pos c).
      case_bool_decide as Hk.
      + destruct (IH (k - entry_ticks c)%nat) as (H1 & H2 & H3).
        split; [lia|]. split; intros ?; [apply H2 in H0 || (assert (k - entry_ticks c < total_ticks p)%nat as Hx by lia; apply H2 in Hx); lia|].
        rewrite H3; lia.
      + split; [lia|]. split; [lia|]. lia. }
  split; [done|]. split.
  - intros Hk. destruct (Hon Hk) as [Hplaying Hbeat].
    split; [done|]. split; [by rewrite Hbeat|by apply Hlt].
  - intros Hk. split; [by apply Heq|]. rewrite (Hoff Hk).
    unfold stopped_from, s0. simpl. by rewrite Hl.
Qed.

Lemma playback_plays_each_entry_once_witness :
  let c1 := mkChord "a" "C" [0; 4; 7] "I" 2 in
  let c2 := mkChord "b" "G" [0; 4; 7] "V" 0 in
  let c3 := mkChord "c" "F" [0; 4; 7] "IV" 1 in
  let s := timeline_init [c1; c2; c3] 120 false in
  let played k := (timeline_run s (PlayPause :: ticks 1 k)).2 in
  let call c := play_call c (msPerBeat_of 120) in
  played 0%nat = [call c1] ∧ played 1%nat = [call c1]
  ∧ played 2%nat = [call c1; call c2]
  ∧ played 3%nat = [call c1; call c2; call c3]
  ∧ played 4%nat = [call c1; call c2; call c3]
  ∧ played 9%nat = [call c1; call c2; call c3]
  ∧ isPlaying (timeline_run s (PlayPause :: ticks 1 3)).1 = true
  ∧ isPlaying (timeline_run s (PlayPause :: ticks 1 4)).1 = false.
Proof.
  intros c1 c2 c3 s played call.
  pose proof (playback_plays_each_entry_once s c1 [c2; c3]
                eq_refl eq_refl eq_refl eq_refl) as H.
  cbv zeta in H.
  split; [exact (proj1 (H 0%nat))|].
  split; [exact (proj1 (H 1%nat))|].
  split; [exact (proj1 (H 2%nat))|].
  split; [exact (proj1 (H 3%nat))|].
  split; [exact (proj1 (H 4%nat))|].
  split; [exact (proj1 (H 9%nat))|].
  split.
  - apply (proj1 (proj2 (H 3%nat))). vm_compute. lia.
  - destruct (proj2 (proj2 (H 4%nat))) as [_ Hend]; [vm_compute; lia|].
    exact (f_equal isPlaying Hend).
Defined.

(** X12 (ChordTimeline.tsx, interval callback of [handlePlayPause]): with
    loop on, one pass of ticks over the progression brings the timeline
    back to exactly the state [handlePlayPause] left when it started the
    playback, having played the later entries in order and then entry 0
    again; so this holds for any number of passes, and the playback never
    stops by itself. *)
Theorem playback_loops s first rest k :
  isPlaying s = false → armed s = [] →
  chordProgression s = first :: rest → loop s = true →
  let id := nextIntervalId s in
  let ms := msPerBeat_of (tempo s) in
  let pass := ticks id (total_ticks (first :: rest)) in
  let sounds := ((λ c, play_call c ms) <$> rest) ++ [play_call first ms] in
  timeline_run s (PlayPause :: concat (replicate k pass))
  = ((handlePlayPause s).1,
     play_call first ms :: concat (replicate k sounds)).
Proof.
  intros Hs Ha Hp Hl id ms pass sounds.
  pose proof (handlePlayPause_playing_at s first rest Hs Ha Hp) as Hplay.
  cbv zeta in Hplay. fold id ms in Hplay.
  cbn [timeline_run timeline_step]. rewrite Hplay. cbn [fst].
  set (s0 := mkScheduler _ _ _ _ _ _ _ _ _).
  set (c0 := mkTickClosure _ _ _ _ _).
  assert (timeline_run (playing_at s0 id (at_position c0 0 0) 0)
            (concat (replicate k pass))
          = (playing_at s0 id (at_position c0 0 0) 0,
             concat (replicate k sounds))) as ->; [|done].
  induction k as [|k IH]; [done|].
  cbn [replicate concat]. rewrite timeline_run_app.
  assert (timeline_run (playing_at s0 id (at_position c0 0 0) 0) pass
          = (playing_at s0 id (at_position c0 0 0) 0, sounds)) as ->.
  { by apply (run_from_loop s0 id c0 0 0 first rest first). }
  cbn [fst snd]. rewrite IH. reflexivity.
Qed.

Lemma playback_loops_witness :
  let c1 := mkChord "a" "C" [0; 4; 7] "I" 2 in
  let c2 := mkChord "b" "G" [0; 4; 7] "V" 1 in
  let s := timeline_init [c1; c2] 120 true in
  let ms := msPerBeat_of 120 in
  timeline_run s (PlayPause :: concat (replicate 2 (ticks 1 3)))
  = ((handlePlayPause s).1,
     play_call c1 ms
       :: concat (replicate 2 ([play_call c2 ms] ++ [play_call c1 ms]))).
Proof.
  intros c1 c2 s ms.
  exact (playback_loops s c1 [c2] 2 eq_refl eq_refl eq_refl eq_refl).
Defined.

(** ** The running interval and the current state *)

Lemma tick_playback_part id s s' :
  playback_part s = playback_part s' →
  (tick id s).2 = (tick id s').2
  ∧ playback_part (tick id s).1 = playback_part (tick id s').1.
Proof.
  destruct s, s'. unfold playback_part. simpl.
  intros [= -> -> -> -> -> ->].
  unfold tick. simpl. destruct (List.find _ _) as [t|]; [|done].
  unfold tick_callback, clear_interval_ref. simpl.
  repeat case_match; done.
Qed.

Lemma edit_playback_part s e :
  is_edit e →
  (timeline_step s e).2 = []
  ∧ playback_part (timeline_step s e).1 = playback_part s.
Proof. by destruct e. Qed.

Lemma edits_ignored_gen es s s' :
  Forall (λ e, is_edit e ∨ is_tick e) es →
  playback_part s = playback_part s' →
  (timeline_run s es).2 = (timeline_run s' (filter (λ e, is_tick e) es)).2
  ∧ playback_part (timeline_run s es).1
    = playback_part (timeline_run s' (filter (λ e, is_tick e) es)).1.
Proof.
  intros Hes. revert s s'.
  induction Hes as [|e es He _ IH]; intros s s' Hpart; [done|].
  destruct (decide (is_tick e)) as [Ht|Ht].
  - rewrite filter_cons_True by done. destruct e; try done.
    cbn [timeline_run timeline_step].
    destruct (tick_playback_part id s s' Hpart) as [Hout Hpart'].
    destruct (tick id s) as [s1 out1], (tick id s') as [s1' out1'].
    simpl in Hout, Hpart'. subst out1'.
    destruct (IH s1 s1' Hpart') as [Hout2 Hpart2].
    destruct (timeline_run s1 es) as [s2 out2].
    destruct (timeline_run s1' _) as [s2' out2'].
    simpl in *. by subst.
  - rewrite filter_cons_False by done.
    destruct He as [He|He]; [|done].
    cbn [timeline_run].
    destruct (edit_playback_part s e He) as [Hout Hpart'].
    destruct (timeline_step s e) as [s1 out1]. simpl in Hout, Hpart'.
    subst out1. rewrite Hpart in Hpart'.
    destruct (IH s1 s' Hpart') as [Hout2 Hpart2].
    destruct (timeline_run s1 es) as [s2 out2]. by simpl in *.
Qed.

(** X13 (ChordTimeline.tsx, interval callback of [handlePlayPause]): the
    callback reads the progression, the loop flag and the tempo it captured
    when the playback started and never the current ones.  In a run of
    ticks mixed with added chords, loop toggles and tempo changes, the
    chords played, the playhead, the [isPlaying] flag and the armed
    interval are what the ticks alone would give. *)
Theorem edits_do_not_reach_running_playback s es :
  Forall (λ e, is_edit e ∨ is_tick e) es →
  (timeline_run s es).2 = (timeline_run s (filter (λ e, is_tick e) es)).2
  ∧ playback_part (timeline_run s es).1
    = playback_part (timeline_run s (filter (λ e, is_tick e) es)).1.
Proof. intros Hes. by apply edits_ignored_gen. Qed.

Lemma edits_do_not_reach_running_playback_witness :
  let c1 := mkChord "a" "C" [0; 4; 7] "I" 1 in
  let c2 := mkChord "b" "G" [0; 4; 7] "V" 1 in
  let c3 := mkChord "c" "F" [0; 4; 7] "IV" 1 in
  let s := (handlePlayPause (timeline_init [c1; c2] 120 false)).1 in
  let es := [ToggleLoop; Tick 1; AddChord c3; SetTempo 90; Tick 1; Tick 1] in
  (timeline_run s es).2 = (timeline_run s [Tick 1; Tick 1; Tick 1]).2
  ∧ playback_part (timeline_run s es).1
    = playback_part (timeline_run s [Tick 1; Tick 1; Tick 1]).1.
Proof.
  intros c1 c2 c3 s es.
  refine (edits_do_not_reach_running_playback s es _).
  unfold es. repeat constructor; simpl; tauto.
Defined.

(** ** Removing entries during playback *)

Lemma stop_if_playing_stopped s :
  timeline_inv s →
  isPlaying (stop_if_playing s) = false
  ∧ currentBeat (stop_if_playing s) = 0
  ∧ armed (stop_if_playing s) = []
  ∧ intervalRef (stop_if_playing s) = None.
Proof.
  intros Hinv. unfold stop_if_playing.
  destruct (isPlaying s) eqn:Hp.
  - destruct Hinv as (Hids & _ & _).
    destruct (clear_interval_ref_armed s Hids) as [Ha Hr].
    by simpl.
  - pose proof (timeline_inv_stopped s Hinv Hp) as Ha.
    destruct Hinv as (_ & Hstop & _). destruct (Hstop Hp) as [Hr Hb].
    done.
Qed.

Lemma only_ticks_fmap es :
  Forall (λ e, is_tick e) es → ∃ ids, es = Tick <$> ids.
Proof.
  induction 1 as [|e es He _ [ids ->]]; [by exists []|].
  destruct e; try done. by exists (id :: ids).
Qed.

(** X14 (ChordTimeline.tsx, [handleRemoveChord] and
    [handleClearProgression]): in every state the timeline can reach,
    removing an entry or clearing the progression leaves the playback
    stopped with the playhead at 0 and no interval armed, so that no later
    tick plays anything. *)
Theorem remove_or_clear_stops_playback s s' :
  timeline_reachable s →
  (s' = handleClearProgression s ∨ ∃ id, s' = handleRemoveChord id s) →
  isPlaying s' = false ∧ currentBeat s' = 0
  ∧ armed s' = [] ∧ intervalRef s' = None
  ∧ ∀ es, Forall (λ e, is_tick e) es → timeline_run s' es = (s', []).
Proof.
  intros Hr Hs'. apply timeline_reachable_inv in Hr.
  destruct (stop_if_playing_stopped s Hr) as (Hp & Hb & Ha & Hi).
  assert (isPlaying s' = false ∧ currentBeat s' = 0
          ∧ armed s' = [] ∧ intervalRef s' = None) as (?&?&Ha'&?).
  { destruct Hs' as [->|[id ->]]; done. }
  repeat split; try done.
  intros es Hes. destruct (only_ticks_fmap es Hes) as [ids ->].
  by apply ticks_without_interval.
Qed.

Lemma remove_or_clear_stops_playback_witness :
  let c1 := mkChord "a" "C" [0; 4; 7] "I" 2 in
  let c2 := mkChord "b" "G" [0; 4; 7] "V" 2 in
  let s := (timeline_run (timeline_init [c1; c2] 120 true)
              [PlayPause; Tick 1; Tick 1]).1 in
  let s' := handleRemoveChord "a" s in
  isPlaying s = true
  ∧ isPlaying s' = false ∧ currentBeat s' = 0
  ∧ armed s' = [] ∧ intervalRef s' = None
  ∧ ∀ es, Forall (λ e, is_tick e) es → timeline_run s' es = (s', []).
Proof.
  intros c1 c2 s s'. split; [reflexivity|].
  apply (remove_or_clear_stops_playback s s').
  - apply timeline_reachable_run. constructor.
  - right. by exists "a".
Defined.

(** ** The playhead *)

Lemma playhead_ok_nil s : armed s = [] → playhead_ok s.
Proof. intros Ha t Ht. rewrite Ha in Ht. by apply elem_of_nil in Ht. Qed.

Lemma playhead_ok_same s s' :
  armed s' = armed s → currentBeat s' = currentBeat s →
  playhead_ok s → playhead_ok s'.
Proof. intros Ha Hb Hok t Ht. rewrite Ha in Ht. rewrite Hb. by apply Hok. Qed.

Lemma timeline_inv_armed_single s t :
  timeline_inv s → t ∈ armed s →
  armed s = [t] ∧ intervalRef s = Some (interval_id t).
Proof.
  intros (Hids & _ & _) Ht.
  destruct (armed s) as [|t0 q]; [by apply elem_of_nil in Ht|].
  destruct (intervalRef s) as [i|]; [|done].
  destruct q; [|done]. injection Hids as <-.
  apply list_elem_of_singleton in Ht. by subst.
Qed.

Lemma playhead_ok_tick id s :
  timeline_inv s → playhead_ok s → playhead_ok (tick id s).1.
Proof.
  intros Hinv Hok. unfold tick.
  destruct (List.find _ _) as [t|] eqn:Hf; [|done].
  apply List.find_some in Hf as [Hin Hid].
  apply Pos.eqb_eq in Hid. apply list_elem_of_In in Hin.
  destruct (timeline_inv_armed_single s t Hinv Hin) as [Ha Hr].
  destruct (Hok t Hin) as (Hidx & Hbeat & Hcount).
  set (c := interval_callback t) in *.
  assert (∀ idx beats,
    armed (set_armed (update_callback id
      (mkTickClosure (tick_progression c) (tick_loop c) (tick_msPerBeat c)
         idx beats) (armed s)) s)
    = [mkIntervalTimer (interval_id t) (interval_period t)
         (mkTickClosure (tick_progression c) (tick_loop c) (tick_msPerBeat c)
            idx beats)]) as Hkeep.
  { intros idx beats. rewrite Ha. simpl. rewrite Hid.
    by rewrite Pos.eqb_refl. }
  unfold tick_callback. fold c.
  destruct (lookup_lt_is_Some_2 _ _ Hidx) as [cur Hcur]. rewrite Hcur.
  case_bool_decide as Hdone; simpl.
  - case_bool_decide as Hlast.
    + destruct (tick_loop c) eqn:Hloop.
      * destruct (tick_progression c) as [|first rest] eqn:Hprog;
          [simpl in Hidx; lia|].
        simpl. intros t' Ht'. simpl in Ht'.
        pose proof (Hkeep 0%nat 0) as Hk. simpl in Hk. rewrite Hk in Ht'.
        apply list_elem_of_singleton in Ht'. subst t'. simpl.
        split; [lia|done].
      * apply playhead_ok_nil. simpl.
        apply clear_interval_ref_armed. simpl.
        rewrite ids_update_callback. by destruct Hinv.
    + destruct (tick_progression c !! S (chordIndex c)) as [next|] eqn:Hnext.
      * intros t' Ht'. simpl in Ht'.
        pose proof (Hkeep (S (chordIndex c)) 0) as Hk. simpl in Hk.
        rewrite Hk in Ht'.
        apply list_elem_of_singleton in Ht'. subst t'. simpl.
        split; [lia|done].
      * apply lookup_ge_None in Hnext. lia.
  - intros t' Ht'.
    pose proof (Hkeep (chordIndex c) (beatCount c + 1)) as Hk.
    simpl in Ht', Hk. rewrite Hk in Ht'.
    apply list_elem_of_singleton in Ht'. subst t'. simpl.
    split; [done|]. split; [done|lia].
Qed.

Lemma playhead_ok_step s e :
  timeline_inv s → playhead_ok s → playhead_ok (timeline_step s e).1.
Proof.
  intros Hinv Hok. destruct e; simpl.
  - unfold handlePlayPause. destruct (isPlaying s) eqn:Hp; simpl.
    + apply playhead_ok_nil.
      apply timeline_inv_stopped; [by apply timeline_inv_stop|done].
    + pose proof (timeline_inv_stopped s Hinv Hp) as Ha.
      unfold play. destruct (chordProgression s) as [|first rest] eqn:Hprog;
        [done|].
      intros t Ht. simpl in Ht. rewrite Ha in Ht. simpl in Ht.
      apply list_elem_of_singleton in Ht. subst t. simpl.
      split; [lia|done].
  - by apply playhead_ok_tick.
  - apply playhead_ok_nil. unfold handleRemoveChord. simpl.
    by apply stop_if_playing_stopped.
  - apply playhead_ok_nil. unfold handleClearProgression. simpl.
    by apply stop_if_playing_stopped.
  - apply playhead_ok_nil. unfold timeline_unmount.
    apply clear_interval_ref_armed. by destruct Hinv.
  - by apply (playhead_ok_same s).
  - by apply (playhead_ok_same s).
  - by apply (playhead_ok_same s).
Qed.

(** X15 (ChordTimeline.tsx, [handlePlayPause] and its interval callback):
    in every state the timeline can reach, an armed interval stands at an
    entry of the progression it captured, and the playhead
    ([currentBeat], which selects the highlighted block) is the index of
    that entry. *)
Theorem playhead_follows_playback s :
  timeline_reachable s → playhead_ok s.
Proof.
  induction 1 as [p t l|s e Hr IH].
  - by apply playhead_ok_nil.
  - apply playhead_ok_step; [by apply timeline_reachable_inv|done].
Qed.

Lemma playhead_follows_playback_witness :
  let c1 := mkChord "a" "C" [0; 4; 7] "I" 1 in
  let c2 := mkChord "b" "G" [0; 4; 7] "V" 2 in
  let s := (timeline_run (timeline_init [c1; c2] 120 true)
              [PlayPause; Tick 1; Tick 1]).1 in
  length (armed s) = 1%nat ∧ currentBeat s = 1 ∧ playhead_ok s.
Proof.
  intros c1 c2 s. split; [reflexivity|]. split; [reflexivity|].
  apply (playhead_follows_playback s).
  apply timeline_reachable_run. constructor.
Defined.

(** ** The displayed total *)

Lemma totalDuration_from acc prog :
  foldl (λ sum chord, sum + duration chord) acc prog
  = acc + totalDuration prog.
Proof.
  unfold totalDuration. revert acc.
  induction prog as [|c prog IH]; intros acc; simpl; [lia|].
  rewrite (IH (acc + duration c)), (IH (0 + duration c)). lia.
Qed.

Lemma total_ticks_totalDuration prog :
  Forall (λ c, (1 ≤ duration c)%Z) prog →
  Z.of_nat (total_ticks prog) = totalDuration prog.
Proof.
  induction 1 as [|c prog Hc _ IH]; [done|].
  rewrite total_ticks_cons. unfold totalDuration. simpl.
  rewrite totalDuration_from, Nat2Z.inj_add, IH.
  unfold entry_ticks. lia.
Qed.

(** X16 (ChordTimeline.tsx, [totalDuration] and [handlePlayPause]): when
    every entry lasts at least one beat, a playback with loop off ends with
    the tick number [totalDuration], the number of beats the header shows,
    and not before. *)
Theorem playback_lasts_totalDuration s first rest :
  isPlaying s = false → armed s = [] →
  chordProgression s = first :: rest → loop s = false →
  Forall (λ c, (1 ≤ duration c)%Z) (first :: rest) →
  let id := nextIntervalId s in
  let after k := (timeline_run s (PlayPause :: ticks id k)).1 in
  ∀ k, isPlaying (after k) = false
       ↔ (totalDuration (chordProgression s) ≤ Z.of_nat k)%Z.
Proof.
  intros Hs Ha Hp Hl Hd id after k. rewrite Hp.
  rewrite <- (total_ticks_totalDuration _ Hd).
  pose proof (handlePlayPause_playing_at s first rest Hs Ha Hp) as Hplay.
  cbv zeta in Hplay. fold id in Hplay.
  unfold after. cbn [timeline_run timeline_step]. rewrite Hplay.
  set (s0 := mkScheduler _ _ _ _ _ _ _ _ _).
  set (c0 := mkTickClosure _ _ _ _ _).
  set (n := total_ticks (first :: rest)).
  destruct (decide (k < n)%nat) as [Hlt|Hge].
  - pose proof (run_from_prefix s0 id c0 0 0 first rest k eq_refl Hlt) as H.
    destruct (timeline_run _ (ticks id k)) as [s2 out2]. simpl in *.
    rewrite H. split; [done|lia].
  - replace k with (n + (k - n))%nat by lia.
    rewrite ticks_add, timeline_run_app.
    unfold n at 1 2.
    rewrite (run_from s0 id c0 0 0 first rest); [|done|done].
    cbn [fst snd].
    unfold ticks at 1. rewrite <- fmap_replicate.
    rewrite (ticks_without_interval (stopped_from s0)).
    + simpl. split; [lia|done].
    + done.
Qed.

Lemma playback_lasts_totalDuration_witness :
  let c1 := mkChord "a" "C" [0; 4; 7] "I" 2 in
  let c2 := mkChord "b" "G" [0; 4; 7] "V" 1 in
  let s := timeline_init [c1; c2] 120 false in
  totalDuration [c1; c2] = 3
  ∧ (isPlaying (timeline_run s (PlayPause :: ticks 1 2)).1 = false
     ↔ (totalDuration [c1; c2] ≤ 2)%Z)
  ∧ (isPlaying (timeline_run s (PlayPause :: ticks 1 3)).1 = false
     ↔ (totalDuration [c1; c2] ≤ 3)%Z).
Proof.
  intros c1 c2 s.
  assert (Forall (λ c, (1 ≤ duration c)%Z) [c1; c2]) as Hd.
  { repeat constructor; simpl; lia. }
  split; [reflexivity|]. split.
  - exact (playback_lasts_totalDuration s c1 [c2]
             eq_refl eq_refl eq_refl eq_refl Hd 2%nat).
  - exact (playback_lasts_totalDuration s c1 [c2]
             eq_refl eq_refl eq_refl eq_refl Hd 3%nat).
Defined.

(** ** The earlier card: [applyModifier] and the catalog arrays *)

Lemma find_modifier_label {A} (catalog : list (ChordModifier A)) l m :
  find_modifier catalog l = Some m → label m = l.
Proof.
  intros Hf. apply List.find_some in Hf as [_ Heq].
  by apply String.eqb_eq in Heq.
Qed.

Lemma read_app_l (h : heap) arr l :
  (l < length h)%nat → read (h ++ [arr]) l = read h l.
Proof. intros Hl. unfold read. by rewrite lookup_app_l. Qed.

(** Switching a replace-effect entry on in an empty set. *)
Lemma applyModifier_replace_first (catalog : list (ChordModifier loc))
    (intervals : loc) (m : ChordModifier loc) (r : loc) (h : heap) :
  find_modifier catalog (label m) = Some m → replaceWith m = Some r →
  (r < length h)%nat →
  applyModifier catalog intervals [] m h
  = ([label m], r,
     write r (sort_asc (read h r)) (h ++ [read h intervals])).
Proof.
  intros Hf Hr Hlt. unfold applyModifier, spread, alloc, JsSet.add, JsSet.has.
  rewrite !bool_decide_false by apply not_elem_of_nil.
  cbn [app foldl]. unfold applyModifier_step. rewrite Hf, Hr.
  cbn [fst snd]. by rewrite read_app_l.
Qed.

(** Switching a one-interval entry on when a replace-effect entry is the
    only active one. *)
Lemma applyModifier_add_after_replace (catalog : list (ChordModifier loc))
    (intervals : loc) (mr ma : ChordModifier loc) (r : loc) (i : Z)
    (h : heap) :
  find_modifier catalog (label mr) = Some mr → replaceWith mr = Some r →
  find_modifier catalog (label ma) = Some ma → replaceWith ma = None →
  intervalsToAdd ma = None → intervalToAdd ma = Some i →
  label ma ≠ label mr → (r < length h)%nat → i ∉ read h r →
  applyModifier catalog intervals [label mr] ma h
  = ([label mr; label ma], r,
     write r (sort_asc (read h r ++ [i]))
       (write r (read h r ++ [i]) (h ++ [read h intervals]))).
Proof.
  intros Hfr Hr Hfa Hra Hma Hia Hne Hlt Hi.
  unfold applyModifier, spread, alloc, JsSet.has, JsSet.add, JsSet.has.
  rewrite !bool_decide_false by (rewrite list_elem_of_singleton; done).
  cbn [app foldl]. unfold applyModifier_step. rewrite Hfr, Hr, Hfa, Hra.
  cbn [fst snd]. unfold apply_additive_h. rewrite Hma, Hia.
  unfold push_if_absent_h, includes. rewrite read_app_l by done.
  rewrite bool_decide_false by done.
  rewrite read_write by (rewrite length_app; simpl; lia). done.
Qed.

(** X17 (ChordCard.tsx, earlier revision, [applyModifier]): the array of a
    replace-effect entry is assigned without a copy, so the card hands the
    catalog's own array to [setCurrentIntervals], and an interval added
    after it is pushed into the catalog.  Switching on a replace-effect
    entry and then a one-interval entry whose interval the replacement
    lacks leaves that interval in the catalog array; a later call that
    switches on the replace-effect entry alone, for any chord, gets it
    too. *)
Theorem applyModifier_writes_into_catalog
    (catalog : list (ChordModifier loc)) (intervals intervals' : loc)
    (mr ma : ChordModifier loc) (r : loc) (i : Z) (h : heap) :
  find_modifier catalog (label mr) = Some mr → replaceWith mr = Some r →
  find_modifier catalog (label ma) = Some ma → replaceWith ma = None →
  intervalsToAdd ma = None → intervalToAdd ma = Some i →
  (r < length h)%nat → i ∉ read h r →
  let '(set1, iv1, h1) := applyModifier catalog intervals [] mr h in
  let '(set2, iv2, h2) := applyModifier catalog intervals set1 ma h1 in
  let '(set3, iv3, h3) := applyModifier catalog intervals' [] mr h2 in
  iv1 = r ∧ iv2 = r ∧ iv3 = r
  ∧ read h1 r = sort_asc (read h r)
  ∧ read h2 r = sort_asc (sort_asc (read h r) ++ [i])
  ∧ set3 = [label mr] ∧ i ∈ read h3 iv3.
Proof.
  intros Hfr Hr Hfa Hra Hma Hia Hlt Hi.
  assert (label ma ≠ label mr) as Hne.
  { intros Heq. rewrite Heq, Hfr in Hfa. injection Hfa as <-.
    by rewrite Hr in Hra. }
  rewrite (applyModifier_replace_first _ _ _ _ _ Hfr Hr Hlt).
  set (h1 := write r _ _).
  assert (length h1 = S (length h)) as Hlen1.
  { unfold h1. rewrite length_write, length_app. simpl. lia. }
  assert (read h1 r = sort_asc (read h r)) as Hr1.
  { unfold h1. apply read_write. rewrite length_app. lia. }
  rewrite (applyModifier_add_after_replace _ _ _ _ r i h1
             Hfr Hr Hfa Hra Hma Hia Hne); [|lia|].
  2:{ rewrite Hr1, elem_of_sort_asc. done. }
  set (h2 := write r _ (write r _ _)).
  assert (length h2 = S (S (length h))) as Hlen2.
  { unfold h2. rewrite !length_write, length_app. simpl. lia. }
  assert (read h2 r = sort_asc (sort_asc (read h r) ++ [i])) as Hr2.
  { unfold h2. rewrite read_write, Hr1; [done|].
    rewrite length_write, length_app. lia. }
  rewrite (applyModifier_replace_first _ _ _ r h2 Hfr Hr) by lia.
  split_and!; try done.
  rewrite read_write by (rewrite length_app; lia).
  rewrite elem_of_sort_asc, Hr2, elem_of_sort_asc, elem_of_app.
  right. by apply list_elem_of_singleton.
Qed.

Lemma applyModifier_writes_into_catalog_witness :
  let catalog := (store_catalog CHORD_MODIFIERS []).1 in
  let h := (store_catalog CHORD_MODIFIERS []).2 ++ [[0; 4; 7]; [0; 3; 7]] in
  let cMajor : loc := 8%nat in
  let aMinor : loc := 9%nat in
  let sus2 : ChordModifier loc := mkChordModifier "sus2" None None None (Some 0%nat) in
  let seventh : ChordModifier loc := mkChordModifier "7" (Some 10) None None None in
  read h 0%nat = [0; 2; 7]
  ∧ let '(set1, iv1, h1) := applyModifier catalog cMajor [] sus2 h in
    let '(set2, iv2, h2) := applyModifier catalog cMajor set1 seventh h1 in
    let '(set3, iv3, h3) := applyModifier catalog aMinor [] sus2 h2 in
    iv1 = 0%nat ∧ iv2 = 0%nat ∧ iv3 = 0%nat
    ∧ read h1 0%nat = sort_asc (read h 0%nat)
    ∧ read h2 0%nat = sort_asc (sort_asc (read h 0%nat) ++ [10])
    ∧ set3 = ["sus2"] ∧ 10 ∈ read h3 iv3.
Proof.
  intros catalog h cMajor aMinor sus2 seventh.
  split; [reflexivity|].
  refine (applyModifier_writes_into_catalog catalog cMajor aMinor
            sus2 seventh 0%nat 10 h _ _ _ _ _ _ _ _); try reflexivity.
  - vm_compute. lia.
  - apply (bool_decide_unpack _). vm_compute. exact I.
Defined.

Lemma no_replace_active_cons {A} (catalog : list (ChordModifier A)) l ls :
  no_replace_active catalog (l :: ls) →
  (∀ m, find_modifier catalog l = Some m → replaceWith m = None)
  ∧ no_replace_active catalog ls.
Proof.
  intros H. split.
  - intros m. apply H. by left.
  - intros l' m Hl'. apply H. by right.
Qed.

(** Without a replace-effect label the loop of [applyModifier] works on
    the copy of the chord's intervals only. *)
Lemma applyModifier_fold_additive (h0 : heap)
    (catalog : list (ChordModifier loc)) (ls : JsSet.t) iv (g : heap) v :
  Forall (valid_modifier h0) catalog →
  no_replace_active catalog ls →
  fresh_at h0 g iv v →
  fresh_at h0 (foldl (applyModifier_step catalog) (iv, g) ls).2
    (foldl (applyModifier_step catalog) (iv, g) ls).1
    (foldl apply_additive v (active_entries (resolve h0 <$> catalog) ls)).
Proof.
  intros Hval. revert iv g v.
  induction ls as [|l ls IH]; intros iv g v Hno Hf; [done|].
  apply no_replace_active_cons in Hno as [Hl Hno].
  assert (active_entries (resolve h0 <$> catalog) (l :: ls)
          = option_list (resolve h0 <$> find_modifier catalog l)
            ++ active_entries (resolve h0 <$> catalog) ls) as ->.
  { unfold active_entries. cbn [omap list_omap].
    rewrite (find_modifier_resolve h0 catalog l).
    by destruct (find_modifier catalog l). }
  cbn [foldl]. rewrite foldl_app.
  unfold applyModifier_step at 2 4.
  destruct (find_modifier catalog l) as [m|] eqn:Hfind.
  - rewrite (Hl m eq_refl).
    assert (valid_modifier h0 m) as Hm.
    { apply find_modifier_elem_of in Hfind as [Hin _].
      by eapply Forall_forall in Hval. }
    pose proof (apply_additive_h_fresh h0 iv g v m Hf Hm) as Hstep.
    destruct (apply_additive_h (iv, g) m) as [iv' g'].
    exact (IH iv' g' _ Hno Hstep).
  - exact (IH iv g v Hno Hf).
Qed.

Lemma no_replace_active_resolve h0 (catalog : list (ChordModifier loc)) ls :
  no_replace_active catalog ls →
  no_replace_active (resolve h0 <$> catalog) ls.
Proof.
  intros Hno l m Hl. rewrite find_modifier_resolve.
  destruct (find_modifier catalog l) as [m'|] eqn:Hf; [|done].
  intros [= <-]. simpl. by rewrite (Hno l m' Hl Hf).
Qed.

(** Without a replace-effect label [calculateIntervals] applies the
    entries of the active labels to the base, in the order of the set. *)
Lemma calculateIntervals_no_replace catalog baseIntervals ls :
  no_replace_active catalog ls →
  calculateIntervals catalog baseIntervals ls
  = sort_asc (foldl apply_additive baseIntervals (active_entries catalog ls)).
Proof.
  intros Hno. rewrite calculateIntervals_unfold.
  assert (Forall (λ m, replaceWith m = None) (active_entries catalog ls))
    as Hall.
  { apply Forall_forall. intros m Hm. unfold active_entries in Hm.
    apply list_elem_of_omap in Hm as (l & Hl & Hf). by apply (Hno l m). }
  unfold effective_base, additive_entries.
  rewrite (filter_all _ _ (proj1 (Forall_forall _ _) Hall)).
  replace (omap replaceWith (active_entries catalog ls)) with (@nil (list Z));
    [done|].
  induction Hall as [|m ms Hm _ IH]; [done|]. simpl. by rewrite Hm.
Qed.

Lemma applyModifier_unfold (catalog : list (ChordModifier loc))
    (intervals : loc) (A : JsSet.t) (m : ChordModifier loc) (h : heap) :
  applyModifier catalog intervals A m h
  = let st := foldl (applyModifier_step catalog)
                (length h, h ++ [read h intervals]) (toggled (label m) A) in
    (toggled (label m) A, st.1, write st.1 (sort_asc (read st.2 st.1)) st.2).
Proof.
  unfold applyModifier, spread, alloc, toggled. cbv zeta.
  by destruct (foldl _ _ _).
Qed.

(** X18 (ChordCard.tsx, earlier revision, [applyModifier], against
    [calculateIntervals] of the current one): as long as the new active
    set holds no replace-effect label, the earlier card computes the same
    intervals as [calculateIntervals] on that set, in an array of its own,
    and leaves the chord's intervals and the catalog arrays as they
    were. *)
Theorem applyModifier_agrees_without_replace
    (catalog : list (ChordModifier loc)) (intervals : loc) (A : JsSet.t)
    (m : ChordModifier loc) (h : heap) :
  Forall (valid_modifier h) catalog →
  no_replace_active catalog (toggled (label m) A) →
  let res := applyModifier catalog intervals A m h in
  res.1.1 = toggled (label m) A
  ∧ fresh_at h res.2 res.1.2
      (calculateIntervals (resolve h <$> catalog) (read h intervals)
         (toggled (label m) A)).
Proof.
  intros Hval Hno res. unfold res. rewrite applyModifier_unfold. cbv zeta.
  split; [done|]. cbn [fst snd].
  rewrite (calculateIntervals_no_replace _ _ _
             (no_replace_active_resolve h _ _ Hno)).
  pose proof (applyModifier_fold_additive h catalog (toggled (label m) A)
                (length h) (h ++ [read h intervals]) (read h intervals)
                Hval Hno (fresh_at_alloc h h _ (extends_refl h))) as Hf.
  destruct (foldl _ _ _) as [iv g]. cbn [fst snd] in *.
  pose proof Hf as (_ & _ & _ & Hv). rewrite Hv.
  by eapply fresh_at_write.
Qed.

Lemma applyModifier_agrees_without_replace_witness :
  let catalog := (store_catalog CHORD_MODIFIERS []).1 in
  let h := (store_catalog CHORD_MODIFIERS []).2 ++ [[0; 4; 7]] in
  let ninth : ChordModifier loc :=
    mkChordModifier "9" None (Some 3%nat) None None in
  let res := applyModifier catalog 8%nat ["6"] ninth h in
  res.1.1 = ["6"; "9"]
  ∧ fresh_at h res.2 res.1.2
      (calculateIntervals (resolve h <$> catalog) [0; 4; 7] ["6"; "9"]).
Proof.
  intros catalog h ninth.
  refine (applyModifier_agrees_without_replace catalog 8%nat ["6"] ninth h
            _ _).
  - apply Forall_forall. intros m Hm.
    repeat (apply elem_of_cons in Hm as [->|Hm]);
      [split; intros ? [= <-]; vm_compute; lia..|by apply elem_of_nil in Hm].
  - intros l m Hl Hf.
    repeat (apply elem_of_cons in Hl as [->|Hl]);
      [by injection Hf as <-..|by apply elem_of_nil in Hl].
Defined.

(** X19 (ChordCard.tsx, earlier revision, [applyModifier]): switching a
    replace-effect entry on while only additive entries are active gives
    exactly the entry's array, sorted: the intervals of the other active
    labels are not in the chord although the labels stay active.  The
    array shown is the catalog's own. *)
Theorem applyModifier_replace_discards_additions
    (catalog : list (ChordModifier loc)) (intervals : loc) (A : JsSet.t)
    (mr : ChordModifier loc) (r : loc) (h : heap) :
  Forall (valid_modifier h) catalog →
  no_replace_active catalog A → label mr ∉ A →
  find_modifier catalog (label mr) = Some mr → replaceWith mr = Some r →
  let res := applyModifier catalog intervals A mr h in
  res.1.1 = A ++ [label mr] ∧ res.1.2 = r
  ∧ read res.2 r = sort_asc (read h r).
Proof.
  intros Hval Hno Hnin Hfind Hr res. unfold res.
  rewrite applyModifier_unfold. cbv zeta.
  assert (toggled (label mr) A = A ++ [label mr]) as ->.
  { unfold toggled, JsSet.add, JsSet.has. by rewrite !bool_decide_false. }
  rewrite foldl_app. cbn [foldl fst snd].
  pose proof (applyModifier_fold_additive h catalog A
                (length h) (h ++ [read h intervals]) (read h intervals)
                Hval Hno (fresh_at_alloc h h _ (extends_refl h))) as Hf.
  destruct (foldl _ _ A) as [iv g]. cbn [fst snd] in *.
  unfold applyModifier_step. rewrite Hfind, Hr. cbn [fst snd].
  split; [done|]. split; [done|].
  destruct Hf as (Hext & _ & _ & _).
  assert (r < length h)%nat as Hlt.
  { apply find_modifier_elem_of in Hfind as [Hin _].
    eapply Forall_forall in Hval; [|exact Hin]. by apply Hval. }
  rewrite read_write by (destruct Hext; lia).
  by rewrite (extends_read h g r Hext Hlt).
Qed.

Lemma applyModifier_replace_discards_additions_witness :
  let catalog := (store_catalog CHORD_MODIFIERS []).1 in
  let h := (store_catalog CHORD_MODIFIERS []).2 ++ [[0; 4; 7]] in
  let sus4 : ChordModifier loc :=
    mkChordModifier "sus4" None None None (Some 1%nat) in
  let res := applyModifier catalog 8%nat ["7"; "add9"] sus4 h in
  res.1.1 = ["7"; "add9"] ++ ["sus4"] ∧ res.1.2 = 1%nat
  ∧ read res.2 1%nat = sort_asc (read h 1%nat).
Proof.
  intros catalog h sus4.
  refine (applyModifier_replace_discards_additions catalog 8%nat
            ["7"; "add9"] sus4 1%nat h _ _ _ eq_refl eq_refl).
  - apply Forall_forall. intros m Hm.
    repeat (apply elem_of_cons in Hm as [->|Hm]);
      [split; intros ? [= <-]; vm_compute; lia..|by apply elem_of_nil in Hm].
  - intros l m Hl Hf.
    repeat (apply elem_of_cons in Hl as [->|Hl]);
      [by injection Hf as <-..|by apply elem_of_nil in Hl].
  - apply (bool_decide_unpack _). vm_compute. exact I.
Defined.

(** ** Pointer handlers: signals against presses *)

Lemma length_clearTimeout_lt id q :
  id ∈ timer_id <$> q → (length (clearTimeout id q) < length q)%nat.
Proof.
  unfold clearTimeout. induction q as [|t q IH]; simpl.
  - intros H. by apply elem_of_nil in H.
  - intros [Heq|Hin]%elem_of_cons.
    + rewrite filter_cons_False by (intros Hne; by apply Hne).
      pose proof (length_filter (λ t, timer_id t ≠ id) q). lia.
    + specialize (IH Hin).
      destruct (decide (timer_id t ≠ id)).
      * rewrite filter_cons_True by done. simpl. lia.
      * rewrite filter_cons_False by done. lia.
Qed.

Lemma not_in_clearTimeout id q : id ∉ timer_id <$> clearTimeout id q.
Proof.
  intros (t & Hid & Hin)%list_elem_of_fmap.
  apply list_elem_of_filter in Hin as [Hne _]. by apply Hne.
Qed.

Lemma find_timer_elem_of id q t :
  List.find (λ t, Pos.eqb (timer_id t) id) q = Some t →
  t ∈ q ∧ timer_id t = id.
Proof.
  intros Hf. apply List.find_some in Hf as [Hin Heq].
  apply list_elem_of_In in Hin. by apply Pos.eqb_eq in Heq.
Qed.

Lemma tap_credit_le s : (tap_credit s ≤ 1)%nat.
Proof. unfold tap_credit. case_match; lia. Qed.

Lemma tap_credit_no_modifier p l q n :
  tap_credit (mkGestureState p l None q n) = 0%nat.
Proof. unfold tap_credit. simpl. by rewrite andb_false_r. Qed.

(** One event: what is emitted, what stays armed and the tap still owed
    are paid for by what was armed, the tap owed before, and the press if
    the event is one. *)
Lemma gesture_step_potential s e :
  (length (gesture_step s e).2 + length (pending (gesture_step s e).1)
   + tap_credit (gesture_step s e).1
   ≤ length (pending s) + tap_credit s
     + (if is_pointer_down e then 1 else 0))%nat.
Proof.
  destruct e as [l| | |id|]; cbn [gesture_step is_pointer_down].
  - unfold handlePointerDown. cbn [fst snd pending length].
    rewrite length_app. cbn [length].
    assert (tap_credit
              (mkGestureState (Some (nextTimerId s)) false (Some l)
                 (pending s ++ [mkTimer (nextTimerId s) LONG_PRESS_MS l])
                 (Pos.succ (nextTimerId s))) = 0%nat) as ->; [|lia].
    unfold tap_credit, pressed. cbn [pressTimerRef pending isLongPressRef].
    rewrite bool_decide_true; [by rewrite andb_false_r|].
    rewrite fmap_app. apply elem_of_app. right. by left.
  - unfold handlePointerUp. cbn [fst snd pending].
    rewrite tap_credit_no_modifier.
    unfold cancel_press_timer, tap_credit, pressed.
    destruct (pressTimerRef s) as [id|] eqn:Href; cbn.
    + pose proof (length_clearTimeout id (pending s)) as Hle.
      destruct (currentModifierRef s) as [l|]; [|simpl; lia].
      destruct (isLongPressRef s); cbn; [lia|].
      destruct (truthy (Some l)); cbn; [|lia].
      case_bool_decide as Hin; cbn; [|lia].
      pose proof (length_clearTimeout_lt id (pending s) Hin). lia.
    + destruct (currentModifierRef s) as [l|]; [|simpl; lia].
      destruct (isLongPressRef s); cbn; [lia|].
      destruct (truthy (Some l)); cbn; lia.
  - unfold handlePointerLeave. cbn [fst snd pending].
    rewrite tap_credit_no_modifier. unfold cancel_press_timer.
    destruct (pressTimerRef s) as [id|]; cbn; [|lia].
    pose proof (length_clearTimeout id (pending s)). lia.
  - unfold timer_callback.
    destruct (List.find _ _) as [t|] eqn:Hf; cbn [fst snd]; [|simpl; lia].
    apply find_timer_elem_of in Hf as [Hin Hid].
    assert (id ∈ timer_id <$> pending s) as Hin'.
    { apply list_elem_of_fmap. by exists t. }
    pose proof (length_clearTimeout_lt id (pending s) Hin').
    unfold tap_credit at 1. cbn. lia.
  - unfold unmount_cleanup.
    destruct (pressTimerRef s) as [id|] eqn:Href; cbn [fst snd]; [|simpl; lia].
    unfold tap_credit, pressed. cbn. rewrite Href.
    rewrite (bool_decide_false (id ∈ timer_id <$> clearTimeout id (pending s)))
      by apply not_in_clearTimeout.
    pose proof (length_clearTimeout id (pending s)) as Hle.
    case_bool_decide as Hin.
    + pose proof (length_clearTimeout_lt id (pending s) Hin).
      rewrite andb_false_r. case_match; lia.
    + case_match; lia.
Qed.

Lemma gesture_run_potential s es :
  (length (gesture_run s es).2 + length (pending (gesture_run s es).1)
   + tap_credit (gesture_run s es).1
   ≤ length (pending s) + tap_credit s + presses es)%nat.
Proof.
  revert s. induction es as [|e es IH]; intros s.
  - simpl. unfold presses. simpl. lia.
  - cbn [gesture_run].
    pose proof (gesture_step_potential s e) as Hstep.
    destruct (gesture_step s e) as [s1 out1]. cbn [fst snd] in Hstep.
    specialize (IH s1). destruct (gesture_run s1 es) as [s2 out2].
    cbn [fst snd] in *. rewrite length_app.
    assert (presses (e :: es)
            = ((if is_pointer_down e then 1 else 0) + presses es)%nat) as ->.
    { unfold presses. destruct e; simpl;
        rewrite ?filter_cons_True, ?filter_cons_False by (simpl; tauto);
        done. }
    lia.
Qed.

(** One event: an emitted label was captured by an armed timeout or is the
    current modifier; the labels held afterwards were held before or come
    from the press. *)
Lemma gesture_step_labels s e l :
  (LongPressSignal l ∈ (gesture_step s e).2 ∨ TapSignal l ∈ (gesture_step s e).2
   ∨ l ∈ timer_label <$> pending (gesture_step s e).1
   ∨ currentModifierRef (gesture_step s e).1 = Some l) →
  l ∈ timer_label <$> pending s ∨ currentModifierRef s = Some l
  ∨ e = PointerDown l.
Proof.
  assert (∀ id, l ∈ timer_label <$> clearTimeout id (pending s) →
                l ∈ timer_label <$> pending s) as Hclear.
  { intros id (t & -> & Hin)%list_elem_of_fmap.
    apply list_elem_of_filter in Hin as [_ Hin].
    apply list_elem_of_fmap. by exists t. }
  destruct e as [l'| | |id|]; cbn [gesture_step].
  - unfold handlePointerDown. cbn [fst snd pending currentModifierRef].
    intros [H|[H|[H|H]]].
    + by apply elem_of_nil in H.
    + by apply elem_of_nil in H.
    + rewrite fmap_app in H. apply elem_of_app in H as [H|H]; [by left|].
      apply list_elem_of_singleton in H. simpl in H. subst. by right; right.
    + injection H as ->. by right; right.
  - unfold handlePointerUp, cancel_press_timer.
    destruct (pressTimerRef s) as [id|]; cbn;
      destruct (currentModifierRef s) as [l0|] eqn:Hcur; cbn;
      intros [H|[H|[H|H]]]; try done; eauto;
      try (by apply elem_of_nil in H);
      destruct (negb (isLongPressRef s) && truthy (Some l0));
      try (by apply elem_of_nil in H);
      apply list_elem_of_singleton in H; try done;
      injection H as ->; by right; left.
  - unfold handlePointerLeave, cancel_press_timer.
    destruct (pressTimerRef s) as [id|]; cbn;
      intros [H|[H|[H|H]]]; try done; eauto;
      by apply elem_of_nil in H.
  - unfold timer_callback.
    destruct (List.find _ _) as [t|] eqn:Hf; cbn [fst snd].
    + apply find_timer_elem_of in Hf as [Hin Hid]. cbn.
      intros [H|[H|[H|H]]]; eauto.
      * apply list_elem_of_singleton in H. injection H as ->.
        left. apply list_elem_of_fmap. by exists t.
      * by apply list_elem_of_singleton in H.
    + intros [H|[H|[H|H]]]; eauto; by apply elem_of_nil in H.
  - unfold unmount_cleanup.
    destruct (pressTimerRef s) as [id|]; cbn;
      intros [H|[H|[H|H]]]; eauto; by apply elem_of_nil in H.
Qed.

Lemma gesture_run_labels s es sg :
  sg ∈ (gesture_run s es).2 →
  signal_label sg ∈ timer_label <$> pending s
  ∨ currentModifierRef s = Some (signal_label sg)
  ∨ PointerDown (signal_label sg) ∈ es.
Proof.
  revert s. induction es as [|e es IH]; intros s.
  - simpl. intros H. by apply elem_of_nil in H.
  - cbn [gesture_run].
    pose proof (gesture_step_labels s e (signal_label sg)) as Hstep.
    destruct (gesture_step s e) as [s1 out1]. cbn [fst snd] in Hstep.
    specialize (IH s1). destruct (gesture_run s1 es) as [s2 out2].
    cbn [fst snd] in *.
    assert (signal_label sg ∈ timer_label <$> pending s1
            ∨ currentModifierRef s1 = Some (signal_label sg)
            ∨ sg ∈ out1 →
            signal_label sg ∈ timer_label <$> pending s
            ∨ currentModifierRef s = Some (signal_label sg)
            ∨ PointerDown (signal_label sg) ∈ e :: es) as Hback.
    { intros H.
      assert (signal_label sg ∈ timer_label <$> pending s
              ∨ currentModifierRef s = Some (signal_label sg)
              ∨ e = PointerDown (signal_label sg)) as [?|[?|Heq]].
      { apply Hstep. destruct H as [H|[H|H]]; [by right; right; left|
          by right; right; right|].
        destruct sg; [right; by left|by left]. }
      - by left.
      - by right; left.
      - right; right. rewrite Heq. by left. }
    intros [H|H]%elem_of_app.
    + apply Hback. by right; right.
    + destruct (IH H) as [H1|[H1|H1]].
      * apply Hback. by left.
      * apply Hback. by right; left.
      * right; right. by right.
Qed.

(** X20 (ChordCard.tsx, [handlePointerDown], [handlePointerUp],
    [handlePointerLeave] and the timeout callback): in every run of
    pointer events, timeout expiries and unmounts from the initial state,
    also with overlapping presses, [handleTap] and [handleLongPress] are
    called at most as often as there were pointer-downs, and every call
    carries the label of a pointer-down of the run. *)
Theorem signals_bounded_by_presses (es : list GestureEvent) :
  let out := (gesture_run gesture_init es).2 in
  (length out ≤ presses es)%nat
  ∧ ∀ sg, sg ∈ out → PointerDown (signal_label sg) ∈ es.
Proof.
  intros out. split.
  - pose proof (gesture_run_potential gesture_init es) as H.
    change (length (pending gesture_init)) with 0%nat in H.
    change (tap_credit gesture_init) with 0%nat in H.
    unfold out. lia.
  - intros sg Hsg. apply gesture_run_labels in Hsg as [H|[H|H]].
    + by apply elem_of_nil in H.
    + done.
    + done.
Qed.

(** ** The piano preview *)

Lemma activeKeys_fold rootIndex (ivs : list Z) (keys : gmap Z Z) k :
  is_Some (foldl (λ keys interval,
                    <[Z.rem (rootIndex + interval) 12 := interval]> keys)
                 keys ivs !! k)
  ↔ is_Some (keys !! k)
    ∨ ∃ i, i ∈ ivs ∧ Z.rem (rootIndex + i) 12 = k.
Proof.
  revert keys. induction ivs as [|i ivs IH]; intros keys; simpl.
  - split; [by left|]. intros [H|(i & Hi & _)]; [done|].
    by apply elem_of_nil in Hi.
  - rewrite IH. split.
    + intros [H|(j & Hj & Hk)].
      * destruct (decide (Z.rem (rootIndex + i) 12 = k)) as [Heq|Hne].
        -- right. exists i. split; [by left|done].
        -- left. by rewrite lookup_insert_ne in H.
      * right. exists j. split; [by right|done].
    + intros [H|(j & Hj & Hk)].
      * left. destruct (decide (Z.rem (rootIndex + i) 12 = k)) as [Heq|Hne].
        -- rewrite Heq, lookup_insert_eq. by eexists.
        -- by rewrite lookup_insert_ne.
      * apply elem_of_cons in Hj as [->|Hj].
        -- left. rewrite Hk, lookup_insert_eq. by eexists.
        -- right. by exists j.
Qed.

Lemma drawn_keys_range k : k ∈ drawn_keys ↔ (0 ≤ k < 12)%Z.
Proof.
  unfold drawn_keys. cbn. rewrite !elem_of_cons, elem_of_nil. lia.
Qed.

(** X21 (ChordCard.tsx, [PianoPreview]): a key of the preview is active
    exactly when some interval of the chord falls on it, counted from the
    root and reduced by [% 12]; the keys drawn are the twelve positions 0
    to 11; so every chord tone at or above position 0 lights one drawn
    key, tones an octave apart light the same key, and no other key is
    lit. *)
Theorem preview_shows_chord (rootIndex : Z) (currentIntervals : list Z) :
  (∀ k, isNoteActive rootIndex currentIntervals k = true
        ↔ ∃ i, i ∈ currentIntervals ∧ Z.rem (rootIndex + i) 12 = k)
  ∧ (∀ k, k ∈ drawn_keys ↔ (0 ≤ k < 12)%Z)
  ∧ (∀ i, i ∈ currentIntervals → (0 ≤ rootIndex + i)%Z →
       (rootIndex + i) `mod` 12 ∈ drawn_keys
       ∧ isNoteActive rootIndex currentIntervals ((rootIndex + i) `mod` 12)
         = true).
Proof.
  assert (∀ k, isNoteActive rootIndex currentIntervals k = true
               ↔ ∃ i, i ∈ currentIntervals ∧ Z.rem (rootIndex + i) 12 = k)
    as Hactive.
  { intros k. unfold isNoteActive, activeKeys.
    rewrite bool_decide_eq_true, activeKeys_fold, lookup_empty.
    split; [|by right]. intros [[? [=]]|H]. done. }
  split; [done|]. split; [apply drawn_keys_range|].
  intros i Hi Hpos. split.
  - apply drawn_keys_range. by apply Z.mod_pos_bound.
  - apply Hactive. exists i. split; [done|]. by apply Z.rem_mod_nonneg.
Qed.

Lemma preview_shows_chord_witness :
  isNoteActive 9 [0; 2; 7; 14] 11 = true
  ∧ (9 + 14) `mod` 12 ∈ drawn_keys
  ∧ isNoteActive 9 [0; 2; 7; 14] ((9 + 14) `mod` 12) = true.
Proof.
  destruct (preview_shows_chord 9 [0; 2; 7; 14]) as (Hactive & _ & Htone).
  split.
  - apply Hactive. exists 2. split; [|reflexivity].
    apply (bool_decide_unpack _). vm_compute. exact I.
  - apply Htone; [|lia].
    apply (bool_decide_unpack _). vm_compute. exact I.
Defined.

(** ** Pointer handlers and card handlers together *)

Lemma handleLongPress_of_render_same baseIntervals s l :
  handleLongPress_of_render baseIntervals s l s
  = handleLongPress baseIntervals l s.
Proof.
  unfold handleLongPress_of_render, handleLongPress. cbv zeta.
  cbn [lockedModifiers tempModifier currentIntervals].
  destruct (tempModifier s) as [t|] eqn:Ht; [|done].
  by destruct (truthy (Some t)).
Qed.

Lemma handleLongPress_locked_subset baseIntervals l s x :
  x ∈ lockedModifiers (handleLongPress baseIntervals l s).1 →
  x = l ∨ x ∈ lockedModifiers s.
Proof.
  destruct (decide (l ∈ lockedModifiers s)) as [Hin|Hnin].
  - rewrite (handleLongPress_locked_unlock _ _ _ Hin).
    intros [_ ?]%list_elem_of_filter. by right.
  - rewrite (handleLongPress_locked_lock _ _ _ Hnin).
    intros [[_ ?]%list_elem_of_filter| ->%list_elem_of_singleton]%elem_of_app;
      [by right|by left].
Qed.

Lemma ui_step_expire baseIntervals st g C id t seen :
  List.find (λ t, Pos.eqb (timer_id t) id) (pending g) = Some t →
  closure_of id C = Some seen →
  ui_step baseIntervals (mkCardUI st g C) (TimerExpire id)
  = (mkCardUI
       (handleLongPress_of_render baseIntervals seen (timer_label t) st).1
       (mkGestureState (pressTimerRef g) true (currentModifierRef g)
          (clearTimeout id (pending g)) (nextTimerId g))
       C,
     (handleLongPress_of_render baseIntervals seen (timer_label t) st).2).
Proof.
  intros Hf Hc. unfold ui_step, timer_callback.
  cbn [ui_gesture ui_closures ui_state]. rewrite Hf, Hc.
  by destruct (handleLongPress_of_render _ _ _ _).
Qed.

(** A long-press computed from the cells [s] after another one computed
    from the same cells: nothing of the first is left. *)
Lemma handleLongPress_of_render_twice baseIntervals s A B :
  (handleLongPress_of_render baseIntervals s B
     (handleLongPress baseIntervals A s).1).1
  = (handleLongPress baseIntervals B s).1.
Proof.
  rewrite <- (handleLongPress_of_render_same baseIntervals s B).
  unfold handleLongPress_of_render.
  destruct (handleLongPress baseIntervals B s) as [sB outB].
  cbn [fst]. f_equal.
  destruct (truthy (tempModifier s)) eqn:Ht; [done|].
  unfold handleLongPress. cbv zeta. cbn [fst tempModifier].
  destruct (tempModifier s) as [t|]; [|done]. by rewrite Ht.
Qed.

Lemma handleLongPress_of_render_played baseIntervals seen l now :
  (handleLongPress_of_render baseIntervals seen l now).2
  = (handleLongPress baseIntervals l seen).2.
Proof.
  unfold handleLongPress_of_render.
  by destruct (handleLongPress baseIntervals l seen).
Qed.

(** X22 (ChordCard.tsx, [handlePointerDown] with [handleLongPress]): the
    timeout callback calls the [handleLongPress] of the render current at
    its pointer-down.  When two presses overlap and both timeouts expire,
    both callbacks compute from the state before either: the second
    overwrites what the first set, so the card state is that of a
    long-press on the second label alone, although the chord of the first
    was played as well; the first label, if it differs from the second and
    was not locked before, is not locked afterwards. *)
Theorem overlapping_long_presses_keep_last
    (baseIntervals : list Z) (s : ModifierState) (g : GestureState)
    (A B : string) :
  pending g = [] →
  let idA := nextTimerId g in
  let idB := Pos.succ idA in
  let r := ui_run baseIntervals (mkCardUI s g [])
             [PointerDown A; PointerDown B;
              TimerExpire idA; TimerExpire idB] in
  ui_state r.1 = (handleLongPress baseIntervals B s).1
  ∧ r.2 = (handleLongPress baseIntervals A s).2
          ++ (handleLongPress baseIntervals B s).2
  ∧ (A ≠ B → A ∉ lockedModifiers s → A ∉ lockedModifiers (ui_state r.1)).
Proof.
  intros Hidle idA idB r.
  assert (Pos.eqb idA idB = false) as Hab.
  { apply Pos.eqb_neq. unfold idB. lia. }
  assert (Pos.eqb idB idA = false) as Hba.
  { apply Pos.eqb_neq. unfold idB. lia. }
  set (tA := mkTimer idA LONG_PRESS_MS A).
  set (tB := mkTimer idB LONG_PRESS_MS B).
  set (C := [(idA, s); (idB, s)]).
  set (g2 := mkGestureState (Some idB) false (Some B) [tA; tB]
               (Pos.succ idB)).
  set (g3 := mkGestureState (Some idB) true (Some B) [tB] (Pos.succ idB)).
  assert (ui_run baseIntervals (mkCardUI s g [])
            [PointerDown A; PointerDown B]
          = (mkCardUI s g2 C, [])) as Hdown.
  { cbn [ui_run ui_step handlePointerDown ui_gesture ui_state ui_closures
         nextTimerId pending app]. by rewrite Hidle. }
  assert (ui_step baseIntervals (mkCardUI s g2 C) (TimerExpire idA)
          = (mkCardUI (handleLongPress baseIntervals A s).1 g3 C,
             (handleLongPress baseIntervals A s).2)) as HexpA.
  { rewrite (ui_step_expire baseIntervals s g2 C idA tA s).
    - rewrite handleLongPress_of_render_same. f_equal. f_equal.
      unfold g3. f_equal. cbn [pending g2]. unfold clearTimeout.
      rewrite filter_cons_False by (simpl; intros H; by apply H).
      rewrite filter_cons_True by (simpl; unfold idB; lia).
      by rewrite filter_nil.
    - cbn [g2 pending List.find timer_id tA]. by rewrite Pos.eqb_refl.
    - unfold closure_of, C. cbn [List.find fst]. by rewrite Pos.eqb_refl. }
  assert (ui_step baseIntervals
            (mkCardUI (handleLongPress baseIntervals A s).1 g3 C)
            (TimerExpire idB)
          = (mkCardUI (handleLongPress baseIntervals B s).1
               (mkGestureState (Some idB) true (Some B) [] (Pos.succ idB)) C,
             (handleLongPress baseIntervals B s).2)) as HexpB.
  { rewrite (ui_step_expire baseIntervals _ g3 C idB tB s).
    - rewrite handleLongPress_of_render_twice,
        handleLongPress_of_render_played.
      f_equal. f_equal. f_equal. cbn [pending g3]. unfold clearTimeout.
      rewrite filter_cons_False by (simpl; intros H; by apply H).
      by rewrite filter_nil.
    - cbn [g3 pending List.find timer_id tB]. by rewrite Pos.eqb_refl.
    - unfold closure_of, C. cbn [List.find fst]. rewrite Hab.
      by rewrite Pos.eqb_refl. }
  assert (r = (mkCardUI (handleLongPress baseIntervals B s).1
                 (mkGestureState (Some idB) true (Some B) []
                    (Pos.succ idB)) C,
               (handleLongPress baseIntervals A s).2
               ++ (handleLongPress baseIntervals B s).2)) as ->.
  { unfold r.
    change [PointerDown A; PointerDown B; TimerExpire idA; TimerExpire idB]
      with ([PointerDown A; PointerDown B]
            ++ [TimerExpire idA; TimerExpire idB]).
    assert (∀ ui es1 es2,
      ui_run baseIntervals ui (es1 ++ es2)
      = ((ui_run baseIntervals (ui_run baseIntervals ui es1).1 es2).1,
         (ui_run baseIntervals ui es1).2
         ++ (ui_run baseIntervals (ui_run baseIntervals ui es1).1 es2).2))
      as Happ.
    { intros ui es1. revert ui.
      induction es1 as [|e es1 IH]; intros ui es2; simpl.
      - by destruct (ui_run baseIntervals ui es2).
      - destruct (ui_step baseIntervals ui e) as [ui1 out1]. rewrite IH.
        destruct (ui_run baseIntervals ui1 es1) as [ui2 out2]. simpl.
        by rewrite app_assoc. }
    rewrite Happ, Hdown. cbn [fst snd app ui_run].
    rewrite HexpA, HexpB. by rewrite app_nil_r. }
  cbn [fst snd ui_state].
  split; [done|]. split; [done|].
  intros Hne Hnin Hin.
  apply handleLongPress_locked_subset in Hin as [?|?]; done.
Qed.

Lemma overlapping_long_presses_keep_last_witness :
  let overlapped :=
    ui_run [0; 4; 7] (mkCardUI (initialState [0; 4; 7]) gesture_init [])
      [PointerDown "7"; PointerDown "add9"; TimerExpire 1; TimerExpire 2] in
  let in_turn :=
    ui_run [0; 4; 7] (mkCardUI (initialState [0; 4; 7]) gesture_init [])
      [PointerDown "7"; TimerExpire 1; PointerUp;
       PointerDown "add9"; TimerExpire 2; PointerUp] in
  lockedModifiers (ui_state in_turn.1) = ["7"; "add9"]
  ∧ lockedModifiers (ui_state overlapped.1) = ["add9"]
  ∧ ui_state overlapped.1
    = (handleLongPress [0; 4; 7] "add9" (initialState [0; 4; 7])).1
  ∧ overlapped.2 = [[0; 4; 7; 10]; [0; 4; 7; 14]]
  ∧ "7" ∉ lockedModifiers (ui_state overlapped.1).
Proof.
  intros overlapped in_turn.
  split; [reflexivity|]. split; [reflexivity|].
  destruct (overlapping_long_presses_keep_last [0; 4; 7]
              (initialState [0; 4; 7]) gesture_init "7" "add9" eq_refl)
    as (Hst & Hout & Hlost).
  split; [exact Hst|]. split; [exact Hout|].
  apply Hlost; [done|]. apply not_elem_of_nil.
Defined.

Lemma closure_of_new (C : list (positive * ModifierState)) id s :
  (∀ p, p ∈ C → (p.1 < id)%positive) →
  closure_of id (C ++ [(id, s)]) = Some s.
Proof.
  intros Hlt. unfold closure_of.
  induction C as [|p C IH]; simpl.
  - by rewrite Pos.eqb_refl.
  - assert (Pos.eqb p.1 id = false) as ->.
    { apply Pos.eqb_neq. pose proof (Hlt p (list_elem_of_here _ _)). lia. }
    apply IH. intros q Hq. apply Hlt. by right.
Qed.

Lemma clearTimeout_single_id t : clearTimeout (timer_id t) [t] = [].
Proof.
  unfold clearTimeout.
  by rewrite filter_cons_False, filter_nil by (intros H; by apply H).
Qed.

Lemma ui_inv_cancel (g : GestureState) (s : ModifierState) C :
  ui_inv (mkCardUI s g C) → pending (cancel_press_timer g) = [].
Proof.
  intros [_ [Hp|(t & Hp & Href & _)]]; simpl in *;
    unfold cancel_press_timer.
  - destruct (pressTimerRef g); simpl; [|done]. by rewrite Hp.
  - rewrite Href. simpl. rewrite Hp. apply clearTimeout_single_id.
Qed.

(** One event without a press on top of an armed timeout: the card moves
    as the handlers of the current state do on the emitted signal. *)
Lemma ui_step_agrees baseIntervals ui e :
  ui_inv ui →
  match e with PointerDown _ => pending (ui_gesture ui) = [] | _ => True end →
  ui_gesture (ui_step baseIntervals ui e).1
  = (gesture_step (ui_gesture ui) e).1
  ∧ (ui_state (ui_step baseIntervals ui e).1,
     (ui_step baseIntervals ui e).2)
    = card_run baseIntervals (ui_state ui)
        (signal_event <$> (gesture_step (ui_gesture ui) e).2)
  ∧ ui_inv (ui_step baseIntervals ui e).1.
Proof.
  destruct ui as [s g C]. intros Hinv He.
  pose proof (ui_inv_cancel g s C Hinv) as Hcancel.
  destruct Hinv as [Hids Hpend]. cbn [ui_gesture ui_state ui_closures] in *.
  destruct e as [l| | |id|].
  - cbn [ui_step gesture_step handlePointerDown fst snd ui_gesture ui_state
         ui_closures fmap list_fmap card_run].
    split; [done|]. split; [done|]. split; cbn.
    + intros p [Hp| ->%list_elem_of_singleton]%elem_of_app; simpl.
      * specialize (Hids p Hp). lia.
      * lia.
    + right. eexists. rewrite He. split; [done|]. split; [done|].
      simpl. by apply closure_of_new.
  - cbn [ui_step gesture_step ui_gesture ui_state ui_closures].
    unfold handlePointerUp. cbv zeta.
    assert (ui_inv (mkCardUI s
              (mkGestureState (pressTimerRef (cancel_press_timer g))
                 (isLongPressRef (cancel_press_timer g)) None
                 (pending (cancel_press_timer g))
                 (nextTimerId (cancel_press_timer g))) C)) as Hinv0.
    { split; cbn; [|by left].
      unfold cancel_press_timer. by destruct (pressTimerRef g). }
    destruct (currentModifierRef (cancel_press_timer g)) as [l|];
      [|by split_and!].
    destruct (negb _ && _); [|by split_and!].
    cbn [fmap list_fmap signal_event card_run card_step fst snd].
    destruct (handleTap baseIntervals l s) as [s' played].
    cbn [fst snd ui_gesture ui_state]. rewrite app_nil_r.
    split; [done|]. split; [done|].
    destruct Hinv0 as [H1 _]. split; [exact H1|left; exact Hcancel].
  - cbn [ui_step gesture_step ui_gesture ui_state ui_closures].
    unfold handlePointerLeave. cbv zeta.
    cbn [fst snd ui_gesture ui_state fmap list_fmap card_run].
    split; [done|]. split; [done|]. split; cbn; [|by left].
    unfold cancel_press_timer. by destruct (pressTimerRef g).
  - cbn [ui_step gesture_step ui_gesture ui_state ui_closures].
    unfold timer_callback.
    destruct (List.find _ (pending g)) as [t|] eqn:Hf.
    + apply find_timer_elem_of in Hf as [Hin Hid].
      destruct Hpend as [Hp|(t' & Hp & Href & Hclo)];
        [rewrite Hp in Hin; by apply elem_of_nil in Hin|].
      rewrite Hp in Hin. apply list_elem_of_singleton in Hin. subst t'.
      rewrite Hid in Hclo. rewrite Hclo.
      rewrite handleLongPress_of_render_same.
      cbn [fmap list_fmap signal_event card_run card_step fst snd].
      destruct (handleLongPress baseIntervals (timer_label t) s)
        as [s' played].
      cbn [fst snd ui_gesture ui_state]. rewrite app_nil_r.
      split; [done|]. split; [done|]. split; cbn; [done|]. left.
      rewrite Hp, <- Hid. apply clearTimeout_single_id.
    + cbn [fst snd ui_gesture ui_state fmap list_fmap card_run].
      split; [done|]. split; [done|]. by split.
  - cbn [ui_step gesture_step ui_gesture ui_state ui_closures].
    unfold unmount_cleanup.
    destruct (pressTimerRef g) as [id|] eqn:Href;
      cbn [fst snd ui_gesture ui_state fmap list_fmap card_run].
    + split; [done|]. split; [done|]. split; cbn; [done|]. left.
      unfold cancel_press_timer in Hcancel. by rewrite Href in Hcancel.
    + split; [done|]. split; [done|].
      unfold cancel_press_timer in Hcancel. rewrite Href in Hcancel.
      split; [exact Hids|left; exact Hcancel].
Qed.

Lemma card_run_app baseIntervals st es1 es2 :
  card_run baseIntervals st (es1 ++ es2)
  = ((card_run baseIntervals (card_run baseIntervals st es1).1 es2).1,
     (card_run baseIntervals st es1).2
     ++ (card_run baseIntervals (card_run baseIntervals st es1).1 es2).2).
Proof.
  revert st. induction es1 as [|e1 es1 IH]; intros st; simpl.
  - by destruct (card_run baseIntervals st es2).
  - destruct (card_step baseIntervals st e1) as [st1 o1]. rewrite IH.
    destruct (card_run baseIntervals st1 es1) as [st2 o2]. simpl.
    by rewrite app_assoc.
Qed.

Lemma ui_run_agrees baseIntervals ui es :
  ui_inv ui → no_reentrant_press (ui_gesture ui) es →
  ui_state (ui_run baseIntervals ui es).1
  = (card_run baseIntervals (ui_state ui)
       (signal_event <$> (gesture_run (ui_gesture ui) es).2)).1
  ∧ ui_gesture (ui_run baseIntervals ui es).1
    = (gesture_run (ui_gesture ui) es).1
  ∧ (ui_run baseIntervals ui es).2
    = (card_run baseIntervals (ui_state ui)
         (signal_event <$> (gesture_run (ui_gesture ui) es).2)).2.
Proof.
  revert ui. induction es as [|e es IH]; intros ui Hinv Hno; [done|].
  destruct Hno as [He Hno].
  destruct (ui_step_agrees baseIntervals ui e Hinv) as (Hg & Hc & Hinv1).
  { by destruct e. }
  cbn [gesture_run ui_run].
  destruct (ui_step baseIntervals ui e) as [ui1 out1].
  destruct (gesture_step (ui_gesture ui) e) as [g1 sig1].
  cbn [fst snd] in *. subst g1.
  specialize (IH ui1 Hinv1 Hno).
  destruct (ui_run baseIntervals ui1 es) as [ui2 out2].
  destruct (gesture_run (ui_gesture ui1) es) as [g2 sig2].
  cbn [fst snd] in *. destruct IH as (IH1 & IH2 & IH3).
  rewrite fmap_app, card_run_app, <- Hc. cbn [fst snd].
  by rewrite IH1, IH2, IH3.
Qed.



(** ** The earlier card: the two variation modes *)

(** X24 (ChordCard.tsx, earlier revision, [handleSelectChange] against
    [applyModifier]): choosing a variation in the select box does what the
    button of that variation does on a card with no active modifier: the
    same active set, the same array object and the same heap, the catalog
    array included when the entry has a replace effect.  The empty choice
    resets to the chord's own array without a copy and changes no array; a
    label without catalog entry sets nothing. *)
Theorem handleSelectChange_as_applyModifier
    (catalog : list (ChordModifier loc)) (intervals : loc)
    (selectedLabel : string) (h : heap) :
  handleSelectChange catalog intervals "" h = Some ([], intervals, h)
  ∧ (selectedLabel ≠ "" →
     match find_modifier catalog selectedLabel with
     | Some modifier =>
         handleSelectChange catalog intervals selectedLabel h
         = Some (applyModifier catalog intervals [] modifier h)
     | None => handleSelectChange catalog intervals selectedLabel h = None
     end).
Proof.
  split; [done|]. intros Hne. unfold handleSelectChange.
  destruct (String.eqb_spec selectedLabel ""); [done|].
  destruct (find_modifier catalog selectedLabel) as [m|] eqn:Hf; [|done].
  pose proof (find_modifier_label _ _ _ Hf) as Hl.
  unfold applyModifier, JsSet.has, JsSet.add, JsSet.has.
  rewrite !bool_decide_false by apply not_elem_of_nil.
  rewrite Hl. cbn [app foldl]. unfold applyModifier_step. rewrite Hf.
  unfold spread, alloc. cbn [fst snd].
  destruct (replaceWith m); [done|].
  by destruct (apply_additive_h _ m).
Qed.

Lemma handleSelectChange_as_applyModifier_witness :
  let catalog := (store_catalog CHORD_MODIFIERS []).1 in
  let h := (store_catalog CHORD_MODIFIERS []).2 ++ [[0; 4; 7]] in
  let aug : ChordModifier loc :=
    mkChordModifier "aug" None None None (Some 7%nat) in
  handleSelectChange catalog 8%nat "aug" h
  = Some (applyModifier catalog 8%nat [] aug h)
  ∧ handleSelectChange catalog 8%nat "m7b5" h = None.
Proof.
  intros catalog h aug. split.
  - exact (proj2 (handleSelectChange_as_applyModifier catalog 8%nat "aug" h)
             ltac:(done)).
  - exact (proj2 (handleSelectChange_as_applyModifier catalog 8%nat "m7b5" h)
             ltac:(done)).
Defined.

(** ** What the card shows *)

Lemma card_shows_active_step baseIntervals st e :
  Sorted Z.le baseIntervals → event_ok e →
  currentIntervals st
  = calculateIntervals CHORD_MODIFIERS baseIntervals (activeModifiers st) →
  currentIntervals (card_step baseIntervals st e).1
  = calculateIntervals CHORD_MODIFIERS baseIntervals
      (activeModifiers (card_step baseIntervals st e).1).
Proof.
  intros Hsorted He IH. destruct e as [l|l|]; cbn [card_step].
  - unfold handleTap. case_bool_decide as Htemp.
    + done.
    + destruct (JsSet.has l (lockedModifiers st)); [done|].
      cbn [fst currentIntervals activeModifiers tempModifier lockedModifiers
           add_if_truthy].
      simpl in He. by rewrite (truthy_nonempty l He).
  - unfold handleLongPress. cbv zeta.
    by cbn [fst currentIntervals activeModifiers tempModifier
            lockedModifiers].
  - cbn [fst resetModifiers currentIntervals activeModifiers tempModifier
         lockedModifiers add_if_truthy].
    unfold calculateIntervals. cbn [foldl]. by rewrite sort_asc_id.
Qed.

(** The signals of the pointer handlers are events the card accepts: a tap
    carries a non-empty label. *)
Lemma gesture_run_signals_ok s es :
  Forall event_ok (signal_event <$> (gesture_run s es).2).
Proof.
  revert s. induction es as [|e es IH]; intros s; [constructor|].
  cbn [gesture_run].
  pose proof (tap_signal_nonempty s e) as Htap.
  specialize (IH (gesture_step s e).1).
  destruct (gesture_step s e) as [s1 out1]. cbn [fst snd] in *.
  destruct (gesture_run s1 es) as [s2 out2]. cbn [fst snd] in *.
  rewrite fmap_app. apply Forall_app. split; [|done].
  apply Forall_forall. intros ev (sg & -> & Hsg)%list_elem_of_fmap.
  destruct sg as [l|l]; [|exact I]. by apply Htap.
Qed.

(** Without overlapping presses the card with its pointer handlers only
    reaches states that [handleTap] and [handleLongPress], run one after
    the other, reach. *)
Lemma ui_run_reachable baseIntervals es :
  no_reentrant_press gesture_init es →
  reachable baseIntervals
    (ui_state
       (ui_run baseIntervals
          (mkCardUI (initialState baseIntervals) gesture_init []) es).1).
Proof.
  intros Hno.
  destruct (ui_run_agrees baseIntervals
              (mkCardUI (initialState baseIntervals) gesture_init []) es)
    as (Hst & _ & _); [|done|].
  { split; cbn; [|by left]. intros p Hp. by apply elem_of_nil in Hp. }
  rewrite Hst. apply reachable_run; [constructor|].
  apply gesture_run_signals_ok.
Qed.

Lemma reachable_shows_active baseIntervals st :
  Sorted Z.le baseIntervals → reachable baseIntervals st →
  currentIntervals st
  = calculateIntervals CHORD_MODIFIERS baseIntervals (activeModifiers st).
Proof.
  intros Hsorted Hr. induction Hr as [|st e Hr IH He].
  - cbn [initialState currentIntervals activeModifiers tempModifier
         lockedModifiers add_if_truthy].
    unfold calculateIntervals. cbn [foldl]. by rewrite sort_asc_id.
  - by apply card_shows_active_step.
Qed.

(** X25 (ChordCard.tsx, pointer handlers with [handleTap], [handleLongPress]
    and the reset effect): for a chord whose base intervals are in
    ascending order, as long as no pointer-down arrives while a timeout is
    armed, the intervals the card shows and plays from ([currentIntervals])
    are [calculateIntervals] of its active modifiers, the locked ones plus
    the transient one; so it is in every state that [handleTap] and
    [handleLongPress] reach when run one after the other.  The condition
    is needed: on the major triad, a press of [7], a press of [9] before
    the first is released, the release and then the expiry of the first
    timeout leave [7] locked and [9] transient with the intervals of [7]
    alone. *)
Theorem card_shows_active_modifiers (baseIntervals : list Z)
    (es : list GestureEvent) :
  Sorted Z.le baseIntervals →
  let card es :=
    ui_state
      (ui_run baseIntervals
         (mkCardUI (initialState baseIntervals) gesture_init []) es).1 in
  let shows_active st :=
    currentIntervals st
    = calculateIntervals CHORD_MODIFIERS baseIntervals (activeModifiers st) in
  (no_reentrant_press gesture_init es → shows_active (card es))
  ∧ (∀ st, reachable baseIntervals st → shows_active st)
  ∧ (baseIntervals = [0; 4; 7] →
     let overlapped :=
       card [PointerDown "7"; PointerDown "9"; PointerUp; TimerExpire 1] in
     overlapped = mkModifierState ["7"] (Some "9") [0; 4; 7; 10]
     ∧ calculateIntervals CHORD_MODIFIERS baseIntervals
         (activeModifiers overlapped) = [0; 4; 7; 10; 14]
     ∧ ¬ shows_active overlapped).
Proof.
  intros Hsorted card shows_active. split; [|split].
  - intros Hno. apply reachable_shows_active; [done|].
    by apply ui_run_reachable.
  - intros st Hr. by apply reachable_shows_active.
  - intros ->. cbv zeta. split; [vm_compute; reflexivity|].
    split; [vm_compute; reflexivity|].
    unfold shows_active. vm_compute. discriminate.
Qed.

Lemma card_shows_active_modifiers_witness :
  let card es :=
    ui_state
      (ui_run [0; 3; 7] (mkCardUI (initialState [0; 3; 7]) gesture_init [])
         es).1 in
  let st := card [PointerDown "7"; TimerExpire 1; PointerUp;
                  PointerDown "add9"; PointerUp;
                  PointerDown "sus4"; TimerExpire 3; PointerUp] in
  activeModifiers st = ["7"; "sus4"; "add9"]
  ∧ currentIntervals st
    = calculateIntervals CHORD_MODIFIERS [0; 3; 7] (activeModifiers st).
Proof.
  intros card st. split; [reflexivity|].
  assert (Sorted Z.le [0; 3; 7]) as Hsorted.
  { apply (bool_decide_unpack _). vm_compute. exact I. }
  apply (proj1 (card_shows_active_modifiers [0; 3; 7]
                  [PointerDown "7"; TimerExpire 1; PointerUp;
                   PointerDown "add9"; PointerUp;
                   PointerDown "sus4"; TimerExpire 3; PointerUp] Hsorted)).
  vm_compute. tauto.
Defined.

(** ** One interval at a time *)

(** X26 (ChordTimeline.tsx, all handlers and the interval callback): in
    every state the timeline can reach at most one interval is armed, the
    one stored in [intervalRef], and none while [isPlaying] is false; a
    tick for any other handle does nothing. *)
Theorem timeline_single_interval (s : Scheduler) :
  timeline_reachable s →
  (length (armed s) ≤ 1)%nat
  ∧ (∀ t, t ∈ armed s → intervalRef s = Some (interval_id t))
  ∧ (isPlaying s = false → armed s = [])
  ∧ (∀ id, intervalRef s ≠ Some id → tick id s = (s, [])).
Proof.
  intros Hr. apply timeline_reachable_inv in Hr.
  pose proof (timeline_inv_stopped s Hr) as Hstop.
  destruct Hr as (Hids & _ & _).
  assert (∀ t, t ∈ armed s → intervalRef s = Some (interval_id t)) as Href.
  { intros t Ht. destruct (armed s) as [|t0 q]; [by apply elem_of_nil in Ht|].
    destruct (intervalRef s) as [i|]; [|done].
    destruct q; [|done]. injection Hids as <-.
    apply list_elem_of_singleton in Ht. by subst. }
  split_and!; [|done|done|].
  - apply (f_equal length) in Hids. rewrite length_fmap in Hids.
    rewrite Hids. destruct (intervalRef s); simpl; lia.
  - intros id Hne. unfold tick.
    destruct (List.find _ _) as [t|] eqn:Hf; [|done].
    apply List.find_some in Hf as [Hin Hid].
    apply Pos.eqb_eq in Hid. apply list_elem_of_In in Hin.
    apply Href in Hin. congruence.
Qed.

Lemma timeline_single_interval_witness :
  let c1 := mkChord "a" "C" [0; 4; 7] "I" 2 in
  let s := (timeline_run (timeline_init [c1] 120 true)
              [PlayPause; Tick 1; PlayPause; PlayPause; PlayPause;
               PlayPause; Tick 3]).1 in
  isPlaying s = true
  ∧ (length (armed s) ≤ 1)%nat
  ∧ (∀ t, t ∈ armed s → intervalRef s = Some (interval_id t))
  ∧ (isPlaying s = false → armed s = [])
  ∧ (∀ id, intervalRef s ≠ Some id → tick id s = (s, [])).
Proof.
  intros c1 s. split; [reflexivity|].
  apply (timeline_single_interval s).
  apply timeline_reachable_run. constructor.
Defined.

(** ** MIDI input: notes switched on and off *)

Lemma notes_add_set x s :
  list_to_set (notes_add x s) =@{gset (option Z)} list_to_set s ∪ {[ x ]}.
Proof.
  apply set_eq. intros y.
  rewrite elem_of_union, elem_of_singleton, !elem_of_list_to_set.
  unfold notes_add. case_bool_decide as Hin.
  - split; [by left|]. intros [?| ->]; done.
  - rewrite elem_of_app, list_elem_of_singleton. tauto.
Qed.

Lemma notes_delete_set x s :
  list_to_set (notes_delete x s) =@{gset (option Z)} list_to_set s ∖ {[ x ]}.
Proof.
  unfold notes_delete. apply set_eq. intros y.
  rewrite elem_of_list_to_set, list_elem_of_filter, elem_of_difference,
    elem_of_list_to_set, elem_of_singleton. tauto.
Qed.

Lemma sounding_from_app s c1 c2 :
  sounding_from s (c1 ++ c2) = sounding_from (sounding_from s c1) c2.
Proof. apply foldl_app. Qed.

Lemma sounding_from_offs (s : gset (option Z)) ns :
  sounding_from s (NoteOffCall <$> ns) = s ∖ list_to_set ns.
Proof.
  revert s. induction ns as [|n ns IH]; intros s.
  - simpl. apply set_eq. intros y.
    rewrite elem_of_difference, elem_of_empty. tauto.
  - unfold sounding_from in *. cbn [fmap list_fmap foldl]. rewrite IH.
    apply set_eq. intros y. cbn [list_to_set].
    rewrite !elem_of_difference, elem_of_union, elem_of_singleton. tauto.
Qed.

(** One event with both callbacks given: the consumer's sounding notes
    stay the notes of [activeNotesRef]. *)
Lemma midi_step_sounding s e :
  list_to_set (midi_step true true s e).1
  =@{gset (option Z)} sounding_from (list_to_set s) (midi_step true true s e).2.
Proof.
  destruct e as [data|]; cbn [midi_step].
  - unfold handleMIDIMessage. cbv zeta.
    destruct (_ && _); [|destruct (_ || _)]; cbn [fst snd].
    + unfold sounding_from. simpl. apply notes_add_set.
    + unfold sounding_from. simpl. apply notes_delete_set.
    + done.
  - unfold stopAllNotes. cbn [fst snd]. rewrite sounding_from_offs.
    apply set_eq. intros y. cbn [list_to_set].
    rewrite elem_of_difference, elem_of_empty. tauto.
Qed.

Lemma midi_run_sounding s es :
  list_to_set (midi_run true true s es).1
  =@{gset (option Z)} sounding_from (list_to_set s) (midi_run true true s es).2.
Proof.
  revert s. induction es as [|e es IH]; intros s; [done|].
  cbn [midi_run]. pose proof (midi_step_sounding s e) as Hstep.
  destruct (midi_step true true s e) as [s1 out1]. cbn [fst snd] in Hstep.
  specialize (IH s1). destruct (midi_run true true s1 es) as [s2 out2].
  cbn [fst snd] in *. by rewrite sounding_from_app, <- Hstep.
Qed.

Lemma midi_run_app on off s es1 es2 :
  midi_run on off s (es1 ++ es2)
  = ((midi_run on off (midi_run on off s es1).1 es2).1,
     (midi_run on off s es1).2
     ++ (midi_run on off (midi_run on off s es1).1 es2).2).
Proof.
  revert s. induction es1 as [|e es1 IH]; intros s; simpl.
  - by destruct (midi_run on off s es2).
  - destruct (midi_step on off s e) as [s1 out1]. rewrite IH.
    destruct (midi_run on off s1 es1) as [s2 out2]. simpl.
    by rewrite app_assoc.
Qed.

(** X27 (useMidiInput.ts, [handleMIDIMessage] and [stopAllNotes]): with
    both callbacks given, after any sequence of MIDI messages, of any
    length and content, and calls of [stopAllNotes], the notes a consumer
    has sounding (started by [onNoteOn] and not stopped by [onNoteOff]
    since) are exactly the notes of [activeNotesRef]; so after
    [stopAllNotes] no note is left sounding and the set is empty. *)
Theorem stopAllNotes_leaves_no_note (es : list MidiEvent) :
  let r := midi_run true true [] es in
  let r' := midi_run true true [] (es ++ [StopAllNotes]) in
  sounding_from ∅ r.2 = list_to_set r.1
  ∧ r'.1 = [] ∧ sounding_from ∅ r'.2 = ∅.
Proof.
  intros r r'.
  pose proof (midi_run_sounding [] es) as Hinv. fold r in Hinv.
  split; [done|].
  pose proof (midi_run_sounding [] (es ++ [StopAllNotes])) as Hinv'.
  fold r' in Hinv'.
  assert (r'.1 = []) as Hempty.
  { unfold r'. rewrite midi_run_app. cbn [fst snd midi_run midi_step].
    done. }
  split; [done|]. rewrite Hempty in Hinv'. done.
Qed.

(** * The conflict resolver on any string *)

Lemma own_keys_not_inherited l c :
  MODIFIER_CATEGORIES !! l = Some c → l ∉ Object_prototype_names.
Proof.
  intros Hl Hin. unfold Object_prototype_names in Hin.
  repeat (apply elem_of_cons in Hin as [->|Hin]; [by vm_compute in Hl|]).
  by apply elem_of_nil in Hin.
Qed.

Lemma MODIFIER_CATEGORIES_at_cases l :
  (∃ c, MODIFIER_CATEGORIES !! l = Some c
        ∧ MODIFIER_CATEGORIES_at l = OwnCategory c
        ∧ (l ∉ Object_prototype_names))
  ∨ (MODIFIER_CATEGORIES !! l = None ∧ (l ∈ Object_prototype_names)
     ∧ MODIFIER_CATEGORIES_at l = InheritedValue)
  ∨ (MODIFIER_CATEGORIES !! l = None ∧ (l ∉ Object_prototype_names)
     ∧ MODIFIER_CATEGORIES_at l = NoValue).
Proof.
  unfold MODIFIER_CATEGORIES_at.
  destruct (MODIFIER_CATEGORIES !! l) as [c|] eqn:Hl.
  - left. exists c. split; [done|]. split; [done|].
    by eapply own_keys_not_inherited.
  - case_bool_decide; [right; left|right; right]; done.
Qed.

(** With a list of categories the loop never throws and pushes what the
    loop on the own keys pushes. *)
Lemma conflict_fold_js_listed listed conflicts (active : list string) :
  foldl (conflict_step_js (Some listed)) (Returns conflicts) active
  = Returns (foldl (conflict_step listed) conflicts active).
Proof.
  revert conflicts. induction active as [|a active IH]; intros conflicts;
    [done|].
  cbn [foldl]. unfold conflict_step_js at 2, conflict_step at 2.
  destruct (MODIFIER_CATEGORIES_at_cases a)
    as [(c & Hc & -> & _)|[(Hc & _ & ->)|(Hc & _ & ->)]]; rewrite Hc.
  - destruct (includes c listed); apply IH.
  - apply IH.
  - apply IH.
Qed.

(** Without one ([undefined]) it throws at the first active label whose
    lookup is truthy. *)
Lemma conflict_fold_js_undefined conflicts (active : list string) :
  foldl (conflict_step_js None) (Returns conflicts) active
  = if bool_decide (Exists (λ a, MODIFIER_CATEGORIES_at a ≠ NoValue) active)
    then ThrowsTypeError else Returns conflicts.
Proof.
  assert (∀ l : list string,
            foldl (conflict_step_js None) ThrowsTypeError l
            = ThrowsTypeError) as Hthrown.
  { induction l as [|a l IH]; [done|]. apply IH. }
  induction active as [|a active IH].
  - rewrite bool_decide_false; [done|]. by intros ?%Exists_nil.
  - cbn [foldl]. unfold conflict_step_js at 2.
    destruct (MODIFIER_CATEGORIES_at a) eqn:Ha.
    + rewrite Hthrown, bool_decide_true; [done|].
      apply Exists_cons. left. by rewrite Ha.
    + rewrite Hthrown, bool_decide_true; [done|].
      apply Exists_cons. left. by rewrite Ha.
    + rewrite IH.
      rewrite (bool_decide_ext
                 (Exists (λ a, MODIFIER_CATEGORIES_at a ≠ NoValue)
                    (a :: active))
                 (Exists (λ a, MODIFIER_CATEGORIES_at a ≠ NoValue) active));
        [done|].
      rewrite Exists_cons. split; [|by right]. intros [?|?]; done.
Qed.

(** On a label that names no inherited property the function on any
    string returns what the one on the own keys returns. *)
Lemma getConflictingModifiers_js_own candidate active :
  candidate ∉ Object_prototype_names →
  getConflictingModifiers_js candidate active
  = Returns (getConflictingModifiers candidate active).
Proof.
  intros Hnot. unfold getConflictingModifiers_js, getConflictingModifiers.
  destruct (MODIFIER_CATEGORIES_at_cases candidate)
    as [(c & Hc & -> & _)|[(Hc & Hin & _)|(Hc & _ & ->)]];
    [|done|]; rewrite Hc; [|done].
  cbn [CATEGORY_CONFLICTS_at]. apply conflict_fold_js_listed.
Qed.

(** C3: [getConflictingModifiers] is not total.  A candidate that names a
    property inherited from [Object.prototype], such as [constructor], has
    no category, yet passes the guard for unknown labels; the function then
    throws a [TypeError] as soon as an active label has a truthy lookup,
    for instance any label with a category.  It throws in exactly these
    cases.  Whenever it returns, and it does for every candidate that
    names no inherited property, the result is exactly the active labels
    whose category is listed under the candidate's category, in the order
    of the active set. *)
Theorem getConflictingModifiers_js_throws_on_inherited :
  MODIFIER_CATEGORIES !! "constructor" = None
  ∧ getConflictingModifiers_js "constructor" ["7"] = ThrowsTypeError
  ∧ ∀ (candidate : string) (active : JsSet.t),
      (getConflictingModifiers_js candidate active = ThrowsTypeError
       ↔ candidate ∈ Object_prototype_names
         ∧ ∃ a, a ∈ active ∧ MODIFIER_CATEGORIES_at a ≠ NoValue)
      ∧ (∀ result,
           getConflictingModifiers_js candidate active = Returns result →
           result = filter (listed_under candidate) active)
      ∧ (candidate ∉ Object_prototype_names →
         getConflictingModifiers_js candidate active
         = Returns (filter (listed_under candidate) active)).
Proof.
  split; [done|]. split; [done|]. intros candidate active.
  assert (candidate ∉ Object_prototype_names →
          getConflictingModifiers_js candidate active
          = Returns (filter (listed_under candidate) active)) as Hown.
  { intros Hnot. rewrite getConflictingModifiers_js_own by done.
    by rewrite getConflictingModifiers_filter. }
  destruct (decide (candidate ∈ Object_prototype_names)) as [Hin|Hnot].
  - assert (MODIFIER_CATEGORIES !! candidate = None) as Hnone.
    { destruct (MODIFIER_CATEGORIES !! candidate) as [c|] eqn:Hc; [|done].
      by destruct (own_keys_not_inherited candidate c Hc). }
    assert (filter (listed_under candidate) active = []) as Hnil.
    { rewrite <- getConflictingModifiers_filter.
      unfold getConflictingModifiers. by rewrite Hnone. }
    assert (getConflictingModifiers_js candidate active
            = if bool_decide (Exists (λ a, MODIFIER_CATEGORIES_at a ≠ NoValue)
                                active)
              then ThrowsTypeError else Returns []) as ->.
    { unfold getConflictingModifiers_js.
      destruct (MODIFIER_CATEGORIES_at_cases candidate)
        as [(c & Hc & _)|[(_ & _ & ->)|(_ & Hnot & _)]];
        [by rewrite Hc in Hnone| |done].
      cbn [CATEGORY_CONFLICTS_at]. apply conflict_fold_js_undefined. }
    rewrite Hnil. case_bool_decide as Hsome; rewrite Exists_exists in Hsome;
      split_and!.
    + split; [by intros _|done].
    + by intros result.
    + done.
    + split; [done|]. by intros [_ ?].
    + by intros result [= <-].
    + done.
  - rewrite (Hown Hnot). split_and!.
    + split; [done|]. by intros [? _].
    + by intros result [= <-].
    + done.
Qed.

(** * Pointer interactions one after the other, and overlapping *)









(** * What a tap plays *)



